(** * invoker: rank assignment, local state store and restart reconciliation

    A shallow embedding of the decision logic of the [internal] package
    (run.go, ism.go, state_manager.go, docker_misc.go and the helpers file),
    together with the properties of it that the specification states.

    Conventions.
    - Go [string] is a byte sequence: [string] (a list of [ascii]).
    - Go [int] is a 64-bit integer: [Z], with the range as a hypothesis
      where a result depends on it.
    - Go maps are [gmap]s.  Where the source ranges over a map and the result
      can depend on the order, the order is an explicit argument (any
      permutation of the entries), because Go leaves it unspecified.
    - A [nil] map is [None]; reading it behaves like the empty map, writing to
      it panics.
    - Run-time panics and [os.Exit] are explicit outcomes. *)

From Stdlib Require Import ZArith Ascii String List Lia.
From Stdlib Require Import Strings.Byte.
From stdpp Require Import gmap strings list fin_maps sorting.

Local Open Scope Z_scope.

(** ** Outcomes of Go code *)

(** The result of running a Go function body: it returns a value, the
    goroutine panics, or the process ends in [os.Exit]. *)
Inductive run (A : Type) : Type :=
  | Ret (a : A)
  | Panic (msg : string)
  | Exit (code : Z).
Arguments Ret {A} a.
Arguments Panic {A} msg.
Arguments Exit {A} code.

Global Instance run_ret : MRet run := λ A a, Ret a.
Global Instance run_bind : MBind run := λ A B k m,
  match m with
  | Ret a => k a
  | Panic msg => Panic msg
  | Exit code => Exit code
  end.

(** Go [error] values: the two sentinels of the package, errors made by
    [errors.New], [errors.Errorf] and the libraries, and the wrappers
    [errors.WithMessage] and [errors.WithMessagef].  [None : option error] is
    the [nil] error. *)
Inductive error : Type :=
  | ErrOmitHost
  | ErrContainerNotFound
  | ErrNew (msg : string)
  | WithMessage (cause : error) (msg : string).

Global Instance error_eq_dec : EqDecision error.
Proof. solve_decision. Defined.

(** [errors.Is err target] for a sentinel target: it follows the chain of
    wrapped causes. *)
Fixpoint errors_Is (err target : error) : bool :=
  if decide (err = target) then true
  else match err with
       | WithMessage cause _ => errors_Is cause target
       | _ => false
       end.

(** ** The parts of the Go standard library that the code calls *)

Module GoStrings.

(** [strings.HasPrefix s prefix]. *)
Definition HasPrefix (s pre : string) : bool := String.prefix pre s.

(** [strings.Split s sep] for a separator of one byte.  The result always
    has at least one element; a string without the separator is returned
    whole. *)
Fixpoint Split (s : string) (sep : ascii) : list string :=
  match s with
  | EmptyString => [EmptyString]
  | String c s' =>
      if Ascii.eqb c sep then EmptyString :: Split s' sep
      else match Split s' sep with
           | [] => [String c EmptyString]
           | x :: xs => String c x :: xs
           end
  end.

(** [strings.Join elems sep]. *)
Fixpoint Join (elems : list string) (sep : string) : string :=
  match elems with
  | [] => EmptyString
  | [x] => x
  | x :: xs => x +:+ sep +:+ Join xs sep
  end.

End GoStrings.

Module GoPath.

(** The element-wise pass of [filepath.Clean] on Unix: empty elements and
    [.] are dropped, [..] removes the element before it, stays when the
    path is relative and nothing is left to remove, and is dropped at the
    root.  [out] is the cleaned part, last element first. *)
Fixpoint clean_elems (rooted : bool) (elems out : list string) : list string :=
  match elems with
  | [] => rev out
  | e :: es =>
      if decide (e = "" ∨ e = ".") then clean_elems rooted es out
      else if decide (e = "..") then
        match out with
        | top :: out' =>
            if decide (top = "..") then clean_elems rooted es (e :: out)
            else clean_elems rooted es out'
        | [] =>
            if rooted then clean_elems rooted es []
            else clean_elems rooted es [e]
        end
      else clean_elems rooted es (e :: out)
  end.

Definition rooted (path : string) : bool :=
  match path with
  | String "/" _ => true
  | _ => false
  end.

(** [filepath.Clean]. *)
Definition Clean (path : string) : string :=
  if decide (path = "") then "."
  else
    let elems := clean_elems (rooted path) (GoStrings.Split path "/"%char) [] in
    if rooted path then "/" +:+ GoStrings.Join elems "/"
    else if decide (elems = []) then "."
    else GoStrings.Join elems "/".

(** [filepath.Join] of two elements: empty elements are ignored, the
    result is cleaned, and two empty elements give the empty string. *)
Definition Join (a b : string) : string :=
  if decide (a = "") then (if decide (b = "") then "" else Clean b)
  else if decide (b = "") then Clean a
  else Clean (a +:+ "/" +:+ b).

End GoPath.

Module GoStrconv.

Definition is_digit (c : ascii) : bool :=
  (48 <=? Z.of_N (N_of_ascii c)) && (Z.of_N (N_of_ascii c) <=? 57).

(** The value of a string of decimal digits. *)
Fixpoint digits_value (acc : Z) (s : string) : Z :=
  match s with
  | EmptyString => acc
  | String c s' => digits_value (10 * acc + (Z.of_N (N_of_ascii c) - 48)) s'
  end.

Definition maxInt : Z := 2 ^ 63 - 1.

(** [strconv.Atoi] on a non-empty string of decimal digits: the value, or
    the largest [int] together with a range error. *)
Definition Atoi (s : string) : Z * option error :=
  let v := digits_value 0 s in
  if v <=? maxInt then (v, None)
  else (maxInt, Some (ErrNew "strconv.Atoi: value out of range")).

End GoStrconv.

(** [regexp.MustCompile(`Exited \((\d+)\)`)] and its [FindStringSubmatch]:
    the leftmost place where the text [Exited (], then one or more decimal
    digits, then [)] occur in a row. *)
Module ExitCodeRegexp.

(** The longest prefix of digits, and what follows it. *)
Fixpoint span_digits (s : string) : string * string :=
  match s with
  | EmptyString => (EmptyString, EmptyString)
  | String c s' =>
      if GoStrconv.is_digit c then
        let '(ds, rest) := span_digits s' in (String c ds, rest)
      else (EmptyString, s)
  end.

Fixpoint strip_prefix (pre s : string) : option string :=
  match pre, s with
  | EmptyString, _ => Some s
  | String a pre', String b s' =>
      if Ascii.eqb a b then strip_prefix pre' s' else None
  | String _ _, EmptyString => None
  end.

(** A match that starts at the first byte of [s]: the text of the group. *)
Definition match_here (s : string) : option string :=
  match strip_prefix "Exited (" s with
  | Some s' =>
      match span_digits s' with
      | (EmptyString, _) => None
      | (ds, String ")" _) => Some ds
      | _ => None
      end
  | None => None
  end.

(** [FindStringSubmatch]: [None] is the [nil] slice, [Some ds] the slice
    whose element 1 is [ds]. *)
Fixpoint FindStringSubmatch (s : string) : option string :=
  match match_here s with
  | Some ds => Some ds
  | None =>
      match s with
      | EmptyString => None
      | String _ s' => FindStringSubmatch s'
      end
  end.

End ExitCodeRegexp.

(** [encoding/gob], as far as [Encoder.Encode] of a struct of strings,
    ints, string slices and string pointers goes.  The wire format is the
    one the package documents: an unsigned integer below 128 is one byte,
    a larger one is the negated count of its bytes followed by the bytes,
    most significant first; a signed integer is an unsigned one whose bit 0
    says whether to complement; a string is its length and its bytes; a
    slice is its length and its elements; a struct is a sequence of (field
    number delta, value) pairs ended by a zero, in which a field with the
    zero value is left out, and a pointer is sent as what it points to. *)
Module Gob.

Global Instance byte_eq_dec : EqDecision byte := Byte.byte_eq_dec.

Definition byte_of_Z (x : Z) : byte :=
  default "000"%byte (Byte.of_N (Z.to_N (x mod 256))).

Definition Z_of_byte (b : byte) : Z := Z.of_N (Byte.to_N b).

(** [binary.BigEndian.PutUint64]: the eight bytes of [x]. *)
Definition PutUint64 (x : Z) : list byte :=
  (λ k, byte_of_Z (Z.shiftr x (8 * k))) <$> [7; 6; 5; 4; 3; 2; 1; 0].

(** [bits.LeadingZeros64]. *)
Definition LeadingZeros64 (x : Z) : Z :=
  if decide (x = 0) then 64 else 63 - Z.log2 x.

Definition uint64Size : Z := 8.

(** [encoderState.encodeUint]: [x] is a [uint64].  The marker byte
    [uint8(bc - uint64Size)] is written over the last leading zero byte. *)
Definition encodeUint (x : Z) : list byte :=
  if x <=? 127 then [byte_of_Z x]
  else
    let bc := Z.shiftr (LeadingZeros64 x) 3 in
    byte_of_Z (bc - uint64Size) :: drop (Z.to_nat bc) (PutUint64 x).

(** [encoderState.encodeInt]: [i] is an [int64]; the shifts are taken in
    64 bits. *)
Definition encodeInt (i : Z) : list byte :=
  if i <? 0
  then encodeUint (Z.lor (Z.shiftl (Z.lnot i) 1 mod 2 ^ 64) 1)
  else encodeUint (Z.shiftl i 1 mod 2 ^ 64).

(** A string with [sendZero] set: the count and the raw bytes. *)
Definition encodeString (s : string) : list byte :=
  encodeUint (Z.of_nat (String.length s)) ++ String.list_byte_of_string s.

(** [Encoder.encodeArray] for a [[]string]: the count, then every element
    with [sendZero] set. *)
Definition encodeArray (l : list string) : list byte :=
  encodeUint (Z.of_nat (length l)) ++ concat (encodeString <$> l).

(** The number that a sequence of bytes spells, most significant first. *)
Definition be_value (l : list byte) : Z :=
  foldl (λ acc b, acc * 256 + Z_of_byte b) 0 l.

(** The reader's side of [encodeUint] ([decodeUintReader]): a first byte up
    to 127 is the value; otherwise its negation counts the bytes of the
    value. *)
Definition decodeUint (l : list byte) : option (Z * list byte) :=
  match l with
  | [] => None
  | b :: rest =>
      if Z_of_byte b <=? 127 then Some (Z_of_byte b, rest)
      else
        let n := Z.to_nat (256 - Z_of_byte b) in
        Some (be_value (take n rest), drop n rest)
  end.

(** The value of one struct field, by the kind of its type. *)
Inductive field : Type :=
  | FString (s : string)
  | FInt (i : Z)
  | FStrings (l : list string)
  | FStringPtr (p : option string).

(** What [Encoder.encodeStruct] writes for one field, if anything: a nil
    pointer is skipped after the indirection, and the operators of the
    string, int and slice kinds skip the zero value. *)
Definition field_bytes (f : field) : option (list byte) :=
  match f with
  | FString s => if decide (0 < String.length s)%nat then Some (encodeString s) else None
  | FInt i => if decide (i ≠ 0) then Some (encodeInt i) else None
  | FStrings l => if decide (length l = 0%nat) then None else Some (encodeArray l)
  | FStringPtr None => None
  | FStringPtr (Some s) =>
      if decide (0 < String.length s)%nat then Some (encodeString s) else None
  end.

(** The loop of [Encoder.encodeStruct] from field number [i] on, where
    [fieldnum] is the number of the last field written ([-1] at the
    start): [encoderState.update] writes the delta, then comes the value;
    the struct ends with a zero delta. *)
Fixpoint encodeStruct_from (fieldnum i : Z) (fields : list field) : list byte :=
  match fields with
  | [] => encodeUint 0
  | f :: fields' =>
      match field_bytes f with
      | None => encodeStruct_from fieldnum (i + 1) fields'
      | Some bs => encodeUint (i - fieldnum) ++ bs ++ encodeStruct_from i (i + 1) fields'
      end
  end.

Definition encodeStruct (fields : list field) : list byte :=
  encodeStruct_from (-1) 0 fields.

(** What the package-wide type registry holds for the encoded struct type
    in the running process: the type-definition messages that a fresh
    [Encoder] sends ahead of the first value, and the type id. *)
Record typeInfo := mkTypeInfo {
  typeDefinitions : list byte;
  typeId : Z;
}.

(** The largest message that [Encoder.writeMessage] accepts, on a 64-bit
    platform. *)
Definition tooBig : Z := 2 ^ 33.

(** [Encoder.Encode] into an empty buffer with a fresh encoder: the type
    definitions, then one message, which is the byte count followed by the
    type id and the value.  A message of [tooBig] bytes or more is not
    written: [Encode] then returns an error and the buffer holds the type
    definitions only. *)
Definition Encode (ti : typeInfo) (fields : list field) : list byte :=
  let payload := encodeInt (typeId ti) ++ encodeStruct fields in
  typeDefinitions ti ++
  (if decide (Z.of_nat (length payload) < tooBig)
   then encodeUint (Z.of_nat (length payload)) ++ payload
   else []).

End Gob.

(** The file system behind package [os]: a tree of files and directories.
    A path is resolved to the list of its elements from the root, relative
    paths from the working directory; symbolic links are not modelled. *)
Module OS.

Inductive node : Type :=
  | File (content : string)
  | Dir.

Record FS := mkFS {
  cwd : list string;
  nodes : gmap (list string) node;
}.

Record DirEntry := mkDirEntry {
  Name : string;
  IsDir : bool;
}.

Definition resolve (fs : FS) (path : string) : option (list string) :=
  if decide (path = "") then None
  else
    let start := if GoPath.rooted path then [] else cwd fs in
    Some (GoPath.clean_elems true (start ++ GoStrings.Split path "/"%char) []).

(** The root always exists. *)
Definition node_at (fs : FS) (p : list string) : option node :=
  if decide (p = []) then Some Dir else nodes fs !! p.

Definition parent (p : list string) : list string := removelast p.

Definition ENOENT : error := ErrNew "no such file or directory".
Definition ENOTDIR : error := ErrNew "not a directory".
Definition EISDIR : error := ErrNew "is a directory".
Definition ENOTEMPTY : error := ErrNew "directory not empty".

(** The entries directly under [p]. *)
Definition children (fs : FS) (p : list string) : list (list string * node) :=
  filter (λ kv, kv.1 ≠ [] ∧ parent kv.1 = p) (map_to_list (nodes fs)).

Fixpoint mkdir_from (nds : gmap (list string) node) (pre rest : list string)
    : gmap (list string) node * option error :=
  match rest with
  | [] => (nds, None)
  | e :: rest' =>
      let p := pre ++ [e] in
      match nds !! p with
      | Some (File _) => (nds, Some ENOTDIR)
      | Some Dir => mkdir_from nds p rest'
      | None => mkdir_from (<[p := Dir]> nds) p rest'
      end
  end.

(** [os.MkdirAll]: the directory and the missing ones above it. *)
Definition MkdirAll (fs : FS) (path : string) : FS * option error :=
  match resolve fs path with
  | None => (fs, Some ENOENT)
  | Some p =>
      let '(nds, err) := mkdir_from (nodes fs) [] p in
      (mkFS (cwd fs) nds, err)
  end.

(** [os.Create]: the file is created or truncated; the handle is the
    resolved path. *)
Definition Create (fs : FS) (path : string) : FS * (list string + error) :=
  match resolve fs path with
  | None => (fs, inr ENOENT)
  | Some p =>
      match node_at fs p with
      | Some Dir => (fs, inr EISDIR)
      | _ =>
          match node_at fs (parent p) with
          | Some Dir => (mkFS (cwd fs) (<[p := File ""]> (nodes fs)), inl p)
          | Some (File _) => (fs, inr ENOTDIR)
          | None => (fs, inr ENOENT)
          end
      end
  end.

(** [File.Write] on a handle from [Create]: the bytes are appended. *)
Definition Write (fs : FS) (handle : list string) (data : string) : FS * option error :=
  match nodes fs !! handle with
  | Some (File old) => (mkFS (cwd fs) (<[handle := File (old +:+ data)]> (nodes fs)), None)
  | _ => (fs, Some (ErrNew "file already closed"))
  end.

(** [os.Open]: what is at the path, file or directory. *)
Definition Open (fs : FS) (path : string) : node + error :=
  match resolve fs path with
  | None => inr ENOENT
  | Some p =>
      match node_at fs p with
      | Some n => inl n
      | None => inr ENOENT
      end
  end.

(** [os.Remove]: a file, or a directory without entries. *)
Definition Remove (fs : FS) (path : string) : FS * option error :=
  match resolve fs path with
  | None => (fs, Some ENOENT)
  | Some p =>
      match nodes fs !! p with
      | None => (fs, Some ENOENT)
      | Some (File _) => (mkFS (cwd fs) (delete p (nodes fs)), None)
      | Some Dir =>
          if decide (children fs p = []) then (mkFS (cwd fs) (delete p (nodes fs)), None)
          else (fs, Some ENOTEMPTY)
      end
  end.

Definition entry_le (a b : DirEntry) : Prop := String.le (Name a) (Name b).

Global Instance entry_le_dec : RelDecision entry_le.
Proof. intros a b. unfold entry_le. apply _. Defined.

Definition entry_of (kv : list string * node) : DirEntry :=
  mkDirEntry (List.last kv.1 "")
             (match kv.2 with Dir => true | File _ => false end).

(** [os.ReadDir]: the entries of the directory, sorted by name. *)
Definition ReadDir (fs : FS) (path : string) : list DirEntry * option error :=
  match resolve fs path with
  | None => ([], Some ENOENT)
  | Some p =>
      match node_at fs p with
      | Some Dir => (merge_sort entry_le (entry_of <$> children fs p), None)
      | Some (File _) => ([], Some ENOTDIR)
      | None => ([], Some ENOENT)
      end
  end.

End OS.

(** ** run.go and ism.go: the data model *)

(** [type State string] with its two constants. *)
Definition State := string.
Definition Running : State := "running".
Definition Stoppable : State := "stoppable".

Definition isValidState (state : string) : bool :=
  if decide (state = "running") then true
  else if decide (state = "stoppable") then true
  else false.

(** [type RunArgs struct].  A [*string] field is an [option string]. *)
Record RunArgs := mkRunArgs {
  ProjectName : string;
  Hosts : list string;
  NProcPerNode : Z;
  ExperimentName : string;
  Port : Z;
  RunName : string;
  MaxRepeats : Z;
  Rest : list string;
  ContainerName : option string;
  MasterHost : option string;
  NoPython : option string;
}.

Global Instance RunArgs_eq_dec : EqDecision RunArgs.
Proof. solve_decision. Defined.

(** *** [RunArgs.Restartable] *)

(** The body of the loop over [r.Rest].  [strings.Split(arg, "=")[1]] is an
    index expression on a slice: it panics when the slice has one element. *)
Fixpoint Restartable_loop (rest : list string) : run State :=
  match rest with
  | [] => Ret Stoppable
  | arg :: rest' =>
      if GoStrings.HasPrefix arg "hf_action_restartable" then
        match GoStrings.Split arg "="%char !! 1%nat with
        | None => Panic "index out of range [1] with length 1"
        | Some state =>
            if decide (state = "running") then Ret Running
            else Restartable_loop rest'
        end
      else Restartable_loop rest'
  end.

Definition Restartable (r : RunArgs) : run State :=
  if decide (length (Rest r) = 0%nat) then Ret Stoppable
  else Restartable_loop (Rest r).

(** *** [RunArgs.Equal] *)

(** The fields of a [RunArgs] as the gob encoder walks them. *)
Definition RunArgs_fields (r : RunArgs) : list Gob.field :=
  [ Gob.FString (ProjectName r);
    Gob.FStrings (Hosts r);
    Gob.FInt (NProcPerNode r);
    Gob.FString (ExperimentName r);
    Gob.FInt (Port r);
    Gob.FString (RunName r);
    Gob.FInt (MaxRepeats r);
    Gob.FStrings (Rest r);
    Gob.FStringPtr (ContainerName r);
    Gob.FStringPtr (MasterHost r);
    Gob.FStringPtr (NoPython r) ].

(** Both values are encoded with a fresh encoder into an empty buffer and
    the buffers are compared with [bytes.Equal].  When an [Encode] returns
    an error the code prints it and compares the buffers all the same. *)
Definition Equal (ti : Gob.typeInfo) (r a : RunArgs) : bool :=
  let buf1 := Gob.Encode ti (RunArgs_fields r) in
  let buf2 := Gob.Encode ti (RunArgs_fields a) in
  bool_decide (buf1 = buf2).

(** What a Go program can hold: an [int] has 64 bits, and a length is a
    non-negative [int]. *)
Definition is_int64 (i : Z) : Prop := - 2 ^ 63 ≤ i < 2 ^ 63.

Definition string_ok (s : string) : Prop := Z.of_nat (String.length s) < 2 ^ 63.

Definition strings_ok (l : list string) : Prop :=
  Z.of_nat (length l) < 2 ^ 63 ∧ Forall string_ok l.

Definition field_ok (f : Gob.field) : Prop :=
  match f with
  | Gob.FString s => string_ok s
  | Gob.FInt i => is_int64 i
  | Gob.FStrings l => strings_ok l
  | Gob.FStringPtr p => from_option string_ok True p
  end.

Definition RunArgs_ok (r : RunArgs) : Prop := Forall field_ok (RunArgs_fields r).

(** The encoding of the arguments stays below the size limit of a gob
    message, with room for the type id. *)
Definition encodable (r : RunArgs) : Prop :=
  Z.of_nat (length (Gob.encodeStruct (RunArgs_fields r))) + 9 < Gob.tooBig.

(** A nil pointer and a pointer to the empty string, taken as one. *)
Definition norm_ptr (p : option string) : option string :=
  match p with
  | Some s => if decide (s = "") then None else Some s
  | None => None
  end.

(** Two fields of one kind with the same value, up to [norm_ptr]. *)
Definition field_equiv (f f' : Gob.field) : Prop :=
  match f, f' with
  | Gob.FString s, Gob.FString s' => s = s'
  | Gob.FInt i, Gob.FInt i' => i = i'
  | Gob.FStrings l, Gob.FStrings l' => l = l'
  | Gob.FStringPtr p, Gob.FStringPtr p' => norm_ptr p = norm_ptr p'
  | _, _ => False
  end.

Definition same_kind (f f' : Gob.field) : Prop :=
  match f, f' with
  | Gob.FString _, Gob.FString _
  | Gob.FInt _, Gob.FInt _
  | Gob.FStrings _, Gob.FStrings _
  | Gob.FStringPtr _, Gob.FStringPtr _ => True
  | _, _ => False
  end.

(** Every field of [a] matches the field of [b], the lists element by
    element in order, the optional fields up to [norm_ptr]. *)
Definition same_fields (a b : RunArgs) : Prop :=
  ProjectName a = ProjectName b
  ∧ Hosts a = Hosts b
  ∧ NProcPerNode a = NProcPerNode b
  ∧ ExperimentName a = ExperimentName b
  ∧ Port a = Port b
  ∧ RunName a = RunName b
  ∧ MaxRepeats a = MaxRepeats b
  ∧ Rest a = Rest b
  ∧ norm_ptr (ContainerName a) = norm_ptr (ContainerName b)
  ∧ norm_ptr (MasterHost a) = norm_ptr (MasterHost b)
  ∧ norm_ptr (NoPython a) = norm_ptr (NoPython b).

(** *** The master host and the container name *)

Definition masterHostElseFirstHost (args : RunArgs) : run string :=
  match MasterHost args with
  | Some m =>
      if decide (m ≠ "") then Ret m
      else match Hosts args with
           | h :: _ => Ret h
           | [] => Panic "index out of range [0] with length 0"
           end
  | None =>
      match Hosts args with
      | h :: _ => Ret h
      | [] => Panic "index out of range [0] with length 0"
      end
  end.

Definition DefaultProjExpContainerName (projectName experimentName : string) : string :=
  projectName +:+ "-" +:+ experimentName.

Definition nameFromRunArgs (args : RunArgs) : string :=
  match ContainerName args with
  | Some n => if decide (n ≠ "") then n
              else DefaultProjExpContainerName (ProjectName args) (ExperimentName args)
  | None => DefaultProjExpContainerName (ProjectName args) (ExperimentName args)
  end.

(** ** ism.go: the local state store *)

Record ProjectExperimentState := mkProjectExperimentState {
  PES_ProjectName : string;
  PES_ExperimentName : string;
  PES_State : State;
  PES_RunArgs : RunArgs;
}.

Global Instance ProjectExperimentState_eq_dec : EqDecision ProjectExperimentState.
Proof. solve_decision. Defined.

Definition Name (p : ProjectExperimentState) : string :=
  PES_ProjectName p +:+ "-" +:+ PES_ExperimentName p.

Definition NameAsType (p : ProjectExperimentState) : string := Name p.

(** [States] is [None] while the map is [nil]. *)
Record InnerStateManager := mkInnerStateManager {
  defaultRestartPath : string;
  States : option (gmap string ProjectExperimentState);
}.

Definition restartDir : string := "/tmp/invoker-states".

Section LocalStateStore.

(** [encoding/json] on [RunArgs]: [json.Marshal], and
    [json.NewDecoder(file).Decode] as a function of the file's content. *)
Context (json_Marshal : RunArgs → string * option error).
Context (json_Decode : string → RunArgs * option error).

Definition Write (fs : OS.FS) (p : ProjectExperimentState) (restartPath : string)
    : OS.FS * option error :=
  let stateFile :=
    GoPath.Join restartPath
      (PES_ProjectName p +:+ "." +:+ PES_ExperimentName p +:+ "." +:+ PES_State p) in
  match OS.Create fs stateFile with
  | (fs, inr err) =>
      (fs, Some (WithMessage err ("failed to create state file " +:+ stateFile)))
  | (fs, inl file) =>
      match json_Marshal (PES_RunArgs p) with
      | (_, Some err) => (fs, Some (WithMessage err "failed to marshal runArgs"))
      | (runArgsJson, None) =>
          match OS.Write fs file runArgsJson with
          | (fs, Some err) => (fs, Some (WithMessage err "failed to write runArgs to file"))
          | (fs, None) => (fs, None)
          end
      end
  end.

(** The constructor leaves [States] unset. *)
Definition NewInnerStateManager (fs : OS.FS) (restartPath : string)
    : OS.FS * (option InnerStateManager * option error) :=
  match OS.MkdirAll fs restartPath with
  | (fs, Some err) => (fs, (None, Some (WithMessage err "failed to create restart directory")))
  | (fs, None) => (fs, (Some (mkInnerStateManager restartPath None), None))
  end.

Definition NewInnerStateManagerWithDefPath (fs : OS.FS)
    : OS.FS * (option InnerStateManager * option error) :=
  NewInnerStateManager fs restartDir.

(** The file is opened at the concatenation of the directory path and the
    file name. *)
Definition readState (fs : OS.FS) (r : InnerStateManager) (stateFile : string)
    : option ProjectExperimentState * option error :=
  match OS.Open fs (defaultRestartPath r +:+ stateFile) with
  | inr err => (None, Some (WithMessage err ("failed to open state file " +:+ stateFile)))
  | inl file =>
      let stateDesc := GoStrings.Split stateFile "."%char in
      match stateDesc with
      | [d0; d1; d2] =>
          if negb (isValidState d2) then
            (None, Some (ErrNew ("invalid state " +:+ d2)))
          else
            match file with
            | OS.Dir => (None, Some (WithMessage OS.EISDIR "failed to decode runArgs"))
            | OS.File content =>
                match json_Decode content with
                | (_, Some err) => (None, Some (WithMessage err "failed to decode runArgs"))
                | (runArgs, None) =>
                    (Some (mkProjectExperimentState d0 d1 d2 runArgs), None)
                end
            end
      | _ => (None, Some (ErrNew ("invalid state file name " +:+ stateFile)))
      end
  end.

Definition isStateFile (filename : string) : bool :=
  bool_decide (length (GoStrings.Split filename "."%char) = 3%nat).

(** The loop of [FillStates] over the directory entries.  The assignment
    [r.States[...] = *state] panics on a nil map. *)
Fixpoint FillStates_loop (fs : OS.FS) (r : InnerStateManager) (files : list OS.DirEntry)
    : run (InnerStateManager * option error) :=
  match files with
  | [] => Ret (r, None)
  | file :: files' =>
      if OS.IsDir file then FillStates_loop fs r files'
      else if negb (isStateFile (OS.Name file)) then FillStates_loop fs r files'
      else
        match readState fs r (OS.Name file) with
        | (Some state, None) =>
            match States r with
            | None => Panic "assignment to entry in nil map"
            | Some m =>
                FillStates_loop fs
                  (mkInnerStateManager (defaultRestartPath r)
                     (Some (<[NameAsType state := state]> m)))
                  files'
            end
        | (_, Some err) => Ret (r, Some err)
        | (None, None) => Panic "invalid memory address or nil pointer dereference"
        end
  end.

Definition FillStates (fs : OS.FS) (r : InnerStateManager)
    : run (InnerStateManager * option error) :=
  match OS.ReadDir fs (defaultRestartPath r) with
  | (_, Some err) => Ret (r, Some (WithMessage err "failed to read restart directory"))
  | (files, None) => FillStates_loop fs r files
  end.

(** [GetState] ranges over [r.States]; [order] is the order in which the
    entries come. *)
Fixpoint GetState (order : list (string * ProjectExperimentState))
    (projectName experimentName : string) : State * option error :=
  match order with
  | [] =>
      ("", Some (ErrNew ("state for project " +:+ projectName +:+ " experiment "
                         +:+ experimentName +:+ " not found")))
  | (_, state) :: order' =>
      if decide (PES_ProjectName state = projectName
                 ∧ PES_ExperimentName state = experimentName)
      then (PES_State state, None)
      else GetState order' projectName experimentName
  end.

Definition SetState (r : InnerStateManager) (projectName experimentName : string)
    (state : State) (runArgs : RunArgs) : run (InnerStateManager * option error) :=
  let newState := mkProjectExperimentState projectName experimentName state runArgs in
  match States r with
  | None => Panic "assignment to entry in nil map"
  | Some m =>
      Ret (mkInnerStateManager (defaultRestartPath r)
             (Some (<[NameAsType newState := newState]> m)), None)
  end.

(** The first loop of [UpdateStates]: only a directory whose name is not a
    state-file name is kept; every other entry is removed, at the
    concatenation of the directory path and the entry's name. *)
Fixpoint UpdateStates_remove (fs : OS.FS) (r : InnerStateManager) (files : list OS.DirEntry)
    : OS.FS * option error :=
  match files with
  | [] => (fs, None)
  | file :: files' =>
      if OS.IsDir file && negb (isStateFile (OS.Name file))
      then UpdateStates_remove fs r files'
      else
        match OS.Remove fs (defaultRestartPath r +:+ OS.Name file) with
        | (fs, Some err) =>
            (fs, Some (WithMessage err ("failed to remove file " +:+ OS.Name file)))
        | (fs, None) => UpdateStates_remove fs r files'
        end
  end.

(** The second loop, over [r.States] in the order [order]. *)
Fixpoint UpdateStates_write (fs : OS.FS) (r : InnerStateManager)
    (order : list (string * ProjectExperimentState)) : OS.FS * option error :=
  match order with
  | [] => (fs, None)
  | (_, state) :: order' =>
      match Write fs state (defaultRestartPath r) with
      | (fs, Some err) => (fs, Some (WithMessage err "failed to write state"))
      | (fs, None) => UpdateStates_write fs r order'
      end
  end.

Definition UpdateStates (fs : OS.FS) (r : InnerStateManager)
    (order : list (string * ProjectExperimentState)) : OS.FS * option error :=
  match OS.ReadDir fs (defaultRestartPath r) with
  | (_, Some err) => (fs, Some (WithMessage err "failed to read restart directory"))
  | (files, None) =>
      match UpdateStates_remove fs r files with
      | (fs, Some err) => (fs, Some err)
      | (fs, None) => UpdateStates_write fs r order
      end
  end.

End LocalStateStore.

(** The entries of a Go map in the order of one [range] over it: any order
    is possible, and a nil map has none. *)
Definition range_order {V} (m : option (gmap string V)) (order : list (string * V)) : Prop :=
  order ≡ₚ map_to_list (default ∅ m).

(** ** state_manager.go: the restart predicate *)

Definition Host := string.
Definition ProjectExperimentStr := string.

Record StateMatch := mkStateMatch {
  Expected : State;
  Actual : Z;
  SM_RunArgs : RunArgs;
}.

Global Instance StateMatch_eq_dec : EqDecision StateMatch.
Proof. solve_decision. Defined.

Definition badExitCodes : gset Z := {[ 1; 255 ]}.
Definition okExitCodes : gset Z := {[ 0; 137 ]}.

(** [mapset.Set.Contains]. *)
Definition Contains (s : gset Z) (x : Z) : bool := bool_decide (x ∈ s).

Definition ShouldRestart (s : StateMatch) : bool :=
  bool_decide (Expected s = Running)
  && (Contains badExitCodes (Actual s) || negb (Contains okExitCodes (Actual s))).


(** ** The helpers file: the rank resolver *)

(** [slices.Contains]. *)
Definition slices_Contains (l : list string) (x : string) : bool := bool_decide (x ∈ l).

(** The loop of [masterAndRank]: the index of the first host that is one of
    [ips], or the initial [-1]. *)
Fixpoint rank_loop (ips hosts : list string) (i : Z) : Z :=
  match hosts with
  | [] => -1
  | host :: hosts' =>
      if slices_Contains ips host then i else rank_loop ips hosts' (i + 1)
  end.

(** [masterAndRank]; the results of [myPublicIP()] and [localIPs()] are
    arguments. *)
Definition masterAndRank (myPublicIP : string * option error)
    (localIPs : list string * option error) (hosts : list string)
    : run (string * Z * option error) :=
  match myPublicIP with
  | (_, Some err) => Ret ("", 0, Some (WithMessage err "failed to get public IP"))
  | (ip, None) =>
      let ips := [ip] in
      match localIPs with
      | (_, Some err) => Ret ("", 0, Some (WithMessage err "failed to get local IPs"))
      | (localIPs, None) =>
          let ips := ips ++ localIPs in
          match hosts with
          | [] => Panic "index out of range [0] with length 0"
          | master :: _ =>
              let rank := rank_loop ips hosts 0 in
              if decide (length hosts = 1%nat ∧ master = "localhost") then Ret (master, 1, None)
              else if decide (rank = -1) then Ret ("", 0, Some ErrOmitHost)
              else Ret (master, rank, None)
          end
      end
  end.

Definition masterAndRankElseExit (myPublicIP : string * option error)
    (localIPs : list string * option error) (hosts : list string) : run (string * Z) :=
  '(ip, rank, err) ← masterAndRank myPublicIP localIPs hosts;
  match err with
  | Some err => if errors_Is err ErrOmitHost then Exit 0 else Exit 1
  | None => Ret (ip, rank)
  end.

(** The statements of [Run] that fix the master and the rank, between the
    validation of the arguments and the port check. *)
Definition Run_master_rank (myPublicIP : string * option error)
    (localIPs : list string * option error) (args : RunArgs) : run (string * Z) :=
  master ← masterHostElseFirstHost args;
  if decide (1 < length (Hosts args))%nat then
    '(_, rank) ← masterAndRankElseExit myPublicIP localIPs (Hosts args);
    Ret (master, rank)
  else Ret ("localhost", 0).


(** The master that the arguments configure: the override when it is set
    and not empty, else the first host. *)
Definition configured_master (args : RunArgs) (first : string) : string :=
  match MasterHost args with
  | Some m => if decide (m ≠ "") then m else first
  | None => first
  end.

(** ** docker_misc.go: the observed exit code *)

(** What [ContainerList] reports of a container. *)
Record Container := mkContainer {
  Names : list string;
  C_State : string;
  Status : string;
}.

Definition getExitCode (status : string) : Z * option error :=
  match ExitCodeRegexp.FindStringSubmatch status with
  | Some exitCodeStr =>
      match GoStrconv.Atoi exitCodeStr with
      | (_, Some err) =>
          (0, Some (WithMessage err ("failed to convert exit code " +:+ exitCodeStr +:+ " to int")))
      | (exitCode, None) => (exitCode, None)
      end
  | None => (0, None)
  end.

(** The status text holds an exit marker: [Exited (], one or more decimal
    digits and [)] in a row. *)
Definition has_exit_marker (status : string) : Prop :=
  ∃ pre ds post,
    status = pre +:+ "Exited (" +:+ ds +:+ ")" +:+ post
    ∧ ds ≠ ""
    ∧ Forall (λ c, GoStrconv.is_digit c = true) (list_ascii_of_string ds).

(** The loop over the listed containers; [c.Names[0]] panics on a container
    without names. *)
Fixpoint containerStateAndExitCode_loop (containers : list Container) (containerName : string)
    : run (string * Z * option error) :=
  match containers with
  | [] =>
      Ret ("", 1, Some (WithMessage ErrContainerNotFound
                          ("container " +:+ containerName +:+ " not found")))
  | c :: containers' =>
      match Names c with
      | [] => Panic "index out of range [0] with length 0"
      | name0 :: _ =>
          if decide (name0 = "/" +:+ containerName) then
            match getExitCode (Status c) with
            | (_, Some err) =>
                Ret ("", 0, Some (WithMessage err ("failed to get exit code for container "
                                                   +:+ containerName)))
            | (exitCode, None) => Ret (C_State c, exitCode, None)
            end
          else containerStateAndExitCode_loop containers' containerName
      end
  end.

(** The Docker client is [None] when nil, and otherwise its [ContainerList]
    with [All] set, as a function of the name filter. *)
Definition DockerClient := option (string → list Container * option error).

Definition containerStateAndExitCode (client : DockerClient) (containerName : string)
    : run (string * Z * option error) :=
  if decide (containerName = "") then Ret ("", 0, Some (ErrNew "container name is empty"))
  else
    match client with
    | None => Ret ("", 0, Some (ErrNew "client is nil"))
    | Some ContainerList =>
        match ContainerList containerName with
        | (_, Some err) =>
            Ret ("", 0, Some (WithMessage err ("failed to list containers with name "
                                                +:+ containerName)))
        | (containers, None) => containerStateAndExitCode_loop containers containerName
        end
    end.

(** ** state_manager.go: pages and the merge *)

Record StateManager := mkStateManager {
  curIP : Host;
  page : gmap string (gmap string StateMatch);
  ism : InnerStateManager;
  toRestart : gmap string RunArgs;
}.

(** The zero [StateMatch]. *)
Definition StateMatch_zero : StateMatch :=
  mkStateMatch "" 0 (mkRunArgs "" [] 0 "" 0 "" 0 [] None None None).

(** [FirstValue]: the first value that a [range] over the map yields. *)
Definition FirstValue {V} (zero : V) (order : list (string * V)) : V * bool :=
  match order with
  | (_, v) :: _ => (v, true)
  | [] => (zero, false)
  end.

(** The body of the loop of [FindLocalMatch] for one entry of the store.  An
    error other than "container not found" ends the pass; otherwise the
    observation is written into the page of the local host. *)
Definition FindLocalMatch_body (cli : DockerClient) (s : StateManager)
    (experiment : string) (rargs : RunArgs) : run (StateManager * option error) :=
  if slices_Contains (Hosts rargs) (curIP s) then
    expected ← Restartable rargs;
    '(_, exitCode, err) ← containerStateAndExitCode cli experiment;
    let actual := exitCode in
    let record : run (StateManager * option error) :=
      match page s !! curIP s with
      | None => Panic "assignment to entry in nil map"
      | Some local =>
          Ret (mkStateManager (curIP s)
                 (<[curIP s := <[experiment := mkStateMatch expected actual rargs]> local]>
                    (page s))
                 (ism s) (toRestart s), None)
      end in
    match err with
    | Some err =>
        if negb (errors_Is err ErrContainerNotFound) then
          Ret (s, Some (WithMessage err "failed to get container state and exit code"))
        else record
    | None => record
    end
  else Ret (s, None).

(** The loop of [FindLocalMatch] over the store, in the order [order]. *)
Fixpoint FindLocalMatch_loop (cli : DockerClient) (s : StateManager)
    (order : list (string * ProjectExperimentState)) : run (StateManager * option error) :=
  match order with
  | [] => Ret (s, None)
  | (experiment, state) :: order' =>
      '(s, err) ← FindLocalMatch_body cli s experiment (PES_RunArgs state);
      match err with
      | Some err => Ret (s, Some err)
      | None => FindLocalMatch_loop cli s order'
      end
  end.

(** [FindLocalMatch]: the client is made, the store is filled from the
    directory, every entry of the store is looked at in the order [order],
    and the page is marshalled.  [newClient] is the outcome of
    [client.NewClientWithOpts], [json_Decode] reads a state file and
    [json_Marshal_page] is [json.Marshal] on the page. *)
Definition FindLocalMatch
    (json_Decode : string → RunArgs * option error)
    (json_Marshal_page : gmap string (gmap string StateMatch) → string * option error)
    (newClient : DockerClient * option error)
    (fs : OS.FS) (s : StateManager) (order : list (string * ProjectExperimentState))
    : run (StateManager * (string * option error)) :=
  match newClient with
  | (_, Some err) => Ret (s, ("", Some (WithMessage err "failed to create docker client")))
  | (cli, None) =>
      '(ism', err) ← FillStates json_Decode fs (ism s);
      let s := mkStateManager (curIP s) (page s) ism' (toRestart s) in
      match err with
      | Some err => Ret (s, ("", Some (WithMessage err "failed to fill inner states")))
      | None =>
          '(s, err) ← FindLocalMatch_loop cli s order;
          match err with
          | Some err => Ret (s, ("", Some err))
          | None =>
              match json_Marshal_page (page s) with
              | (_, Some err) => Ret (s, ("", Some (WithMessage err "failed to marshal page")))
              | (res, None) => Ret (s, (res, None))
              end
          end
      end
  end.

(** The first loop of [JoinLocalMatches] for one decoded page: every cell of
    the page is written into [s.page]. *)
Definition merge_host (host : string) (expState : gmap string StateMatch)
    (spage : gmap string (gmap string StateMatch)) : gmap string (gmap string StateMatch) :=
  let cur := default ∅ (spage !! host) in
  <[host := map_fold (λ experiment stateMatch cur, <[experiment := stateMatch]> cur)
              cur expState]> spage.

Definition merge_page (spage pg : gmap string (gmap string StateMatch))
    : gmap string (gmap string StateMatch) :=
  map_fold merge_host spage pg.

(** Each element of [matches] is what [json.Unmarshal] makes of one match
    string: the decoded page and the error. *)
Fixpoint merge_matches (spage : gmap string (gmap string StateMatch))
    (matches : list (gmap string (gmap string StateMatch) * option error))
    : gmap string (gmap string StateMatch) * option error :=
  match matches with
  | [] => (spage, None)
  | (_, Some err) :: _ => (spage, Some (WithMessage err "failed to unmarshal page"))
  | (pg, None) :: matches' => merge_matches (merge_page spage pg) matches'
  end.

(** The second loop: the observations by experiment, then by host. *)
Definition group_host (host : string) (stateMatch : gmap string StateMatch)
    (grouped : gmap string (gmap string StateMatch)) : gmap string (gmap string StateMatch) :=
  map_fold (λ experiment match_ grouped,
              <[experiment := <[host := match_]> (default ∅ (grouped !! experiment))]> grouped)
           grouped stateMatch.

Definition group_page (spage : gmap string (gmap string StateMatch))
    : gmap string (gmap string StateMatch) :=
  map_fold group_host ∅ spage.

(** One cell of a page: what [host] observed of [experiment]. *)
Definition cell (pg : gmap string (gmap string StateMatch)) (host experiment : string)
    : option StateMatch :=
  pg !! host ≫= (.!! experiment).

(** One turn of the third loop as the runtime schedules it: the experiment,
    the order in which [FirstValue] ranges over its hosts, and the order in
    which the inner loop does. *)
Record visit := mkVisit {
  v_experiment : string;
  v_first : list (string * StateMatch);
  v_range : list (string * StateMatch);
}.

Definition visit_of (grouped : gmap string (gmap string StateMatch)) (v : visit) : Prop :=
  ∃ hostState, grouped !! v_experiment v = Some hostState
               ∧ v_first v ≡ₚ map_to_list hostState
               ∧ v_range v ≡ₚ map_to_list hostState.

(** A schedule of the third loop over [grouped]: every experiment once, in
    any order. *)
Definition schedule_of (grouped : gmap string (gmap string StateMatch))
    (sched : list visit) : Prop :=
  v_experiment <$> sched ≡ₚ (map_to_list grouped).*1 ∧ Forall (visit_of grouped) sched.

Section Reconcile.

Context (ti : Gob.typeInfo).

(** The inner loop over the hosts of one experiment. *)
Fixpoint hosts_loop (prevStateMatch : StateMatch) (order : list (string * StateMatch))
    (failedHosts : list string) : list string + error :=
  match order with
  | [] => inl failedHosts
  | (host, stateMatch) :: order' =>
      if negb (Equal ti (SM_RunArgs prevStateMatch) (SM_RunArgs stateMatch)) then
        inr (ErrNew "run args are not equal")
      else if ShouldRestart stateMatch then
        hosts_loop prevStateMatch order' (failedHosts ++ [host])
      else hosts_loop prevStateMatch order' failedHosts
  end.

(** One turn of the third loop: the decision for one experiment. *)
Definition experiment_turn (v : visit) (toRestart : gmap string RunArgs)
    : gmap string RunArgs * option error :=
  if decide (length (v_range v) = 0%nat) then (toRestart, None)
  else
    match FirstValue StateMatch_zero (v_first v) with
    | (_, false) =>
        (toRestart,
         Some (ErrNew "failed to get first value, despite the length being greater than 0"))
    | (prevStateMatch, true) =>
        match hosts_loop prevStateMatch (v_range v) [] with
        | inr err => (toRestart, Some err)
        | inl failedHosts =>
            if decide (0 < length failedHosts)%nat then
              (<[v_experiment v := SM_RunArgs prevStateMatch]> toRestart, None)
            else (toRestart, None)
        end
    end.

(** The third loop: the first turn that fails ends the whole call with its
    error. *)
Fixpoint experiments_loop (sched : list visit) (toRestart : gmap string RunArgs)
    : gmap string RunArgs * option error :=
  match sched with
  | [] => (toRestart, None)
  | v :: sched' =>
      match experiment_turn v toRestart with
      | (toRestart, Some err) => (toRestart, Some err)
      | (toRestart, None) => experiments_loop sched' toRestart
      end
  end.

Definition JoinLocalMatches (s : StateManager)
    (matches : list (gmap string (gmap string StateMatch) * option error))
    (sched : list visit) : StateManager * option error :=
  match merge_matches (page s) matches with
  | (pg, Some err) => (mkStateManager (curIP s) pg (ism s) (toRestart s), Some err)
  | (pg, None) =>
      let '(toRestart', err) := experiments_loop sched (toRestart s) in
      (mkStateManager (curIP s) pg (ism s) toRestart', err)
  end.

End Reconcile.

(** Every argument record that a schedule compares is [encodable]. *)
Definition schedule_encodable (sched : list visit) : Prop :=
  Forall (λ v, Forall (λ hm, encodable (SM_RunArgs hm.2)) (v_first v)
               ∧ Forall (λ hm, encodable (SM_RunArgs hm.2)) (v_range v)) sched.

(** What one turn of the third loop does to the table when it does not
    fail: nothing for an experiment without hosts; otherwise the first value
    is some host's observation, every host's arguments equal its arguments,
    and the experiment is entered with them exactly when some host's
    observation satisfies the restart predicate. *)
Definition visit_decides (ti : Gob.typeInfo) (v : visit) (tr tr' : gmap string RunArgs) : Prop :=
  v_range v = [] ∧ tr' = tr
  ∨ ∃ prev,
      (∃ h rest, v_first v = (h, prev) :: rest)
      ∧ Forall (λ hm, Equal ti (SM_RunArgs prev) (SM_RunArgs hm.2) = true) (v_range v)
      ∧ (Exists (λ hm, ShouldRestart hm.2 = true) (v_range v)
         ∧ tr' = <[v_experiment v := SM_RunArgs prev]> tr
         ∨ Forall (λ hm, ShouldRestart hm.2 = false) (v_range v) ∧ tr' = tr).

(** One turn fails: no first value, or some host's arguments differ from the
    first value's. *)
Definition visit_fails (ti : Gob.typeInfo) (v : visit) (err : error) : Prop :=
  v_range v ≠ []
  ∧ (v_first v = []
     ∧ err = ErrNew "failed to get first value, despite the length being greater than 0"
     ∨ ∃ h prev rest,
         v_first v = (h, prev) :: rest
         ∧ err = ErrNew "run args are not equal"
         ∧ Exists (λ hm, Equal ti (SM_RunArgs prev) (SM_RunArgs hm.2) = false) (v_range v)).

(** No two hosts of the page report arguments for one experiment that
    [Equal] tells apart. *)
Definition no_conflict (ti : Gob.typeInfo) (pg : gmap string (gmap string StateMatch)) : Prop :=
  ∀ e h h' m m',
    cell pg h e = Some m → cell pg h' e = Some m' →
    Equal ti (SM_RunArgs m) (SM_RunArgs m') = true.

(** [NewStateManager]: an empty page for the local host, a store at the
    default path and an empty restart table. *)
Definition NewStateManager (fs : OS.FS) (myPublicIP : string * option error)
    : OS.FS * (option StateManager * option error) :=
  match myPublicIP with
  | (_, Some err) => (fs, (None, Some (WithMessage err "failed to get public IP")))
  | (ip, None) =>
      match NewInnerStateManagerWithDefPath fs with
      | (fs, (Some ism, None)) => (fs, (Some (mkStateManager ip {[ ip := ∅ ]} ism ∅), None))
      | (fs, (_, Some err)) =>
          (fs, (None, Some (WithMessage err "failed to create InnerStateManager")))
      | (fs, (None, None)) => (fs, (None, None))
      end
  end.

(** ** Sample data for the examples *)

(** A state of the gob type registry.  On arguments below the size limit
    [Equal] gives the same answer in every state. *)
Definition sample_typeInfo : Gob.typeInfo := Gob.mkTypeInfo [] 65.

Definition sample_args (experiment : string) (nproc : Z) : RunArgs :=
  mkRunArgs "proj" ["10.0.0.1"; "10.0.0.2"] nproc experiment 29500 "run" 0
    ["hf_action_restartable=running"] None None None.

(** The manager that [NewStateManager] makes on host 10.0.0.1. *)
Definition sample_manager : StateManager :=
  mkStateManager "10.0.0.1" {[ "10.0.0.1" := ∅ ]} (mkInnerStateManager restartDir None) ∅.

(** The page that [host] sends: its observations of the listed
    experiments. *)
Definition sample_page (host : string) (cells : list (string * StateMatch))
    : gmap string (gmap string StateMatch) * option error :=
  ({[ host := list_to_map cells ]}, None).

(** The merged page of two hosts that observe the same experiments. *)
Definition sample_merged (cells1 cells2 : list (string * StateMatch))
    : gmap string (gmap string StateMatch) :=
  {[ "10.0.0.1" := list_to_map cells1; "10.0.0.2" := list_to_map cells2 ]}.

(** The turn of [experiment] that ranges over host 10.0.0.1 first, both
    times. *)
Definition sample_visit (experiment : string) (m1 m2 : StateMatch) : visit :=
  mkVisit experiment [("10.0.0.1", m1); ("10.0.0.2", m2)]
          [("10.0.0.1", m1); ("10.0.0.2", m2)].

(** ** The helpers file: paths and maps *)

(** The slice expression [s[:n]] on a string: it panics unless
    [0 <= n <= len(s)]. *)
Definition slice_to (s : string) (n : Z) : run string :=
  if decide (0 ≤ n ≤ Z.of_nat (String.length s))
  then Ret (String.substring 0 (Z.to_nat n) s)
  else Panic "slice bounds out of range".

(** The statements of [trimPathForLength] that follow the removal of the
    leading separator. *)
Definition trimPathForLength_cut (path : string) (length_ : Z) : run string :=
  let branches := GoStrings.Split path "/"%char in
  let slashes := Z.of_nat (length branches) - 1 in
  if decide (slashes = 0) then slice_to path length_
  else
    let path :=
      if decide (head branches = Some "home")
      then "~/" +:+ GoStrings.Join (drop 2 branches) "/"
      else path in
    if Z.of_nat (String.length path) <? length_ then Ret path
    else
      cut ← slice_to path length_;
      Ret (cut +:+ "...").

(** [trimPathForLength]; [path[0]] panics on the empty path. *)
Definition trimPathForLength (path : string) (length_ : Z) : run string :=
  if Z.of_nat (String.length path) <? length_ then Ret path
  else
    match path with
    | EmptyString => Panic "index out of range [0] with length 0"
    | String c rest =>
        if Ascii.eqb c "/" then trimPathForLength_cut rest length_
        else trimPathForLength_cut path length_
    end.

(** [MapJoin]: every map is written into a new map, in the order of the
    argument list. *)
Definition MapJoin `{Countable K} {V} (maps : list (gmap K V)) : gmap K V :=
  foldl (λ newMap m, map_fold (λ k v newMap, <[k := v]> newMap) newMap m) ∅ maps.

(** ** ism.go: the key of an entry *)

(** Every entry of the table sits under the key that [NameAsType] gives it.
    [SetState] and [FillStates] write entries in no other way. *)
Definition keyed (m : gmap string ProjectExperimentState) : Prop :=
  ∀ k p, m !! k = Some p → k = NameAsType p.

(** The names that [FillStates] goes on to read: entries that are no
    directory and whose name has three dot-separated tokens. *)
Definition state_files (files : list OS.DirEntry) : list string :=
  OS.Name <$> filter (λ file, OS.IsDir file = false ∧ isStateFile (OS.Name file) = true) files.

(** The number of bytes [c] in [s]. *)
Fixpoint count_byte (c : ascii) (s : string) : nat :=
  match s with
  | EmptyString => 0
  | String d s' => (if Ascii.eqb d c then 1 else 0) + count_byte c s'
  end.

(** ** Paths of state files *)

(** A path element that [filepath.Clean] keeps as it is. *)
Definition normal (e : string) : Prop := e ≠ "" ∧ e ≠ "." ∧ e ≠ "..".

(** A file name of one element: no separator in it, and neither empty nor
    one of the two dot names. *)
Definition plain_name (name : string) : Prop :=
  normal name ∧ count_byte "/" name = 0%nat.

(** The elements of a rooted path, cleaned: where the path points. *)
Definition dir_elems (path : string) : list string :=
  GoPath.clean_elems true (GoStrings.Split path "/"%char) [].

(** The name that [Write] gives the state file of an entry. *)
Definition stateFileName (p : ProjectExperimentState) : string :=
  PES_ProjectName p +:+ "." +:+ PES_ExperimentName p +:+ "." +:+ PES_State p.

(** ** The helpers file: the default directories *)

(** A file stands at a proper prefix of [p], where the path needs a
    directory. *)
Definition file_above (fs : OS.FS) (p : list string) : bool :=
  existsb (λ k, match OS.nodes fs !! take k p with
                | Some (OS.File _) => true
                | _ => false
                end) (seq 1 (length p - 1)).

(** [os.Stat]: what is at the path.  A missing path is reported as ENOENT,
    unless a file stands where the path needs a directory, which is
    ENOTDIR. *)
Definition Stat (fs : OS.FS) (path : string) : OS.node + error :=
  match OS.resolve fs path with
  | None => inr OS.ENOENT
  | Some p =>
      match OS.node_at fs p with
      | Some n => inl n
      | None => if file_above fs p then inr OS.ENOTDIR else inr OS.ENOENT
      end
  end.

(** [os.IsNotExist]. *)
Definition IsNotExist (err : error) : bool := bool_decide (err = OS.ENOENT).

(** [Path.mkdirIfNotExists]: only the error of [os.Stat] is looked at, not
    what it found. *)
Definition mkdirIfNotExists (fs : OS.FS) (path : string) : OS.FS * option error :=
  match Stat fs path with
  | inr err =>
      if IsNotExist err then
        match OS.MkdirAll fs path with
        | (fs, Some err) =>
            (fs, Some (WithMessage err ("failed to create directory " +:+ path)))
        | (fs, None) => (fs, None)
        end
      else (fs, Some (WithMessage err ("failed to stat directory " +:+ path)))
  | inl _ => (fs, None)
  end.

(** [makeDefaultDirectories]; [home] is the result of [os.UserHomeDir]. *)
Definition makeDefaultDirectories (home : string * option error) (fs : OS.FS)
    (projectName experimentName runName : string) : OS.FS * (string * string * option error) :=
  match home with
  | (_, Some err) =>
      (fs, ("", "", Some (WithMessage err "failed to get user home directory")))
  | (home, None) =>
      let cacheDir := GoPath.Join home ".cache" in
      match mkdirIfNotExists fs cacheDir with
      | (fs, Some err) =>
          (fs, ("", "", Some (WithMessage err "failed to create cache directory")))
      | (fs, None) =>
          let checkpointDir :=
            GoPath.Join
              (GoPath.Join
                 (GoPath.Join (GoPath.Join (GoPath.Join cacheDir "higgsfield") projectName)
                    "experiments")
                 experimentName)
              runName in
          match mkdirIfNotExists fs checkpointDir with
          | (fs, Some err) =>
              (fs, ("", "",
                    Some (WithMessage err
                            ("failed to create checkpoint directory for experiment "
                             +:+ experimentName +:+ " and run name " +:+ runName))))
          | (fs, None) => (fs, (cacheDir, checkpointDir, None))
          end
      end
  end.
(** * Properties *)

(** ** Facts about the library models *)

Lemma Split_nonempty s sep : GoStrings.Split s sep ≠ [].
Proof. induction s as [|c s IH]; simpl; [done|]. repeat case_match; done. Qed.

Lemma Split_length_cons c s sep :
  Ascii.eqb c sep = false →
  length (GoStrings.Split (String c s) sep) = length (GoStrings.Split s sep).
Proof.
  intros Hc. simpl. rewrite Hc.
  destruct (GoStrings.Split s sep) eqn:E; [by apply Split_nonempty in E|done].
Qed.

(** A string that contains the separator splits into at least two pieces. *)
Lemma Split_lookup_1 a b sep :
  is_Some (GoStrings.Split (a +:+ String sep b) sep !! 1%nat).
Proof.
  apply lookup_lt_is_Some.
  induction a as [|c a IH].
  - simpl. rewrite Ascii.eqb_refl. simpl.
    destruct (GoStrings.Split b sep) eqn:E; [by apply Split_nonempty in E|].
    simpl. lia.
  - change (String c a +:+ String sep b) with (String c (a +:+ String sep b)).
    destruct (Ascii.eqb c sep) eqn:Hc.
    + simpl. rewrite Hc. simpl.
      destruct (GoStrings.Split (a +:+ String sep b) sep) eqn:E;
        [by apply Split_nonempty in E|]. simpl. lia.
    + by rewrite Split_length_cons.
Qed.

(** ** The restart predicate *)

(** C4. The restart predicate holds exactly when the expected state is
    Running and the exit code is in the bad set {1, 255} or outside the ok set
    {0, 137}; so (Running, 1) restarts, (Running, 137) and (Running, 0) do
    not, a Stoppable job never restarts whatever its exit code, and
    (Running, 42) restarts although 42 is in neither set. *)
Theorem ShouldRestart_spec :
  (∀ s : StateMatch,
     ShouldRestart s = true ↔
     Expected s = Running ∧
     ((Actual s = 1 ∨ Actual s = 255) ∨ ¬ (Actual s = 0 ∨ Actual s = 137)))
  ∧ (∀ r, ShouldRestart (mkStateMatch Running 1 r) = true)
  ∧ (∀ r, ShouldRestart (mkStateMatch Running 137 r) = false)
  ∧ (∀ r, ShouldRestart (mkStateMatch Running 0 r) = false)
  ∧ (∀ e r, ShouldRestart (mkStateMatch Stoppable e r) = false)
  ∧ (∀ r, ShouldRestart (mkStateMatch Running 42 r) = true)
  ∧ (42 ∉ badExitCodes) ∧ (42 ∉ okExitCodes).
Proof.
  split; [|repeat split; intros; try done; try set_solver].
  intros [e a r]. unfold ShouldRestart, Contains, badExitCodes, okExitCodes.
  simpl. rewrite andb_true_iff, orb_true_iff, negb_true_iff.
  rewrite !bool_decide_eq_true, bool_decide_eq_false.
  rewrite !elem_of_union, !elem_of_singleton. tauto.
Qed.

(** ** The derived desired state *)

(** The derivation matches tokens by prefix: a token that merely starts with
    [hf_action_restartable] makes the job Running although no token has the
    exact form [hf_action_restartable=running]. *)
Lemma Restartable_prefix_match :
  let r := mkRunArgs "proj" ["10.0.0.1"] 1 "exp" 29500 "run" 0
             ["hf_action_restartable_later=running"] None None None in
  Restartable r = Ret Running
  ∧ "hf_action_restartable=running" ∉ Rest r.
Proof.
  split; [reflexivity|].
  simpl. rewrite list_elem_of_singleton. discriminate.
Qed.

(** A token with the prefix and no [=] stops the derivation with a run-time
    panic. *)
Example Restartable_panics :
  Restartable (mkRunArgs "proj" ["10.0.0.1"] 1 "exp" 29500 "run" 0
                 ["hf_action_restartable"] None None None)
  = Panic "index out of range [1] with length 1".
Proof. reflexivity. Qed.

Lemma Restartable_loop_spec (rest : list string) :
  Forall (λ tok, GoStrings.HasPrefix tok "hf_action_restartable" = true →
                 ∃ a b, tok = a +:+ String "="%char b) rest →
  ∃ st, Restartable_loop rest = Ret st ∧ (st = Running ∨ st = Stoppable) ∧
    (st = Running ↔
     ∃ tok, tok ∈ rest ∧ GoStrings.HasPrefix tok "hf_action_restartable" = true
            ∧ GoStrings.Split tok "="%char !! 1%nat = Some "running").
Proof.
  induction 1 as [|tok rest Htok _ IH]; simpl.
  - exists Stoppable. split_and!; [done|by right|].
    split; [done|]. intros (tok & Hin & _). by apply elem_of_nil in Hin.
  - destruct IH as (st & Hst & Hcase & Hiff).
    destruct (GoStrings.HasPrefix tok "hf_action_restartable") eqn:Hpre.
    + destruct (Htok eq_refl) as (a & b & ->).
      destruct (Split_lookup_1 a b "="%char) as [v Hv]. rewrite Hv.
      destruct (decide (v = "running")) as [->|Hne].
      * exists Running. split_and!; [done|by left|].
        split; [|done]. intros _. eexists. split; [left|]. done.
      * exists st. split_and!; [done..|]. rewrite Hiff. split.
        -- intros (t & Hin & ?). exists t. split; [by right|done].
        -- intros (t & Hin & Hp & Hs). apply elem_of_cons in Hin as [->|Hin].
           ++ rewrite Hv in Hs. congruence.
           ++ eauto.
    + exists st. split_and!; [done..|]. rewrite Hiff. split.
      * intros (t & Hin & ?). exists t. split; [by right|done].
      * intros (t & Hin & Hp & Hs). apply elem_of_cons in Hin as [->|Hin].
        -- congruence.
        -- eauto.
Qed.

Lemma Restartable_loop_returns_Running rest :
  Restartable_loop rest = Ret Running ↔
  ∃ pre tok post,
    rest = pre ++ tok :: post
    ∧ Forall (λ t, GoStrings.HasPrefix t "hf_action_restartable" = true →
                   ∃ v, GoStrings.Split t "="%char !! 1%nat = Some v ∧ v ≠ "running") pre
    ∧ GoStrings.HasPrefix tok "hf_action_restartable" = true
    ∧ GoStrings.Split tok "="%char !! 1%nat = Some "running".
Proof.
  induction rest as [|arg rest IH]; simpl.
  - split; [done|]. intros (pre & tok & post & Hnil & _). by destruct pre.
  - destruct (GoStrings.HasPrefix arg "hf_action_restartable") eqn:Hpre.
    + destruct (GoStrings.Split arg "="%char !! 1%nat) as [v|] eqn:Hv.
      * destruct (decide (v = "running")) as [->|Hne].
        -- split; [|done]. intros _. by exists [], arg, rest.
        -- rewrite IH. split.
           ++ intros (pre & tok & post & -> & Hall & Htok & Hrun).
              exists (arg :: pre), tok, post. split_and!; [done| |done|done].
              constructor; [|done]. intros _. by exists v.
           ++ intros (pre & tok & post & Heq & Hall & Htok & Hrun).
              destruct pre as [|t pre]; simplify_eq/=; try congruence.
              inversion_clear Hall. by exists pre, tok, post.
      * split; [done|].
        intros (pre & tok & post & Heq & Hall & Htok & Hrun).
        destruct pre as [|t pre]; simplify_eq/=; try congruence.
        inversion_clear Hall as [|?? Ht _]. destruct (Ht Hpre) as (v & Hv' & _). congruence.
    + rewrite IH. split.
      * intros (pre & tok & post & -> & Hall & Htok & Hrun).
        exists (arg :: pre), tok, post. split_and!; [done| |done|done].
        constructor; [|done]. congruence.
      * intros (pre & tok & post & Heq & Hall & Htok & Hrun).
        destruct pre as [|t pre]; simplify_eq/=; try congruence.
        inversion_clear Hall. by exists pre, tok, post.
Qed.

Lemma Restartable_loop_returns_Stoppable rest :
  Restartable_loop rest = Ret Stoppable ↔
  Forall (λ t, GoStrings.HasPrefix t "hf_action_restartable" = true →
               ∃ v, GoStrings.Split t "="%char !! 1%nat = Some v ∧ v ≠ "running") rest.
Proof.
  induction rest as [|arg rest IH]; simpl.
  - split; [constructor|done].
  - destruct (GoStrings.HasPrefix arg "hf_action_restartable") eqn:Hpre.
    + destruct (GoStrings.Split arg "="%char !! 1%nat) as [v|] eqn:Hv.
      * destruct (decide (v = "running")) as [->|Hne].
        -- split; [done|]. intros Hall. inversion_clear Hall as [|?? Ht _].
           destruct (Ht Hpre) as (v & Hv' & Hne). congruence.
        -- rewrite IH. split.
           ++ intros Hall. constructor; [|done]. intros _. by exists v.
           ++ intros Hall. by inversion_clear Hall.
      * split; [done|]. intros Hall. inversion_clear Hall as [|?? Ht _].
        destruct (Ht Hpre) as (v & Hv' & _). congruence.
    + rewrite IH. split.
      * intros Hall. constructor; [|done]. congruence.
      * intros Hall. by inversion_clear Hall.
Qed.

Lemma Restartable_loop_index_panic rest :
  (∃ msg, Restartable_loop rest = Panic msg) ↔
  ∃ pre tok post,
    rest = pre ++ tok :: post
    ∧ Forall (λ t, GoStrings.HasPrefix t "hf_action_restartable" = true →
                   ∃ v, GoStrings.Split t "="%char !! 1%nat = Some v ∧ v ≠ "running") pre
    ∧ GoStrings.HasPrefix tok "hf_action_restartable" = true
    ∧ GoStrings.Split tok "="%char !! 1%nat = None.
Proof.
  induction rest as [|arg rest IH]; simpl.
  - split; [by intros [msg [=]]|]. intros (pre & tok & post & Hnil & _). by destruct pre.
  - destruct (GoStrings.HasPrefix arg "hf_action_restartable") eqn:Hpre.
    + destruct (GoStrings.Split arg "="%char !! 1%nat) as [v|] eqn:Hv.
      * destruct (decide (v = "running")) as [->|Hne].
        -- split; [by intros [msg [=]]|].
           intros (pre & tok & post & Heq & Hall & Htok & Hnone).
           destruct pre as [|t pre]; simplify_eq/=.
           inversion_clear Hall as [|?? Ht _]. destruct (Ht Hpre) as (v & Hv' & Hne).
           congruence.
        -- rewrite IH. split.
           ++ intros (pre & tok & post & -> & Hall & Htok & Hnone).
              exists (arg :: pre), tok, post. split_and!; [done| |done|done].
              constructor; [|done]. intros _. by exists v.
           ++ intros (pre & tok & post & Heq & Hall & Htok & Hnone).
              destruct pre as [|t pre]; simplify_eq/=.
              inversion_clear Hall. by exists pre, tok, post.
      * split; [|by eexists]. intros _. by exists [], arg, rest.
    + rewrite IH. split.
      * intros (pre & tok & post & -> & Hall & Htok & Hnone).
        exists (arg :: pre), tok, post. split_and!; [done| |done|done].
        constructor; [|done]. congruence.
      * intros (pre & tok & post & Heq & Hall & Htok & Hnone).
        destruct pre as [|t pre]; simplify_eq/=; try congruence.
        inversion_clear Hall. by exists pre, tok, post.
Qed.

Lemma Restartable_loop_outcome rest :
  Restartable_loop rest = Ret Running
  ∨ Restartable_loop rest = Ret Stoppable
  ∨ Restartable_loop rest = Panic "index out of range [1] with length 1".
Proof.
  induction rest as [|arg rest IH]; simpl; [by right; left|].
  repeat case_match; try done; [by left|by right; right].
Qed.

(** C5, amended. The derivation looks at the tokens of Rest in order, and
    only at those that start with [hf_action_restartable]; the value of such
    a token is the text between its first [=] and its next [=] (or its end).
    It has three outcomes: it returns Running exactly when some such token
    has the value [running] and every such token before it has another
    value; it returns Stoppable exactly when every such token has a value
    other than [running], the empty Rest included; and it stops with a
    run-time panic exactly when it meets such a token without [=] before any
    with the value [running].  So the exact token
    [hf_action_restartable=running] never gives Stoppable, and gives Running
    unless a token without [=] comes before it; and when every such token
    contains an [=], the derivation returns, and it returns Running exactly
    when some such token has the value [running]. *)
Theorem Restartable_spec (r : RunArgs) :
  (Restartable r = Ret Running
   ∨ Restartable r = Ret Stoppable
   ∨ Restartable r = Panic "index out of range [1] with length 1")
  ∧ (Restartable r = Ret Running ↔
     ∃ pre tok post,
       Rest r = pre ++ tok :: post
       ∧ Forall (λ t, GoStrings.HasPrefix t "hf_action_restartable" = true →
                      ∃ v, GoStrings.Split t "="%char !! 1%nat = Some v ∧ v ≠ "running") pre
       ∧ GoStrings.HasPrefix tok "hf_action_restartable" = true
       ∧ GoStrings.Split tok "="%char !! 1%nat = Some "running")
  ∧ (Restartable r = Ret Stoppable ↔
     Forall (λ t, GoStrings.HasPrefix t "hf_action_restartable" = true →
                  ∃ v, GoStrings.Split t "="%char !! 1%nat = Some v ∧ v ≠ "running") (Rest r))
  ∧ ((∃ msg, Restartable r = Panic msg) ↔
     ∃ pre tok post,
       Rest r = pre ++ tok :: post
       ∧ Forall (λ t, GoStrings.HasPrefix t "hf_action_restartable" = true →
                      ∃ v, GoStrings.Split t "="%char !! 1%nat = Some v ∧ v ≠ "running") pre
       ∧ GoStrings.HasPrefix tok "hf_action_restartable" = true
       ∧ GoStrings.Split tok "="%char !! 1%nat = None)
  ∧ ("hf_action_restartable=running" ∈ Rest r → Restartable r ≠ Ret Stoppable)
  ∧ (Forall (λ tok, GoStrings.HasPrefix tok "hf_action_restartable" = true →
                    ∃ a b, tok = a +:+ String "="%char b) (Rest r) →
     ∃ st, Restartable r = Ret st ∧
       (st = Running ↔
        ∃ tok, tok ∈ Rest r ∧ GoStrings.HasPrefix tok "hf_action_restartable" = true
               ∧ GoStrings.Split tok "="%char !! 1%nat = Some "running"))
  ∧ (Rest r = [] → Restartable r = Ret Stoppable).
Proof.
  assert (Restartable r = Restartable_loop (Rest r)) as ->.
  { unfold Restartable. case_decide as Hlen; [|done].
    apply nil_length_inv in Hlen. by rewrite Hlen. }
  split_and!.
  - apply Restartable_loop_outcome.
  - apply Restartable_loop_returns_Running.
  - apply Restartable_loop_returns_Stoppable.
  - apply Restartable_loop_index_panic.
  - intros Hin Hstop. apply Restartable_loop_returns_Stoppable in Hstop.
    rewrite Forall_forall in Hstop.
    destruct (Hstop _ Hin eq_refl) as (v & Hv & Hne). simpl in Hv. congruence.
  - intros Hwf. destruct (Restartable_loop_spec _ Hwf) as (st & Hst & _ & Hiff). by exists st.
  - by intros ->.
Qed.

Lemma Restartable_spec_witness :
  Restartable (mkRunArgs "proj" ["10.0.0.1"] 1 "exp" 29500 "run" 0
                 ["lr=0.1"; "hf_action_restartable=running"; "hf_action_restartable"]
                 None None None)
  = Ret Running.
Proof.
  apply (proj1 (proj2 (Restartable_spec
           (mkRunArgs "proj" ["10.0.0.1"] 1 "exp" 29500 "run" 0
              ["lr=0.1"; "hf_action_restartable=running"; "hf_action_restartable"]
              None None None)))).
  exists ["lr=0.1"], "hf_action_restartable=running", ["hf_action_restartable"].
  split_and!; [reflexivity| |reflexivity|reflexivity].
  constructor; [|constructor]. intros H. discriminate H.
Defined.

(** ** The observed exit code *)

Lemma strip_prefix_Some pre s s' :
  ExitCodeRegexp.strip_prefix pre s = Some s' → s = pre +:+ s'.
Proof.
  revert s. induction pre as [|a pre IH]; intros s; simpl.
  - by intros [= ->].
  - destruct s as [|b s]; [done|].
    destruct (Ascii.eqb a b) eqn:E; [|done].
    apply Ascii.eqb_eq in E as ->. intros H. by rewrite (IH _ H).
Qed.

Lemma strip_prefix_app pre s : ExitCodeRegexp.strip_prefix pre (pre +:+ s) = Some s.
Proof. induction pre as [|a pre IH]; simpl; [done|]. by rewrite Ascii.eqb_refl. Qed.

Lemma span_digits_app ds c rest :
  Forall (λ c, GoStrconv.is_digit c = true) (list_ascii_of_string ds) →
  GoStrconv.is_digit c = false →
  ExitCodeRegexp.span_digits (ds +:+ String c rest) = (ds, String c rest).
Proof.
  intros Hds Hc. induction ds as [|d ds IH]; simpl.
  - change ("" +:+ String c rest) with (String c rest). simpl. by rewrite Hc.
  - change (String d ds +:+ String c rest) with (String d (ds +:+ String c rest)).
    simpl in *. inversion_clear Hds as [|?? Hd Hds']. rewrite Hd, IH; done.
Qed.

Lemma match_here_marker ds post :
  ds ≠ "" →
  Forall (λ c, GoStrconv.is_digit c = true) (list_ascii_of_string ds) →
  ExitCodeRegexp.match_here ("Exited (" +:+ ds +:+ ")" +:+ post) = Some ds.
Proof.
  intros Hne Hds. unfold ExitCodeRegexp.match_here.
  rewrite strip_prefix_app.
  change (")" +:+ post) with (String ")"%char post).
  rewrite span_digits_app by done. by destruct ds.
Qed.

Lemma FindStringSubmatch_marker s :
  has_exit_marker s → is_Some (ExitCodeRegexp.FindStringSubmatch s).
Proof.
  intros (pre & ds & post & -> & Hne & Hds).
  induction pre as [|c pre IH].
  - change ("" +:+ "Exited (" +:+ ds +:+ ")" +:+ post)
      with ("Exited (" +:+ ds +:+ ")" +:+ post).
    assert (ExitCodeRegexp.match_here ("Exited (" +:+ ds +:+ ")" +:+ post) = Some ds) as Hm
      by by apply match_here_marker.
    destruct ("Exited (" +:+ ds +:+ ")" +:+ post); [done|]. simpl. by rewrite Hm.
  - change (String c pre +:+ "Exited (" +:+ ds +:+ ")" +:+ post)
      with (String c (pre +:+ "Exited (" +:+ ds +:+ ")" +:+ post)).
    simpl. by case_match.
Qed.

Lemma span_digits_spec s :
  s = (ExitCodeRegexp.span_digits s).1 +:+ (ExitCodeRegexp.span_digits s).2
  ∧ Forall (λ c, GoStrconv.is_digit c = true)
           (list_ascii_of_string (ExitCodeRegexp.span_digits s).1).
Proof.
  induction s as [|c s [IH1 IH2]]; simpl; [by split|].
  destruct (GoStrconv.is_digit c) eqn:Hc; simpl; [|by split].
  destruct (ExitCodeRegexp.span_digits s) as [ds rest]; simpl in *.
  split; [by rewrite IH1 at 1|by constructor].
Qed.

Lemma match_here_Some s ds :
  ExitCodeRegexp.match_here s = Some ds → has_exit_marker s.
Proof.
  unfold ExitCodeRegexp.match_here.
  destruct (ExitCodeRegexp.strip_prefix "Exited (" s) as [s'|] eqn:Hp; [|done].
  apply strip_prefix_Some in Hp.
  destruct (span_digits_spec s') as [Hs Hd].
  destruct (ExitCodeRegexp.span_digits s') as [[|d ds'] rest]; [done|].
  destruct rest as [|c rest]; [done|].
  intros Hm. assert (c = ")"%char) as ->. { by repeat case_match. }
  simpl in Hs, Hd. exists "", (String d ds'), rest.
  split_and!; [|done|done]. by rewrite Hp, Hs.
Qed.

Lemma FindStringSubmatch_Some s ds :
  ExitCodeRegexp.FindStringSubmatch s = Some ds → has_exit_marker s.
Proof.
  induction s as [|c s IH]; [done|]. simpl.
  destruct (ExitCodeRegexp.match_here (String c s)) eqn:E.
  - intros _. by eapply match_here_Some.
  - intros (pre & ds' & post & -> & ? & ?)%IH.
    by exists (String c pre), ds', post.
Qed.

Lemma getExitCode_no_marker status :
  ¬ has_exit_marker status → getExitCode status = (0, None).
Proof.
  intros Hno. unfold getExitCode.
  destruct (ExitCodeRegexp.FindStringSubmatch status) eqn:E; [|done].
  by apply FindStringSubmatch_Some in E.
Qed.

Lemma containerStateAndExitCode_loop_found pre c post containerName :
  Forall (λ c', ∃ n ns, Names c' = n :: ns ∧ n ≠ "/" +:+ containerName) pre →
  (∃ ns, Names c = ("/" +:+ containerName) :: ns) →
  containerStateAndExitCode_loop (pre ++ c :: post) containerName
  = match getExitCode (Status c) with
    | (_, Some err) =>
        Ret ("", 0, Some (WithMessage err ("failed to get exit code for container "
                                           +:+ containerName)))
    | (exitCode, None) => Ret (C_State c, exitCode, None)
    end.
Proof.
  intros Hpre [ns Hc]. induction Hpre as [|c' pre (n & ns' & Hn & Hne) _ IH]; simpl.
  - rewrite Hc. by rewrite decide_True.
  - rewrite Hn. by rewrite decide_False.
Qed.

(** C10. When the runtime query finds the container by its exact name and
    the status text of the container holds no exit marker, the observed exit
    code is 0 and the state is the reported one; the observation recorded in
    the local page carries Actual = 0, and as 0 is in the ok set it never
    satisfies the restart predicate, whatever the expected state. *)
Theorem found_without_exit_marker_is_zero
    (ContainerList : string → list Container * option error)
    (containerName : string) (pre post : list Container) (c : Container) :
  containerName ≠ "" →
  ContainerList containerName = (pre ++ c :: post, None) →
  Forall (λ c', ∃ n ns, Names c' = n :: ns ∧ n ≠ "/" +:+ containerName) pre →
  (∃ ns, Names c = ("/" +:+ containerName) :: ns) →
  ¬ has_exit_marker (Status c) →
  containerStateAndExitCode (Some ContainerList) containerName = Ret (C_State c, 0, None)
  ∧ 0 ∈ okExitCodes
  ∧ (∀ expected rargs, ShouldRestart (mkStateMatch expected 0 rargs) = false)
  ∧ (∀ s rargs expected local,
       curIP s ∈ Hosts rargs →
       Restartable rargs = Ret expected →
       page s !! curIP s = Some local →
       ∃ s', FindLocalMatch_body (Some ContainerList) s containerName rargs = Ret (s', None)
             ∧ page s' !! curIP s ≫= (.!! containerName)
               = Some (mkStateMatch expected 0 rargs)).
Proof.
  intros Hname Hlist Hpre Hc Hno.
  assert (containerStateAndExitCode (Some ContainerList) containerName
          = Ret (C_State c, 0, None)) as Hres.
  { unfold containerStateAndExitCode. rewrite decide_False by done. rewrite Hlist.
    rewrite containerStateAndExitCode_loop_found by done.
    by rewrite getExitCode_no_marker. }
  split_and!; [done|set_solver| |].
  - intros expected rargs. unfold ShouldRestart. simpl.
    by rewrite andb_false_r.
  - intros s rargs expected local Hin Hexp Hpage.
    unfold FindLocalMatch_body, slices_Contains.
    rewrite bool_decide_eq_true_2 by done. rewrite Hexp. simpl.
    rewrite Hres. simpl. rewrite Hpage.
    eexists. split; [done|]. simpl.
    rewrite lookup_insert_eq. simpl. by rewrite lookup_insert_eq.
Qed.

Lemma found_without_exit_marker_is_zero_witness :
  containerStateAndExitCode
    (Some (λ _, ([mkContainer ["/proj-other"] "exited" "Exited (1) 2 hours ago";
                  mkContainer ["/proj-exp"] "running" "Up 5 minutes"], None)))
    "proj-exp"
  = Ret ("running", 0, None).
Proof.
  refine (proj1 (found_without_exit_marker_is_zero
            (λ _, ([mkContainer ["/proj-other"] "exited" "Exited (1) 2 hours ago";
                    mkContainer ["/proj-exp"] "running" "Up 5 minutes"], None))
            "proj-exp"
            [mkContainer ["/proj-other"] "exited" "Exited (1) 2 hours ago"] []
            (mkContainer ["/proj-exp"] "running" "Up 5 minutes") _ _ _ _ _)).
  - discriminate.
  - reflexivity.
  - constructor; [|constructor]. eexists _, _. split; [reflexivity|discriminate].
  - eexists. reflexivity.
  - intros Hm. apply FindStringSubmatch_marker in Hm.
    destruct Hm as [? Hm]. discriminate Hm.
Defined.

(** ** The rank resolver *)



Lemma masterHostElseFirstHost_spec args first rest :
  Hosts args = first :: rest →
  masterHostElseFirstHost args = Ret (configured_master args first).
Proof.
  intros Hh. unfold masterHostElseFirstHost, configured_master. rewrite Hh.
  destruct (MasterHost args) as [m|]; [|done]. by case_decide.
Qed.


(** A list of one host that is none of the local addresses, with a master
    override: the resolver signals the omit-host error, but [Run] does not
    call it and goes on as [localhost] with rank 0, not with the configured
    master.  And for two hosts with an override the resolver itself returns
    the first entry, not the override. *)
Lemma single_host_runs_as_localhost :
  let one := mkRunArgs "proj" ["10.0.0.5"] 1 "exp" 29500 "run" 0 [] None
               (Some "10.9.9.9") None in
  let two := mkRunArgs "proj" ["10.0.0.1"; "10.0.0.2"] 1 "exp" 29500 "run" 0 [] None
               (Some "10.9.9.9") None in
  ("10.0.0.5" ∉ ["10.0.0.1"; "127.0.0.1"])
  ∧ configured_master one "10.0.0.5" = "10.9.9.9"
  ∧ masterAndRank ("10.0.0.1", None) (["127.0.0.1"], None) (Hosts one)
    = Ret ("", 0, Some ErrOmitHost)
  ∧ Run_master_rank ("10.0.0.1", None) (["127.0.0.1"], None) one = Ret ("localhost", 0)
  ∧ configured_master two "10.0.0.1" = "10.9.9.9"
  ∧ masterAndRank ("10.0.0.1", None) (["127.0.0.1"], None) (Hosts two)
    = Ret ("10.0.0.1", 0, None).
Proof.
  intros one two. split_and!; try reflexivity.
  intros [Heq|[Heq|Hin%elem_of_nil]%elem_of_cons]%elem_of_cons; [discriminate..|done].
Qed.

(** On an empty host list the resolver panics at [hosts[0]]. *)
Example masterAndRank_no_hosts ip locals :
  masterAndRank (ip, None) (locals, None) [] = Panic "index out of range [0] with length 0".
Proof. reflexivity. Qed.


(** ** The local state store *)

(** C3. The constructor leaves the table of the store unset (a nil map), and
    [SetState] on a store whose table is unset panics at the assignment; so
    on the store that the constructor makes at the default path in an empty
    file system, the first [SetState] panics instead of storing the entry. *)
Theorem SetState_on_new_store_panics :
  (∀ fs restartPath fs' r,
     NewInnerStateManager fs restartPath = (fs', (Some r, None)) → States r = None)
  ∧ (∀ r projectName experimentName state runArgs,
       States r = None →
       SetState r projectName experimentName state runArgs
       = Panic "assignment to entry in nil map")
  ∧ (∃ fs' r,
       NewInnerStateManagerWithDefPath (OS.mkFS [] ∅) = (fs', (Some r, None))
       ∧ SetState r "proj" "exp" Running
           (mkRunArgs "proj" ["10.0.0.1"] 1 "exp" 29500 "run" 0 [] None None None)
         = Panic "assignment to entry in nil map").
Proof.
  split_and!.
  - intros fs restartPath fs' r. unfold NewInnerStateManager.
    destruct (OS.MkdirAll fs restartPath) as [fs1 [err|]]; [done|].
    by intros [= _ <-].
  - intros r projectName experimentName state runArgs Hnil.
    unfold SetState. by rewrite Hnil.
  - eexists _, _. split; [vm_compute; reflexivity|]. reflexivity.
Qed.

(** On a store whose table has been made, [SetState] is an upsert under the
    key [project-experiment], and the file system is not touched. *)
Lemma SetState_made_map r m projectName experimentName state runArgs :
  States r = Some m →
  SetState r projectName experimentName state runArgs
  = Ret (mkInnerStateManager (defaultRestartPath r)
           (Some (<[projectName +:+ "-" +:+ experimentName :=
                      mkProjectExperimentState projectName experimentName state runArgs]> m)),
         None).
Proof. intros Hm. unfold SetState. by rewrite Hm. Qed.

(** A state that [readState] returns comes from a file name of exactly three
    dot-separated tokens whose third token is a recognized state. *)
Lemma readState_Some json_Decode fs r stateFile p :
  readState json_Decode fs r stateFile = (Some p, None) →
  GoStrings.Split stateFile "."%char
  = [PES_ProjectName p; PES_ExperimentName p; PES_State p]
  ∧ isValidState (PES_State p) = true.
Proof.
  unfold readState. intros H. repeat case_match; simplify_eq. simpl.
  split; [done|]. by destruct (isValidState _).
Qed.

Section StoreOnDisk.

Context (json_Marshal : RunArgs → string * option error).
Context (json_Decode : string → RunArgs * option error).

(** C7. A state written by [Write] under the default directory is not read
    back: [Write] joins the directory and the file name with a separator,
    [readState] concatenates them without one, so [FillStates] ends with the
    open error of the first state file and loads nothing.  With a directory
    path that ends in a separator the file is found and decoded, and the
    load then panics at the assignment into the unset table. *)
Theorem FillStates_after_Write_fails (cfg : RunArgs) (body : string) :
  json_Marshal cfg = (body, None) →
  json_Decode body = (cfg, None) →
  let p := mkProjectExperimentState "proj" "exp" Running cfg in
  let fs1 := OS.mkFS [] {[ ["tmp"] := OS.Dir; ["tmp"; "invoker-states"] := OS.Dir ]} in
  let fs2 := OS.mkFS [] (<[ ["tmp"; "invoker-states"; "proj.exp.running"] := OS.File body ]>
                           (OS.nodes fs1)) in
  let r := mkInnerStateManager "/tmp/invoker-states" None in
  let r' := mkInnerStateManager "/tmp/invoker-states/" None in
  (NewInnerStateManagerWithDefPath (OS.mkFS [] ∅) = (fs1, (Some r, None))
   ∧ Write json_Marshal fs1 p (defaultRestartPath r) = (fs2, None)
   ∧ FillStates json_Decode fs2 r
     = Ret (r, Some (WithMessage OS.ENOENT "failed to open state file proj.exp.running")))
  ∧ (NewInnerStateManager (OS.mkFS [] ∅) "/tmp/invoker-states/" = (fs1, (Some r', None))
     ∧ Write json_Marshal fs1 p (defaultRestartPath r') = (fs2, None)
     ∧ readState json_Decode fs2 r' "proj.exp.running" = (Some p, None)
     ∧ FillStates json_Decode fs2 r' = Panic "assignment to entry in nil map").
Proof.
  intros Hm Hd p fs1 fs2 r r'. split; split_and!.
  - vm_compute. reflexivity.
  - unfold Write. change (PES_RunArgs p) with cfg. rewrite Hm.
    vm_compute. reflexivity.
  - vm_compute. reflexivity.
  - vm_compute. reflexivity.
  - unfold Write. change (PES_RunArgs p) with cfg. rewrite Hm.
    vm_compute. reflexivity.
  - vm_compute. rewrite Hd. reflexivity.
  - vm_compute. rewrite Hd. reflexivity.
Qed.

(** C8. With the store at the default directory and one entry in its table,
    the first of two consecutive [UpdateStates] calls writes the state file
    and the second fails: it tries to remove the file at the concatenation
    of the directory path and the file name, where there is none, and
    returns the error without rewriting anything. *)
Theorem UpdateStates_twice_fails (cfg : RunArgs) (body : string) :
  json_Marshal cfg = (body, None) →
  let p := mkProjectExperimentState "proj" "exp" Running cfg in
  let r := mkInnerStateManager "/tmp/invoker-states" (Some {[ "proj-exp" := p ]}) in
  let order := [("proj-exp", p)] in
  let fs1 := OS.mkFS [] {[ ["tmp"] := OS.Dir; ["tmp"; "invoker-states"] := OS.Dir ]} in
  let fs2 := OS.mkFS [] (<[ ["tmp"; "invoker-states"; "proj.exp.running"] := OS.File body ]>
                           (OS.nodes fs1)) in
  range_order (States r) order
  ∧ UpdateStates json_Marshal fs1 r order = (fs2, None)
  ∧ UpdateStates json_Marshal fs2 r order
    = (fs2, Some (WithMessage OS.ENOENT "failed to remove file proj.exp.running")).
Proof.
  intros Hm p r order fs1 fs2. split_and!.
  - unfold range_order. simpl. by rewrite map_to_list_singleton.
  - unfold UpdateStates. cbn [UpdateStates_write order]. unfold Write.
    change (PES_RunArgs p) with cfg. rewrite Hm. vm_compute. reflexivity.
  - vm_compute. reflexivity.
Qed.

(** The removal loop of [UpdateStates] does not look at the name of a file:
    with a directory path that ends in a separator, a file that is no state
    file is removed as well. *)
Example UpdateStates_removes_other_files (cfg : RunArgs) (body : string) :
  json_Marshal cfg = (body, None) →
  let p := mkProjectExperimentState "proj" "exp" Running cfg in
  let r := mkInnerStateManager "/tmp/invoker-states/" (Some {[ "proj-exp" := p ]}) in
  let dirs : gmap (list string) OS.node :=
    {[ ["tmp"] := OS.Dir; ["tmp"; "invoker-states"] := OS.Dir ]} in
  UpdateStates json_Marshal
    (OS.mkFS [] (<[ ["tmp"; "invoker-states"; "notes"] := OS.File "keep" ]> dirs))
    r [("proj-exp", p)]
  = (OS.mkFS [] (<[ ["tmp"; "invoker-states"; "proj.exp.running"] := OS.File body ]> dirs),
     None).
Proof.
  intros Hm p r dirs. unfold UpdateStates. cbn [UpdateStates_write]. unfold Write.
  change (PES_RunArgs p) with cfg. rewrite Hm. vm_compute. reflexivity.
Qed.

End StoreOnDisk.

Lemma FillStates_after_Write_fails_witness :
  FillStates (λ _, (mkRunArgs "proj" ["10.0.0.1"] 1 "exp" 29500 "run" 0 [] None None None, None))
    (OS.mkFS [] (<[ ["tmp"; "invoker-states"; "proj.exp.running"] := OS.File "{}" ]>
                   {[ ["tmp"] := OS.Dir; ["tmp"; "invoker-states"] := OS.Dir ]}))
    (mkInnerStateManager "/tmp/invoker-states" None)
  = Ret (mkInnerStateManager "/tmp/invoker-states" None,
         Some (WithMessage OS.ENOENT "failed to open state file proj.exp.running")).
Proof.
  exact (proj2 (proj2 (proj1
    (FillStates_after_Write_fails
       (λ _, ("{}", None))
       (λ _, (mkRunArgs "proj" ["10.0.0.1"] 1 "exp" 29500 "run" 0 [] None None None, None))
       (mkRunArgs "proj" ["10.0.0.1"] 1 "exp" 29500 "run" 0 [] None None None) "{}"
       eq_refl eq_refl)))).
Defined.

Lemma UpdateStates_twice_fails_witness :
  let p := mkProjectExperimentState "proj" "exp" Running
             (mkRunArgs "proj" ["10.0.0.1"] 1 "exp" 29500 "run" 0 [] None None None) in
  let fs2 := OS.mkFS [] (<[ ["tmp"; "invoker-states"; "proj.exp.running"] := OS.File "{}" ]>
                           {[ ["tmp"] := OS.Dir; ["tmp"; "invoker-states"] := OS.Dir ]}) in
  UpdateStates (λ _, ("{}", None)) fs2
    (mkInnerStateManager "/tmp/invoker-states" (Some {[ "proj-exp" := p ]}))
    [("proj-exp", p)]
  = (fs2, Some (WithMessage OS.ENOENT "failed to remove file proj.exp.running")).
Proof.
  exact (proj2 (proj2
    (UpdateStates_twice_fails (λ _, ("{}", None))
       (mkRunArgs "proj" ["10.0.0.1"] 1 "exp" 29500 "run" 0 [] None None None) "{}"
       eq_refl))).
Defined.

(** ** Merging the pages *)

Lemma fold_insert_union (cur m : gmap string StateMatch) :
  map_fold (λ experiment stateMatch cur, <[experiment := stateMatch]> cur) cur m = m ∪ cur.
Proof.
  apply (map_fold_weak_ind (λ r m, r = m ∪ cur)).
  - by rewrite (left_id_L ∅ (∪)).
  - intros i x m' r _ ->. by rewrite insert_union_l.
Qed.

Lemma merge_page_lookup (spage pg : gmap string (gmap string StateMatch)) host :
  merge_page spage pg !! host
  = match pg !! host with
    | Some expState => Some (expState ∪ default ∅ (spage !! host))
    | None => spage !! host
    end.
Proof.
  unfold merge_page. revert host.
  apply (map_fold_weak_ind (λ r m, ∀ host,
    r !! host = match m !! host with
                | Some expState => Some (expState ∪ default ∅ (spage !! host))
                | None => spage !! host
                end)).
  - intros host. by rewrite lookup_empty.
  - intros i x m r Hi IH host. unfold merge_host. rewrite fold_insert_union.
    destruct (decide (i = host)) as [->|Hne].
    + rewrite !lookup_insert_eq. by rewrite IH, Hi.
    + rewrite !lookup_insert_ne by done. apply IH.
Qed.

(** A cell of the later page wins; the other cells stay. *)
Lemma merge_page_cell spage pg host experiment :
  cell (merge_page spage pg) host experiment
  = match cell pg host experiment with
    | Some m => Some m
    | None => cell spage host experiment
    end.
Proof.
  unfold cell. rewrite merge_page_lookup.
  destruct (pg !! host) as [expState|]; simpl; [|done].
  rewrite lookup_union. destruct (expState !! experiment); simpl.
  - by destruct (default ∅ (spage !! host) !! experiment).
  - rewrite (left_id_L None _). by destruct (spage !! host).
Qed.

Lemma group_host_spec host stateMatch (grouped : gmap string (gmap string StateMatch)) :
  (∀ e, grouped !! e ≫= (.!! host) = None) →
  (∀ e hs, grouped !! e = Some hs → hs ≠ ∅) →
  (∀ e h, group_host host stateMatch grouped !! e ≫= (.!! h)
          = if decide (h = host) then stateMatch !! e else grouped !! e ≫= (.!! h))
  ∧ (∀ e hs, group_host host stateMatch grouped !! e = Some hs → hs ≠ ∅).
Proof.
  intros Hfresh Hne. unfold group_host.
  apply (map_fold_weak_ind (λ r m,
    (∀ e h, r !! e ≫= (.!! h)
            = if decide (h = host) then m !! e else grouped !! e ≫= (.!! h))
    ∧ (∀ e hs, r !! e = Some hs → hs ≠ ∅))).
  - split; [|done]. intros e h. rewrite lookup_empty. case_decide; [|done].
    subst. apply Hfresh.
  - intros i x m r Hi [IH1 IH2]. split.
    + intros e h. destruct (decide (i = e)) as [->|Hie].
      * rewrite !lookup_insert_eq. simpl.
        destruct (decide (h = host)) as [->|Hh].
        -- by rewrite lookup_insert_eq.
        -- rewrite lookup_insert_ne by done.
           specialize (IH1 e h). rewrite decide_False in IH1 by done.
           rewrite <- IH1. by destruct (r !! e).
      * rewrite !lookup_insert_ne by done. apply IH1.
    + intros e hs. destruct (decide (i = e)) as [->|Hie].
      * rewrite lookup_insert_eq. intros [= <-]. apply insert_non_empty.
      * rewrite lookup_insert_ne by done. apply IH2.
Qed.

(** The grouped table is the page transposed, and none of its rows is
    empty. *)
Lemma group_page_spec (pg : gmap string (gmap string StateMatch)) :
  (∀ e h, group_page pg !! e ≫= (.!! h) = cell pg h e)
  ∧ (∀ e hs, group_page pg !! e = Some hs → hs ≠ ∅).
Proof.
  unfold group_page, cell.
  apply (map_fold_weak_ind (λ r m,
    (∀ e h, r !! e ≫= (.!! h) = m !! h ≫= (.!! e))
    ∧ (∀ e hs, r !! e = Some hs → hs ≠ ∅))).
  - split; [|done]. intros e h. by rewrite !lookup_empty.
  - intros i x m r Hi [IH1 IH2].
    destruct (group_host_spec i x r) as [H1 H2]; [|done|].
    { intros e. by rewrite IH1, Hi. }
    split; [|done]. intros e h. rewrite H1.
    destruct (decide (h = i)) as [->|Hh].
    + by rewrite lookup_insert_eq.
    + rewrite lookup_insert_ne by done. apply IH1.
Qed.

Lemma group_page_row pg e hs :
  group_page pg !! e = Some hs → ∀ h, hs !! h = cell pg h e.
Proof.
  intros Hrow h. destruct (group_page_spec pg) as [H1 _].
  specialize (H1 e h). by rewrite Hrow in H1.
Qed.

Lemma group_page_observed pg e h m :
  cell pg h e = Some m → ∃ hs, group_page pg !! e = Some hs ∧ hs !! h = Some m.
Proof.
  intros Hc. destruct (group_page_spec pg) as [H1 _].
  specialize (H1 e h). rewrite Hc in H1.
  destruct (group_page pg !! e) as [hs|]; [|done]. by exists hs.
Qed.

(** ** Facts about the gob encoding *)

Lemma encodeUint_length x :
  length (Gob.encodeUint x)
  = if x <=? 127 then 1%nat
    else S (8 - Z.to_nat (Z.shiftr (Gob.LeadingZeros64 x) 3)).
Proof.
  unfold Gob.encodeUint. destruct (x <=? 127); [done|].
  simpl length. by rewrite length_drop.
Qed.

Lemma encodeUint_length_mono x y :
  x ≤ y → (length (Gob.encodeUint x) ≤ length (Gob.encodeUint y))%nat.
Proof.
  intros Hxy. rewrite !encodeUint_length.
  destruct (Z.leb_spec x 127), (Z.leb_spec y 127); [lia..|].
  assert (Z.shiftr (Gob.LeadingZeros64 y) 3 ≤ Z.shiftr (Gob.LeadingZeros64 x) 3); [|lia].
  rewrite !Z.shiftr_div_pow2 by lia. apply Z.div_le_mono; [lia|].
  unfold Gob.LeadingZeros64. rewrite !decide_False by lia.
  pose proof (Z.log2_le_mono x y Hxy). lia.
Qed.

(** Two framed messages that are equal have equal payloads. *)
Lemma framed_inj (p1 p2 : list byte) :
  Gob.encodeUint (Z.of_nat (length p1)) ++ p1 = Gob.encodeUint (Z.of_nat (length p2)) ++ p2 →
  p1 = p2.
Proof.
  intros Heq.
  assert (length p1 = length p2) as Hlen.
  { pose proof (f_equal length Heq) as Hl. rewrite !length_app in Hl.
    destruct (Nat.lt_trichotomy (length p1) (length p2)) as [Hlt|[?|Hlt]]; [|done|].
    - pose proof (encodeUint_length_mono (Z.of_nat (length p1)) (Z.of_nat (length p2))). lia.
    - pose proof (encodeUint_length_mono (Z.of_nat (length p2)) (Z.of_nat (length p1))). lia. }
  rewrite Hlen in Heq. by apply app_inv_head in Heq.
Qed.

Lemma encodeInt_length i : (length (Gob.encodeInt i) ≤ 9)%nat.
Proof.
  unfold Gob.encodeInt. destruct (i <? 0); rewrite encodeUint_length; case_match; lia.
Qed.

Lemma Encode_eq_iff ti f1 f2 :
  Z.of_nat (length (Gob.encodeStruct f1)) + 9 < Gob.tooBig →
  Z.of_nat (length (Gob.encodeStruct f2)) + 9 < Gob.tooBig →
  Gob.Encode ti f1 = Gob.Encode ti f2 ↔ Gob.encodeStruct f1 = Gob.encodeStruct f2.
Proof.
  intros H1 H2. unfold Gob.Encode.
  pose proof (encodeInt_length (Gob.typeId ti)) as Hid.
  rewrite !decide_True by (rewrite length_app; lia). split.
  - intros Heq%app_inv_head%framed_inj. by apply app_inv_head in Heq.
  - by intros ->.
Qed.

(** On arguments below the size limit the outcome of [Equal] does not depend
    on the state of the type registry: it compares the encodings of the two
    field sequences. *)
Lemma Equal_struct ti r a :
  encodable r → encodable a →
  Equal ti r a
  = bool_decide (Gob.encodeStruct (RunArgs_fields r) = Gob.encodeStruct (RunArgs_fields a)).
Proof. intros Hr Ha. unfold Equal. by apply bool_decide_ext, Encode_eq_iff. Qed.

Lemma Equal_typeInfo ti ti' r a :
  encodable r → encodable a → Equal ti r a = Equal ti' r a.
Proof. intros Hr Ha. by rewrite !Equal_struct. Qed.

Lemma Equal_refl ti r : Equal ti r r = true.
Proof. unfold Equal. by rewrite bool_decide_eq_true_2. Qed.

Lemma Equal_sym ti r a : Equal ti r a = Equal ti a r.
Proof. unfold Equal. apply bool_decide_ext. split; congruence. Qed.

Lemma Equal_trans ti r a b :
  Equal ti r a = true → Equal ti a b = true → Equal ti r b = true.
Proof.
  unfold Equal. rewrite !bool_decide_eq_true. congruence.
Qed.

(** ** The decision loops *)

Lemma hosts_loop_inl ti prev order acc failed :
  hosts_loop ti prev order acc = inl failed →
  Forall (λ hm, Equal ti (SM_RunArgs prev) (SM_RunArgs hm.2) = true) order
  ∧ ((0 < length failed)%nat ↔
     (0 < length acc)%nat ∨ Exists (λ hm, ShouldRestart hm.2 = true) order).
Proof.
  revert acc. induction order as [|[host sm] order IH]; intros acc; simpl.
  - intros [= <-]. split; [constructor|]. rewrite Exists_nil. tauto.
  - destruct (Equal ti (SM_RunArgs prev) (SM_RunArgs sm)) eqn:HE; simpl; [|done].
    destruct (ShouldRestart sm) eqn:HS; intros [HF Hiff]%IH.
    + split; [by constructor|]. rewrite Hiff, Exists_cons, length_app. simpl.
      split; [tauto|]. intros _. left. lia.
    + split; [by constructor|]. rewrite Hiff, Exists_cons. simpl.
      split; [tauto|]. intros [?|[?|?]]; [tauto|congruence|tauto].
Qed.

Lemma hosts_loop_inr ti prev order acc err :
  hosts_loop ti prev order acc = inr err →
  err = ErrNew "run args are not equal"
  ∧ Exists (λ hm, Equal ti (SM_RunArgs prev) (SM_RunArgs hm.2) = false) order.
Proof.
  revert acc. induction order as [|[host sm] order IH]; intros acc; simpl; [done|].
  destruct (Equal ti (SM_RunArgs prev) (SM_RunArgs sm)) eqn:HE; simpl.
  - destruct (ShouldRestart sm); intros [-> ?]%IH; split; try done; by right.
  - intros [= <-]. split; [done|]. by left.
Qed.

Lemma experiment_turn_ok ti v tr tr1 :
  experiment_turn ti v tr = (tr1, None) → visit_decides ti v tr tr1.
Proof.
  unfold experiment_turn.
  destruct (decide (length (v_range v) = 0%nat)) as [Hlen|Hlen].
  { intros [= <-]. left. split; [|done]. by apply nil_length_inv. }
  destruct (v_first v) as [|[h prev] rest] eqn:Hfirst; simpl; [done|].
  destruct (hosts_loop ti prev (v_range v) []) as [failed|err] eqn:Hloop; [|done].
  apply hosts_loop_inl in Hloop as [Hagree Hiff].
  destruct (decide (0 < length failed)%nat) as [Hf|Hf]; intros [= <-].
  - right. exists prev. split_and!; [by eauto|done|].
    left. split; [|done]. apply Hiff in Hf as [Hf|Hf]; [simpl in Hf; lia|done].
  - right. exists prev. split_and!; [by eauto|done|].
    right. split; [|done]. apply Forall_forall. intros hm Hin.
    destruct (ShouldRestart hm.2) eqn:HS; [|done].
    exfalso. apply Hf, Hiff. right. apply Exists_exists. eauto.
Qed.

Lemma experiment_turn_err ti v tr tr1 err :
  experiment_turn ti v tr = (tr1, Some err) → tr1 = tr ∧ visit_fails ti v err.
Proof.
  unfold experiment_turn.
  destruct (decide (length (v_range v) = 0%nat)) as [Hlen|Hlen]; [done|].
  assert (v_range v ≠ []) as Hne by (by intros Hnil; rewrite Hnil in Hlen).
  destruct (v_first v) as [|[h prev] rest] eqn:Hfirst; simpl.
  { intros [= <- <-]. split; [done|]. split; [done|]. by left. }
  destruct (hosts_loop ti prev (v_range v) []) as [failed|err'] eqn:Hloop.
  - by case_decide.
  - intros [= <- <-]. apply hosts_loop_inr in Hloop as [-> Hex].
    split; [done|]. split; [done|]. right. by exists h, prev, rest.
Qed.

(** The loop either decides every turn, or stops at the first turn that
    fails, with the table as the turns before it left it. *)
Lemma experiments_loop_split ti sched tr :
  (∃ tr', experiments_loop ti sched tr = (tr', None))
  ∨ (∃ pre v post tr' err,
       sched = pre ++ v :: post
       ∧ experiments_loop ti pre tr = (tr', None)
       ∧ visit_fails ti v err
       ∧ experiments_loop ti sched tr = (tr', Some err)).
Proof.
  revert tr. induction sched as [|v sched IH]; intros tr.
  - left. by exists tr.
  - simpl. destruct (experiment_turn ti v tr) as [tr1 [err|]] eqn:Hturn.
    + apply experiment_turn_err in Hturn as [-> Hfail].
      right. exists [], v, sched, tr, err. by split_and!.
    + destruct (IH tr1) as [(tr' & Hok)|(pre & v' & post & tr' & err & -> & Hpre & Hf & Hres)].
      * left. by exists tr'.
      * right. exists (v :: pre), v', post, tr', err. split_and!; [done| |done|done].
        simpl. by rewrite Hturn.
Qed.

(** When every turn is decided, each experiment of the schedule has its
    decision in the final table and the other entries are untouched. *)
Lemma experiments_loop_ok ti sched tr tr' :
  NoDup (v_experiment <$> sched) →
  experiments_loop ti sched tr = (tr', None) →
  (∀ e, e ∉ v_experiment <$> sched → tr' !! e = tr !! e)
  ∧ (∀ v, v ∈ sched →
       ∃ tr0 tr1, visit_decides ti v tr0 tr1
                  ∧ tr0 !! v_experiment v = tr !! v_experiment v
                  ∧ tr' !! v_experiment v = tr1 !! v_experiment v).
Proof.
  revert tr. induction sched as [|v sched IH]; intros tr Hnd; simpl.
  - intros [= <-]. split; [done|]. by intros v ?%elem_of_nil.
  - rewrite fmap_cons in Hnd. apply NoDup_cons in Hnd as [Hv Hnd].
    destruct (experiment_turn ti v tr) as [tr1 [err|]] eqn:Hturn; [done|].
    intros Hloop. destruct (IH tr1 Hnd Hloop) as [Hout Hin].
    pose proof (experiment_turn_ok _ _ _ _ Hturn) as Hdec.
    assert (∀ e, e ≠ v_experiment v → tr1 !! e = tr !! e) as Hother.
    { intros e He.
      destruct Hdec as [[_ ->]|(prev & _ & _ & [[_ ->]|[_ ->]])]; try done.
      by rewrite lookup_insert_ne. }
    split.
    + intros e He. apply not_elem_of_cons in He as [He1 He2].
      rewrite Hout by done. by apply Hother.
    + intros v' [->|Hv']%elem_of_cons.
      * exists tr, tr1. split_and!; [done|done|]. by apply Hout.
      * destruct (Hin v' Hv') as (tr0 & tr2 & Hd & H0 & H2).
        exists tr0, tr2. split_and!; [done| |done].
        rewrite H0. apply Hother. intros Heq. apply Hv. rewrite <- Heq.
        by apply list_elem_of_fmap_2.
Qed.

(** ** Schedules *)

Lemma schedule_NoDup grouped sched :
  schedule_of grouped sched → NoDup (v_experiment <$> sched).
Proof. intros [Hperm _]. rewrite Hperm. apply NoDup_fst_map_to_list. Qed.

Lemma schedule_covers grouped sched e hs :
  schedule_of grouped sched → grouped !! e = Some hs →
  ∃ v, v ∈ sched ∧ v_experiment v = e.
Proof.
  intros [Hperm _] He.
  assert (e ∈ v_experiment <$> sched) as Hin.
  { rewrite Hperm. apply list_elem_of_fmap. exists (e, hs). split; [done|].
    by apply elem_of_map_to_list. }
  apply list_elem_of_fmap in Hin as (v & -> & Hv). by exists v.
Qed.

Lemma visit_cells pg v :
  visit_of (group_page pg) v →
  (∀ h m, (h, m) ∈ v_range v ↔ cell pg h (v_experiment v) = Some m)
  ∧ (∀ h m, (h, m) ∈ v_first v ↔ cell pg h (v_experiment v) = Some m)
  ∧ v_range v ≠ [] ∧ v_first v ≠ [].
Proof.
  intros (hs & Hrow & Hfirst & Hrange).
  pose proof (group_page_row _ _ _ Hrow) as Hcells.
  destruct (group_page_spec pg) as [_ Hne]. specialize (Hne _ _ Hrow).
  assert (map_to_list hs ≠ []) as Hl by (by rewrite map_to_list_empty_iff).
  split_and!.
  - intros h m. by rewrite Hrange, elem_of_map_to_list, Hcells.
  - intros h m. by rewrite Hfirst, elem_of_map_to_list, Hcells.
  - intros Hnil. rewrite Hnil in Hrange. by apply Permutation_nil_l in Hrange.
  - intros Hnil. rewrite Hnil in Hfirst. by apply Permutation_nil_l in Hfirst.
Qed.

(** In a schedule of the grouped page, a turn fails exactly on a conflict. *)
Lemma visit_fails_conflict ti pg v err :
  visit_of (group_page pg) v → visit_fails ti v err →
  err = ErrNew "run args are not equal"
  ∧ ∃ h h' m m', cell pg h (v_experiment v) = Some m
                 ∧ cell pg h' (v_experiment v) = Some m'
                 ∧ Equal ti (SM_RunArgs m) (SM_RunArgs m') = false.
Proof.
  intros Hv [Hne Hfail]. destruct (visit_cells pg v Hv) as (Hrange & Hfirst & _ & Hfne).
  destruct Hfail as [[Hnil _]|(h & prev & rest & Hf & -> & Hex)]; [done|].
  split; [done|]. apply Exists_exists in Hex as ([h' m'] & Hin & HE).
  exists h, h', prev, m'. split_and!; [|by apply Hrange|done].
  apply Hfirst. rewrite Hf. by left.
Qed.

Lemma visit_decides_agree ti pg v tr tr1 :
  visit_of (group_page pg) v → visit_decides ti v tr tr1 →
  ∀ h h' m m', cell pg h (v_experiment v) = Some m →
               cell pg h' (v_experiment v) = Some m' →
               Equal ti (SM_RunArgs m) (SM_RunArgs m') = true.
Proof.
  intros Hv Hdec h h' m m' Hm Hm'.
  destruct (visit_cells pg v Hv) as (Hrange & Hfirst & Hne & _).
  destruct Hdec as [[Hnil _]|(prev & _ & Hall & _)]; [done|].
  rewrite Forall_forall in Hall.
  apply Hrange in Hm, Hm'. apply Hall in Hm, Hm'. simpl in *.
  apply (Equal_trans ti _ (SM_RunArgs prev)); [|done]. by rewrite Equal_sym.
Qed.

(** ** Merge and decide *)

(** The entry of one experiment in the table after a loop that decided every
    turn. *)
Lemma experiments_loop_entry ti pg sched tr tr' e :
  schedule_of (group_page pg) sched →
  experiments_loop ti sched tr = (tr', None) →
  ((∃ h m, cell pg h e = Some m ∧ ShouldRestart m = true) →
     ∃ h m, cell pg h e = Some m ∧ tr' !! e = Some (SM_RunArgs m))
  ∧ ((∀ h m, cell pg h e = Some m → ShouldRestart m = false) → tr' !! e = tr !! e).
Proof.
  intros Hsched Hloop.
  destruct (experiments_loop_ok ti sched tr tr' (schedule_NoDup _ _ Hsched) Hloop)
    as [Hout Hin].
  destruct (decide (e ∈ v_experiment <$> sched)) as [He|He].
  - apply list_elem_of_fmap in He as (v & -> & Hv).
    destruct (Hin v Hv) as (tr0 & tr1 & Hdec & H0 & H1).
    assert (visit_of (group_page pg) v) as Hvis.
    { destruct Hsched as [_ Hall]. rewrite Forall_forall in Hall. by apply Hall. }
    destruct (visit_cells pg v Hvis) as (Hrange & Hfirst & Hne & _).
    destruct Hdec as [[Hnil _]|(prev & (h0 & rest & Hf) & _ & Hcase)]; [done|].
    assert (cell pg h0 (v_experiment v) = Some prev) as Hprev.
    { apply Hfirst. rewrite Hf. by left. }
    destruct Hcase as [[Hex ->]|[Hall ->]].
    + split.
      * intros _. exists h0, prev. split; [done|]. by rewrite H1, lookup_insert_eq.
      * intros Hno. apply Exists_exists in Hex as ([h m] & Hhm & HS).
        apply Hrange in Hhm. apply Hno in Hhm. simpl in HS. congruence.
    + split.
      * intros (h & m & Hc & HS). apply Hrange in Hc.
        rewrite Forall_forall in Hall. apply Hall in Hc. simpl in Hc. congruence.
      * intros _. by rewrite H1, H0.
  - split.
    + intros (h & m & Hc & _). exfalso. apply He.
      destruct (group_page_observed _ _ _ _ Hc) as (hs & Hrow & _).
      destruct (schedule_covers _ _ _ _ Hsched Hrow) as (v & Hv & <-).
      by apply list_elem_of_fmap_2.
    + intros _. by apply Hout.
Qed.

(** Without a conflict every turn of the third loop is decided. *)
Lemma experiments_loop_no_conflict ti pg sched tr :
  schedule_of (group_page pg) sched → no_conflict ti pg →
  ∃ tr', experiments_loop ti sched tr = (tr', None).
Proof.
  intros Hsched Hnc.
  destruct (experiments_loop_split ti sched tr)
    as [Hok|(pre & v & post & tr' & err & -> & _ & Hfail & _)]; [done|].
  exfalso.
  assert (visit_of (group_page pg) v) as Hvis.
  { destruct Hsched as [_ Hall]. rewrite Forall_forall in Hall.
    apply Hall. apply elem_of_app. right. by left. }
  destruct (visit_fails_conflict ti pg v err Hvis Hfail)
    as (_ & h & h' & m & m' & Hm & Hm' & HE).
  rewrite (Hnc _ _ _ _ _ Hm Hm') in HE. done.
Qed.

(** C2, amended. When every match decodes, no experiment of the merged page
    has two hosts whose arguments [Equal] tells apart, and the third loop
    runs in any order, [JoinLocalMatches] returns without error, and for
    every experiment: if some observing host's match satisfies the restart
    predicate, the experiment is in the restart table with the arguments of
    one of its observing hosts; if none does, its entry is as it was before
    the call; so with a table that had no entry for it before, the
    experiment is in the table exactly when some observing host's match
    satisfies the predicate. *)
Theorem JoinLocalMatches_decides ti s matches sched pg :
  merge_matches (page s) matches = (pg, None) →
  schedule_of (group_page pg) sched →
  no_conflict ti pg →
  ∃ tr',
    JoinLocalMatches ti s matches sched = (mkStateManager (curIP s) pg (ism s) tr', None)
    ∧ ∀ e,
        ((∃ h m, cell pg h e = Some m ∧ ShouldRestart m = true) →
           ∃ h m, cell pg h e = Some m ∧ tr' !! e = Some (SM_RunArgs m))
        ∧ ((∀ h m, cell pg h e = Some m → ShouldRestart m = false) →
             tr' !! e = toRestart s !! e)
        ∧ (toRestart s !! e = None →
             (is_Some (tr' !! e) ↔ ∃ h m, cell pg h e = Some m ∧ ShouldRestart m = true)).
Proof.
  intros Hmerge Hsched Hnc. unfold JoinLocalMatches. rewrite Hmerge.
  destruct (experiments_loop_no_conflict ti pg sched (toRestart s) Hsched Hnc) as [tr' Hok].
  exists tr'. rewrite Hok. split; [done|]. intros e.
  destruct (experiments_loop_entry ti pg sched _ _ e Hsched Hok) as [Hyes Hno].
  split_and!; [done|done|]. intros Hnone. split.
  - intros Hsome.
    destruct (decide (Exists (λ hm, ShouldRestart hm.2 = true)
                        (map_to_list (default ∅ (group_page pg !! e))))) as [Hd|Hd].
    + apply Exists_exists in Hd as ([h m] & Hin & HS). exists h, m. split; [|done].
      destruct (group_page pg !! e) as [hs|] eqn:Hrow; simpl in Hin.
      * apply elem_of_map_to_list in Hin. by rewrite <- (group_page_row _ _ _ Hrow).
      * rewrite map_to_list_empty in Hin. by apply elem_of_nil in Hin.
    + exfalso. rewrite Hno, Hnone in Hsome; [by destruct Hsome|].
      intros h m Hc. destruct (ShouldRestart m) eqn:HS; [|done].
      exfalso. apply Hd, Exists_exists. exists (h, m). split; [|done].
      destruct (group_page_observed _ _ _ _ Hc) as (hs & Hrow & Hh).
      rewrite Hrow. simpl. by apply elem_of_map_to_list.
  - intros Hex. destruct (Hyes Hex) as (h & m & _ & ->). by eexists.
Qed.

Lemma hosts_loop_typeInfo ti ti' prev order acc :
  encodable (SM_RunArgs prev) →
  Forall (λ hm, encodable (SM_RunArgs hm.2)) order →
  hosts_loop ti prev order acc = hosts_loop ti' prev order acc.
Proof.
  intros Hprev Horder. revert acc.
  induction Horder as [|[host sm] order Hsm _ IH]; intros acc; simpl; [done|].
  rewrite (Equal_typeInfo ti ti') by done. by rewrite !IH.
Qed.

Lemma experiments_loop_typeInfo ti ti' sched tr :
  schedule_encodable sched →
  experiments_loop ti sched tr = experiments_loop ti' sched tr.
Proof.
  intros Hsched. revert tr.
  induction Hsched as [|v sched [Hfirst Hrange] _ IH]; intros tr; simpl; [done|].
  unfold experiment_turn.
  destruct (v_first v) as [|[h prev] rest]; simpl.
  { repeat case_match; simplify_eq; auto. }
  inversion_clear Hfirst as [|?? Hprev _].
  rewrite (hosts_loop_typeInfo ti ti') by done.
  repeat case_match; simplify_eq; auto.
Qed.

(** On arguments below the size limit the outcome of [JoinLocalMatches] does
    not depend on the state of the gob type registry. *)
Lemma JoinLocalMatches_typeInfo ti ti' s matches sched :
  schedule_encodable sched →
  JoinLocalMatches ti s matches sched = JoinLocalMatches ti' s matches sched.
Proof.
  intros Hsched. unfold JoinLocalMatches.
  by rewrite (experiments_loop_typeInfo ti ti').
Qed.

(** The decision of one turn among turns that were all decided: the
    experiment has no conflict, and its entry in the table is the decision. *)
Lemma experiments_loop_decided ti pg l tr tr' v :
  NoDup (v_experiment <$> l) →
  Forall (visit_of (group_page pg)) l →
  experiments_loop ti l tr = (tr', None) →
  v ∈ l →
  (∀ h h' m m', cell pg h (v_experiment v) = Some m →
                cell pg h' (v_experiment v) = Some m' →
                Equal ti (SM_RunArgs m) (SM_RunArgs m') = true)
  ∧ ((∃ h m, cell pg h (v_experiment v) = Some m ∧ ShouldRestart m = true) →
       ∃ h m, cell pg h (v_experiment v) = Some m
              ∧ tr' !! v_experiment v = Some (SM_RunArgs m))
  ∧ ((∀ h m, cell pg h (v_experiment v) = Some m → ShouldRestart m = false) →
       tr' !! v_experiment v = tr !! v_experiment v).
Proof.
  intros Hnd Hall Hloop Hv.
  destruct (experiments_loop_ok ti l tr tr' Hnd Hloop) as [_ Hin].
  destruct (Hin v Hv) as (tr0 & tr1 & Hdec & H0 & H1).
  assert (visit_of (group_page pg) v) as Hvis.
  { rewrite Forall_forall in Hall. by apply Hall. }
  destruct (visit_cells pg v Hvis) as (Hrange & Hfirst & Hne & _).
  split; [by apply (visit_decides_agree ti pg v tr0 tr1)|].
  destruct Hdec as [[Hnil _]|(prev & (h0 & rest & Hf) & _ & Hcase)]; [done|].
  assert (cell pg h0 (v_experiment v) = Some prev) as Hprev.
  { apply Hfirst. rewrite Hf. by left. }
  destruct Hcase as [[Hex ->]|[Hno ->]].
  - split.
    + intros _. exists h0, prev. split; [done|]. by rewrite H1, lookup_insert_eq.
    + intros Hnone. apply Exists_exists in Hex as ([h m] & Hhm & HS).
      apply Hrange in Hhm. apply Hnone in Hhm. simpl in HS. congruence.
  - split.
    + intros (h & m & Hc & HS). apply Hrange in Hc.
      rewrite Forall_forall in Hno. apply Hno in Hc. simpl in Hc. congruence.
    + intros _. by rewrite H1, H0.
Qed.

(** C1, amended. When every match decodes and two hosts of the merged page
    report, for one experiment, arguments that [Equal] tells apart,
    [JoinLocalMatches] returns the error "run args are not equal" for the
    whole call, in whatever order the third loop runs.  The experiment in
    conflict gets no entry.  The loop stops at the first turn [v] whose
    experiment has a conflict: the experiments of the turns before [v] have
    none, and each has its decision in the table (entered with the arguments
    of one of its observing hosts when some observing host's match satisfies
    the restart predicate, left as it was otherwise); every other entry of
    the table is as before the call, so neither [v] nor any experiment
    scheduled after it is decided. *)
Theorem JoinLocalMatches_conflict ti s matches sched pg e h h' m m' :
  merge_matches (page s) matches = (pg, None) →
  schedule_of (group_page pg) sched →
  cell pg h e = Some m →
  cell pg h' e = Some m' →
  Equal ti (SM_RunArgs m) (SM_RunArgs m') = false →
  ∃ tr' pre v post,
    JoinLocalMatches ti s matches sched
    = (mkStateManager (curIP s) pg (ism s) tr', Some (ErrNew "run args are not equal"))
    ∧ tr' !! e = toRestart s !! e
    ∧ sched = pre ++ v :: post
    ∧ experiments_loop ti pre (toRestart s) = (tr', None)
    ∧ (∃ h1 h2 m1 m2,
         cell pg h1 (v_experiment v) = Some m1
         ∧ cell pg h2 (v_experiment v) = Some m2
         ∧ Equal ti (SM_RunArgs m1) (SM_RunArgs m2) = false)
    ∧ (∀ v0, v0 ∈ pre →
         (∀ h1 h2 m1 m2,
            cell pg h1 (v_experiment v0) = Some m1 →
            cell pg h2 (v_experiment v0) = Some m2 →
            Equal ti (SM_RunArgs m1) (SM_RunArgs m2) = true)
         ∧ ((∃ h1 m1, cell pg h1 (v_experiment v0) = Some m1 ∧ ShouldRestart m1 = true) →
              ∃ h1 m1, cell pg h1 (v_experiment v0) = Some m1
                       ∧ tr' !! v_experiment v0 = Some (SM_RunArgs m1))
         ∧ ((∀ h1 m1, cell pg h1 (v_experiment v0) = Some m1 → ShouldRestart m1 = false) →
              tr' !! v_experiment v0 = toRestart s !! v_experiment v0))
    ∧ (∀ e', e' ∉ v_experiment <$> pre → tr' !! e' = toRestart s !! e')
    ∧ (∀ v', v' ∈ v :: post → tr' !! v_experiment v' = toRestart s !! v_experiment v').
Proof.
  intros Hmerge Hsched Hm Hm' HE. unfold JoinLocalMatches. rewrite Hmerge.
  pose proof (schedule_NoDup _ _ Hsched) as Hnd.
  destruct Hsched as [Hperm Hall].
  destruct (experiments_loop_split ti sched (toRestart s))
    as [(tr' & Hok)|(pre & v & post & tr' & err & -> & Hpre & Hfail & Hres)].
  - exfalso.
    destruct (group_page_observed _ _ _ _ Hm) as (hs & Hrow & _).
    destruct (schedule_covers _ _ _ _ (conj Hperm Hall) Hrow) as (v & Hv & <-).
    destruct (experiments_loop_decided ti pg sched _ _ v Hnd Hall Hok Hv) as [Hagree _].
    rewrite (Hagree _ _ _ _ Hm Hm') in HE. done.
  - rewrite fmap_app, fmap_cons in Hnd.
    apply NoDup_app in Hnd as (Hndpre & Hdisj & _).
    apply Forall_app in Hall as [Hallpre Hallrest].
    assert (visit_of (group_page pg) v) as Hvis by (by inversion_clear Hallrest).
    destruct (visit_fails_conflict ti pg v err Hvis Hfail) as [-> Hconflict].
    destruct (experiments_loop_ok ti pre _ _ Hndpre Hpre) as [Hout _].
    exists tr', pre, v, post. rewrite Hres. split_and!; [done| |done|done|done| |done|].
    + apply Hout. intros Hin. apply list_elem_of_fmap in Hin as (v0 & -> & Hv0).
      destruct (experiments_loop_decided ti pg pre _ _ v0 Hndpre Hallpre Hpre Hv0)
        as [Hagree _].
      rewrite (Hagree _ _ _ _ Hm Hm') in HE. done.
    + intros v0 Hv0.
      apply (experiments_loop_decided ti pg pre _ _ v0 Hndpre Hallpre Hpre Hv0).
    + intros v' Hv'. apply Hout. intros Hin. apply (Hdisj _ Hin).
      change (v_experiment v :: (v_experiment <$> post)) with (v_experiment <$> (v :: post)).
      by apply list_elem_of_fmap_2.
Qed.

(** ** Scenarios *)

Lemma range_intro {V} (l : list (string * V)) (m : gmap string V) :
  NoDup l.*1 → list_to_map l = m → l ≡ₚ map_to_list m.
Proof. intros Hnd <-. symmetry. by apply map_to_list_to_map. Qed.

Lemma keys_intro {V} (ks : list string) (m : gmap string V) :
  NoDup ks → (list_to_set ks : gset string) = dom m → ks ≡ₚ (map_to_list m).*1.
Proof.
  intros Hnd Hdom. apply NoDup_Permutation; [done|apply NoDup_fst_map_to_list|].
  intros k. rewrite <- (elem_of_list_to_set (C := gset string)), Hdom, elem_of_dom.
  rewrite list_elem_of_fmap. split.
  - intros [v Hv]. exists (k, v). split; [done|]. by apply elem_of_map_to_list.
  - intros ([k' v] & -> & Hin). apply elem_of_map_to_list in Hin. by eexists.
Qed.

Ltac by_compute := vm_compute; reflexivity.
Ltac nodup_compute := apply (bool_decide_unpack _); vm_compute; exact I.
Ltac range_compute := apply range_intro; [nodup_compute | by_compute].

(** Two hosts that both observe [proj-drift] and [proj-exp]: the merged page
    and a schedule of it that takes [proj-drift] first. *)
Lemma sample_two_jobs (d1 d2 x1 x2 : StateMatch) :
  merge_matches (page sample_manager)
    [sample_page "10.0.0.1" [("proj-drift", d1); ("proj-exp", x1)];
     sample_page "10.0.0.2" [("proj-drift", d2); ("proj-exp", x2)]]
  = (sample_merged [("proj-drift", d1); ("proj-exp", x1)]
                   [("proj-drift", d2); ("proj-exp", x2)], None)
  ∧ schedule_of
      (group_page (sample_merged [("proj-drift", d1); ("proj-exp", x1)]
                                 [("proj-drift", d2); ("proj-exp", x2)]))
      [sample_visit "proj-drift" d1 d2; sample_visit "proj-exp" x1 x2].
Proof.
  split; [by_compute|]. split.
  - apply keys_intro; [nodup_compute|by_compute].
  - repeat constructor.
    + exists {[ "10.0.0.1" := d1; "10.0.0.2" := d2 ]}.
      split_and!; [by_compute|range_compute|range_compute].
    + exists {[ "10.0.0.1" := x1; "10.0.0.2" := x2 ]}.
      split_and!; [by_compute|range_compute|range_compute].
Qed.

(** Two hosts that both observe [proj-exp] only. *)
Lemma sample_one_job (x1 x2 : StateMatch) :
  merge_matches (page sample_manager)
    [sample_page "10.0.0.1" [("proj-exp", x1)]; sample_page "10.0.0.2" [("proj-exp", x2)]]
  = (sample_merged [("proj-exp", x1)] [("proj-exp", x2)], None)
  ∧ schedule_of (group_page (sample_merged [("proj-exp", x1)] [("proj-exp", x2)]))
      [sample_visit "proj-exp" x1 x2].
Proof.
  split; [by_compute|]. split.
  - apply keys_intro; [nodup_compute|by_compute].
  - repeat constructor. exists {[ "10.0.0.1" := x1; "10.0.0.2" := x2 ]}.
    split_and!; [by_compute|range_compute|range_compute].
Qed.

Lemma sample_one_job_cells (x1 x2 : StateMatch) h e m :
  cell (sample_merged [("proj-exp", x1)] [("proj-exp", x2)]) h e = Some m ↔
  e = "proj-exp" ∧ (h = "10.0.0.1" ∧ m = x1 ∨ h = "10.0.0.2" ∧ m = x2).
Proof.
  unfold cell, sample_merged. simpl. rewrite bind_Some. split.
  - intros (row & Hrow & Hcell).
    apply lookup_insert_Some in Hrow as [[<- <-]|[_ Hrow]].
    + apply lookup_insert_Some in Hcell as [[<- <-]|[_ Hcell]]; [tauto|done].
    + apply lookup_singleton_Some in Hrow as [<- <-].
      apply lookup_insert_Some in Hcell as [[<- <-]|[_ Hcell]]; [tauto|done].
  - intros [-> [[-> ->]|[-> ->]]].
    + eexists. split; [apply lookup_insert_eq|]. apply lookup_insert_eq.
    + eexists. split; [by rewrite lookup_insert_ne, lookup_singleton_eq|].
      apply lookup_insert_eq.
Qed.

(** A conflict on one experiment leaves another one undecided: the two hosts
    disagree on the process count of [proj-drift]; they agree on [proj-exp]
    and both report exit code 1 for it; with [proj-drift] scheduled first
    the call returns the error and [proj-exp] is not in the restart table,
    whatever the state of the gob type registry. *)
Lemma conflict_leaves_other_job_undecided :
  let d8 := mkStateMatch Running 137 (sample_args "drift" 8) in
  let d4 := mkStateMatch Running 137 (sample_args "drift" 4) in
  let x := mkStateMatch Running 1 (sample_args "exp" 8) in
  let matches := [sample_page "10.0.0.1" [("proj-drift", d8); ("proj-exp", x)];
                  sample_page "10.0.0.2" [("proj-drift", d4); ("proj-exp", x)]] in
  let pg := sample_merged [("proj-drift", d8); ("proj-exp", x)]
                          [("proj-drift", d4); ("proj-exp", x)] in
  let sched := [sample_visit "proj-drift" d8 d4; sample_visit "proj-exp" x x] in
  merge_matches (page sample_manager) matches = (pg, None)
  ∧ schedule_of (group_page pg) sched
  ∧ cell pg "10.0.0.1" "proj-exp" = Some x
  ∧ cell pg "10.0.0.2" "proj-exp" = Some x
  ∧ ShouldRestart x = true
  ∧ ∀ ti, JoinLocalMatches ti sample_manager matches sched
          = (mkStateManager "10.0.0.1" pg (ism sample_manager) ∅,
             Some (ErrNew "run args are not equal")).
Proof.
  intros d8 d4 x matches pg sched.
  destruct (sample_two_jobs d8 d4 x x) as [Hmerge Hsched].
  split_and!; [done|done|by_compute..|].
  intros ti. rewrite (JoinLocalMatches_typeInfo ti sample_typeInfo).
  - by_compute.
  - repeat (constructor || split); by_compute.
Qed.

Lemma JoinLocalMatches_conflict_witness :
  let d8 := mkStateMatch Running 137 (sample_args "drift" 8) in
  let d4 := mkStateMatch Running 137 (sample_args "drift" 4) in
  let x := mkStateMatch Running 1 (sample_args "exp" 8) in
  let matches := [sample_page "10.0.0.1" [("proj-drift", d8); ("proj-exp", x)];
                  sample_page "10.0.0.2" [("proj-drift", d4); ("proj-exp", x)]] in
  let pg := sample_merged [("proj-drift", d8); ("proj-exp", x)]
                          [("proj-drift", d4); ("proj-exp", x)] in
  let sched := [sample_visit "proj-exp" x x; sample_visit "proj-drift" d8 d4] in
  ∃ tr' pre v post,
    JoinLocalMatches sample_typeInfo sample_manager matches sched
    = (mkStateManager "10.0.0.1" pg (ism sample_manager) tr',
       Some (ErrNew "run args are not equal"))
    ∧ tr' !! "proj-drift" = None
    ∧ sched = pre ++ v :: post
    ∧ experiments_loop sample_typeInfo pre ∅ = (tr', None)
    ∧ (∃ h1 h2 m1 m2,
         cell pg h1 (v_experiment v) = Some m1
         ∧ cell pg h2 (v_experiment v) = Some m2
         ∧ Equal sample_typeInfo (SM_RunArgs m1) (SM_RunArgs m2) = false)
    ∧ (∀ v0, v0 ∈ pre →
         (∀ h1 h2 m1 m2,
            cell pg h1 (v_experiment v0) = Some m1 →
            cell pg h2 (v_experiment v0) = Some m2 →
            Equal sample_typeInfo (SM_RunArgs m1) (SM_RunArgs m2) = true)
         ∧ ((∃ h1 m1, cell pg h1 (v_experiment v0) = Some m1 ∧ ShouldRestart m1 = true) →
              ∃ h1 m1, cell pg h1 (v_experiment v0) = Some m1
                       ∧ tr' !! v_experiment v0 = Some (SM_RunArgs m1))
         ∧ ((∀ h1 m1, cell pg h1 (v_experiment v0) = Some m1 → ShouldRestart m1 = false) →
              tr' !! v_experiment v0 = (∅ : gmap string RunArgs) !! v_experiment v0))
    ∧ (∀ e', e' ∉ v_experiment <$> pre → tr' !! e' = (∅ : gmap string RunArgs) !! e')
    ∧ (∀ v', v' ∈ v :: post →
         tr' !! v_experiment v' = (∅ : gmap string RunArgs) !! v_experiment v').
Proof.
  intros d8 d4 x matches pg sched.
  refine (JoinLocalMatches_conflict sample_typeInfo sample_manager matches sched pg
            "proj-drift" "10.0.0.1" "10.0.0.2" d8 d4 _ _ _ _ _).
  - exact (proj1 (sample_two_jobs d8 d4 x x)).
  - destruct (sample_two_jobs d8 d4 x x) as [_ [Hk Hv]]. split.
    + etrans; [|exact Hk]. apply perm_swap.
    + inversion_clear Hv as [|?? Hd Hv']. inversion_clear Hv' as [|?? Hx _].
      by repeat constructor.
  - by_compute.
  - by_compute.
  - by_compute.
Defined.

(** An experiment on which the hosts agree, and for which one host reports
    a crash, is not entered when another experiment is in conflict and is
    scheduled first: both hosts report the same arguments for [proj-exp],
    host 10.0.0.2 reports exit code 1 under Running, and the call returns
    the error with no entry for [proj-exp]. *)
Lemma agreed_job_not_entered_after_conflict :
  let d8 := mkStateMatch Running 137 (sample_args "drift" 8) in
  let d4 := mkStateMatch Running 137 (sample_args "drift" 4) in
  let live := mkStateMatch Running 137 (sample_args "exp" 8) in
  let crashed := mkStateMatch Running 1 (sample_args "exp" 8) in
  let matches := [sample_page "10.0.0.1" [("proj-drift", d8); ("proj-exp", live)];
                  sample_page "10.0.0.2" [("proj-drift", d4); ("proj-exp", crashed)]] in
  let pg := sample_merged [("proj-drift", d8); ("proj-exp", live)]
                          [("proj-drift", d4); ("proj-exp", crashed)] in
  let sched := [sample_visit "proj-drift" d8 d4; sample_visit "proj-exp" live crashed] in
  merge_matches (page sample_manager) matches = (pg, None)
  ∧ schedule_of (group_page pg) sched
  ∧ cell pg "10.0.0.1" "proj-exp" = Some live
  ∧ cell pg "10.0.0.2" "proj-exp" = Some crashed
  ∧ SM_RunArgs live = SM_RunArgs crashed
  ∧ ShouldRestart crashed = true
  ∧ ∀ ti, ∃ s' err,
      JoinLocalMatches ti sample_manager matches sched = (s', Some err)
      ∧ toRestart s' !! "proj-exp" = None.
Proof.
  intros d8 d4 live crashed matches pg sched.
  destruct (sample_two_jobs d8 d4 live crashed) as [Hmerge Hsched].
  split_and!; [done|done|by_compute..|].
  intros ti. rewrite (JoinLocalMatches_typeInfo ti sample_typeInfo).
  - eexists _, _. split; by_compute.
  - repeat (constructor || split); by_compute.
Qed.

Lemma sample_one_job_no_conflict ti (x1 x2 : StateMatch) :
  SM_RunArgs x1 = SM_RunArgs x2 →
  no_conflict ti (sample_merged [("proj-exp", x1)] [("proj-exp", x2)]).
Proof.
  intros Hargs e h h' m m' Hm Hm'.
  apply sample_one_job_cells in Hm as [_ [[_ ->]|[_ ->]]],
                                  Hm' as [_ [[_ ->]|[_ ->]]];
    rewrite ?Hargs; apply Equal_refl.
Qed.

Lemma JoinLocalMatches_decides_witness :
  let live := mkStateMatch Running 137 (sample_args "exp" 8) in
  let crashed := mkStateMatch Running 1 (sample_args "exp" 8) in
  let matches := [sample_page "10.0.0.1" [("proj-exp", live)];
                  sample_page "10.0.0.2" [("proj-exp", crashed)]] in
  let pg := sample_merged [("proj-exp", live)] [("proj-exp", crashed)] in
  let sched := [sample_visit "proj-exp" live crashed] in
  ∃ tr',
    JoinLocalMatches sample_typeInfo sample_manager matches sched
    = (mkStateManager "10.0.0.1" pg (ism sample_manager) tr', None)
    ∧ ∀ e,
        ((∃ h m, cell pg h e = Some m ∧ ShouldRestart m = true) →
           ∃ h m, cell pg h e = Some m ∧ tr' !! e = Some (SM_RunArgs m))
        ∧ ((∀ h m, cell pg h e = Some m → ShouldRestart m = false) →
             tr' !! e = (∅ : gmap string RunArgs) !! e)
        ∧ ((∅ : gmap string RunArgs) !! e = None →
             (is_Some (tr' !! e) ↔ ∃ h m, cell pg h e = Some m ∧ ShouldRestart m = true)).
Proof.
  intros live crashed matches pg sched.
  refine (JoinLocalMatches_decides sample_typeInfo sample_manager matches sched pg _ _ _).
  - exact (proj1 (sample_one_job live crashed)).
  - exact (proj2 (sample_one_job live crashed)).
  - by apply sample_one_job_no_conflict.
Defined.

(** The first end-to-end scenario: host 10.0.0.1 reports 137 and host
    10.0.0.2 reports 1 for [proj-exp] under Running.  In every order of the
    third loop the restart table is exactly [proj-exp] with the job's
    arguments. *)
Example one_crashed_host_restarts_job ti sched :
  let live := mkStateMatch Running 137 (sample_args "exp" 8) in
  let crashed := mkStateMatch Running 1 (sample_args "exp" 8) in
  let pg := sample_merged [("proj-exp", live)] [("proj-exp", crashed)] in
  schedule_of (group_page pg) sched →
  JoinLocalMatches ti sample_manager
    [sample_page "10.0.0.1" [("proj-exp", live)]; sample_page "10.0.0.2" [("proj-exp", crashed)]]
    sched
  = (mkStateManager "10.0.0.1" pg (ism sample_manager) {[ "proj-exp" := sample_args "exp" 8 ]},
     None).
Proof.
  intros live crashed pg Hsched.
  unfold JoinLocalMatches. rewrite (proj1 (sample_one_job live crashed)).
  destruct (experiments_loop_no_conflict ti pg sched (toRestart sample_manager) Hsched
              (sample_one_job_no_conflict ti live crashed eq_refl)) as [tr' Hok].
  rewrite Hok. do 2 f_equal. apply map_eq. intros e.
  destruct (experiments_loop_entry ti pg sched _ _ e Hsched Hok) as [Hyes Hno].
  destruct (decide (e = "proj-exp")) as [->|Hne].
  - rewrite lookup_singleton_eq. destruct Hyes as (h & m & Hc & ->).
    { exists "10.0.0.2", crashed. split; by_compute. }
    by apply sample_one_job_cells in Hc as [_ [[_ ->]|[_ ->]]].
  - rewrite lookup_singleton_ne by done. rewrite Hno; [done|].
    by intros h m [? _]%sample_one_job_cells.
Qed.

(** The second scenario: both hosts report 137.  The restart table stays
    empty. *)
Example both_live_restart_set_empty ti sched :
  let live := mkStateMatch Running 137 (sample_args "exp" 8) in
  let pg := sample_merged [("proj-exp", live)] [("proj-exp", live)] in
  schedule_of (group_page pg) sched →
  JoinLocalMatches ti sample_manager
    [sample_page "10.0.0.1" [("proj-exp", live)]; sample_page "10.0.0.2" [("proj-exp", live)]]
    sched
  = (mkStateManager "10.0.0.1" pg (ism sample_manager) ∅, None).
Proof.
  intros live pg Hsched.
  unfold JoinLocalMatches. rewrite (proj1 (sample_one_job live live)).
  destruct (experiments_loop_no_conflict ti pg sched (toRestart sample_manager) Hsched
              (sample_one_job_no_conflict ti live live eq_refl)) as [tr' Hok].
  rewrite Hok. do 2 f_equal. apply map_eq. intros e.
  destruct (experiments_loop_entry ti pg sched _ _ e Hsched Hok) as [_ Hno].
  rewrite Hno; [done|].
  by intros h m [_ [[_ ->]|[_ ->]]]%sample_one_job_cells.
Qed.

(** ** Decoding what [encodeUint] writes *)

Lemma Z_of_byte_of_Z x : Gob.Z_of_byte (Gob.byte_of_Z x) = x mod 256.
Proof.
  unfold Gob.Z_of_byte, Gob.byte_of_Z.
  pose proof (Z.mod_pos_bound x 256 eq_refl) as Hb.
  destruct (Byte.of_N (Z.to_N (x mod 256))) as [b|] eqn:E.
  - apply Byte.to_of_N in E. simpl. rewrite E. lia.
  - apply Byte.of_N_None_iff in E. lia.
Qed.

Lemma be_value_app l1 l2 :
  Gob.be_value (l1 ++ l2) = Gob.be_value l1 * 256 ^ Z.of_nat (length l2) + Gob.be_value l2.
Proof.
  unfold Gob.be_value. revert l1. induction l2 as [|b l2 IH] using rev_ind; intros l1.
  - rewrite app_nil_r. simpl. lia.
  - rewrite app_assoc, !foldl_snoc, IH, length_app. simpl length.
    rewrite Nat2Z.inj_add, Z.pow_add_r by lia. simpl Z.of_nat. lia.
Qed.

Lemma be_value_cons b l :
  Gob.be_value (b :: l) = Gob.Z_of_byte b * 256 ^ Z.of_nat (length l) + Gob.be_value l.
Proof.
  change (b :: l) with ([b] ++ l). rewrite be_value_app.
  unfold Gob.be_value at 1. simpl. lia.
Qed.

Lemma be_value_digits (n : nat) x :
  0 ≤ x →
  Gob.be_value ((λ k, Gob.byte_of_Z (Z.shiftr x (8 * k))) <$> reverse (seqZ 0 (Z.of_nat n)))
  = x mod 256 ^ Z.of_nat n.
Proof.
  intros Hx. induction n as [|n IH].
  - simpl. by rewrite Z.mod_1_r.
  - rewrite seqZ_S, reverse_snoc, fmap_cons.
    rewrite be_value_cons, IH.
    rewrite length_fmap, length_reverse, length_seqZ, Z2Nat.id by lia.
    rewrite Z_of_byte_of_Z.
    rewrite Z.shiftr_div_pow2 by lia.
    rewrite Z.add_0_l. replace (2 ^ (8 * Z.of_nat n)) with (256 ^ Z.of_nat n).
    2:{ rewrite Z.pow_mul_r by lia. done. }
    rewrite Nat2Z.inj_succ, Z.pow_succ_r by lia.
    rewrite (Z.mul_comm 256). rewrite Z.rem_mul_r by lia. lia.
Qed.

Lemma drop_indices (k : nat) :
  (k ≤ 8)%nat →
  drop k [7; 6; 5; 4; 3; 2; 1; 0] = reverse (seqZ 0 (Z.of_nat (8 - k))).
Proof.
  intros Hk. do 9 (destruct k as [|k]; [reflexivity|]). lia.
Qed.

Lemma decodeUint_encodeUint x r :
  0 ≤ x < 2 ^ 64 → Gob.decodeUint (Gob.encodeUint x ++ r) = Some (x, r).
Proof.
  intros Hx. unfold Gob.encodeUint. destruct (Z.leb_spec x 127) as [Hs|Hl].
  - simpl. rewrite Z_of_byte_of_Z, Z.mod_small by lia.
    by destruct (Z.leb_spec x 127); [|lia].
  - set (bc := Z.shiftr (Gob.LeadingZeros64 x) 3).
    assert (0 ≤ bc ≤ 7 ∧ x < 2 ^ (8 * (8 - bc))) as [Hbc Hlt].
    { subst bc. unfold Gob.LeadingZeros64. rewrite decide_False by lia.
      rewrite Z.shiftr_div_pow2 by lia. change (2 ^ 3) with 8.
      assert (7 ≤ Z.log2 x) by (apply Z.log2_le_pow2; lia).
      assert (Z.log2 x < 64) by (apply Z.log2_lt_pow2; lia).
      pose proof (Z.div_mod (63 - Z.log2 x) 8 ltac:(lia)) as Hdm.
      pose proof (Z.mod_pos_bound (63 - Z.log2 x) 8 ltac:(lia)) as Hmb.
      split; [lia|]. apply Z.log2_lt_pow2; lia. }
    simpl. rewrite Z_of_byte_of_Z.
    replace ((bc - Gob.uint64Size) mod 256) with (248 + bc).
    2:{ unfold Gob.uint64Size. apply (Z.mod_unique_pos _ _ (-1)); lia. }
    destruct (Z.leb_spec (248 + bc) 127); [lia|].
    replace (256 - (248 + bc)) with (8 - bc) by lia.
    assert (length (drop (Z.to_nat bc) (Gob.PutUint64 x)) = Z.to_nat (8 - bc)) as Hlen.
    { rewrite length_drop. unfold Gob.PutUint64. rewrite length_fmap. simpl. lia. }
    rewrite take_app_length', drop_app_length' by done.
    do 2 f_equal. unfold Gob.PutUint64. rewrite <- fmap_drop.
    rewrite drop_indices by lia. rewrite be_value_digits by lia.
    apply Z.mod_small. split; [lia|].
    replace (256 ^ Z.of_nat (8 - Z.to_nat bc)) with (2 ^ (8 * (8 - bc))); [done|].
    rewrite Z.pow_mul_r by lia. f_equal. lia.
Qed.

(** [encodeUint] can be read back: what follows the number is found again. *)
Lemma encodeUint_inj x y r r' :
  0 ≤ x < 2 ^ 64 → 0 ≤ y < 2 ^ 64 →
  Gob.encodeUint x ++ r = Gob.encodeUint y ++ r' → x = y ∧ r = r'.
Proof.
  intros Hx Hy Heq. apply (f_equal Gob.decodeUint) in Heq.
  rewrite !decodeUint_encodeUint in Heq by done. by injection Heq.
Qed.

Lemma lor_double_1 a : 0 ≤ a → Z.lor (2 * a) 1 = 2 * a + 1.
Proof. intros Ha. destruct a as [|p|p]; [done|done|lia]. Qed.

Lemma encodeInt_inj i j r r' :
  is_int64 i → is_int64 j →
  Gob.encodeInt i ++ r = Gob.encodeInt j ++ r' → i = j ∧ r = r'.
Proof.
  unfold is_int64, Gob.encodeInt. intros Hi Hj.
  assert (∀ k, - 2 ^ 63 ≤ k < 0 →
            Z.lor (Z.shiftl (Z.lnot k) 1 mod 2 ^ 64) 1 = 2 * (- k - 1) + 1) as Hneg.
  { intros k Hk. rewrite Z.shiftl_mul_pow2 by lia. unfold Z.lnot.
    rewrite Z.mod_small by lia.
    replace (Z.pred (- k) * 2 ^ 1) with (2 * (- k - 1)) by lia.
    apply lor_double_1. lia. }
  assert (∀ k, 0 ≤ k < 2 ^ 63 → Z.shiftl k 1 mod 2 ^ 64 = 2 * k) as Hpos.
  { intros k Hk. rewrite Z.shiftl_mul_pow2 by lia. rewrite Z.mod_small; lia. }
  destruct (Z.ltb_spec i 0), (Z.ltb_spec j 0);
    rewrite ?Hneg, ?Hpos by lia; intros [Hu Hr]%encodeUint_inj; (split; [lia|done]) || lia.
Qed.

(** ** Strings, slices and fields *)

Lemma list_byte_of_string_length s :
  length (String.list_byte_of_string s) = String.length s.
Proof.
  unfold String.list_byte_of_string. rewrite length_map.
  induction s; simpl; congruence.
Qed.

Lemma list_byte_of_string_inj s s' :
  String.list_byte_of_string s = String.list_byte_of_string s' → s = s'.
Proof.
  intros H. apply (f_equal String.string_of_list_byte) in H.
  by rewrite !String.string_of_list_byte_of_string in H.
Qed.

Lemma string_ok_range s : string_ok s → 0 ≤ Z.of_nat (String.length s) < 2 ^ 64.
Proof. unfold string_ok. lia. Qed.

Lemma encodeString_inj s s' r r' :
  string_ok s → string_ok s' →
  Gob.encodeString s ++ r = Gob.encodeString s' ++ r' → s = s' ∧ r = r'.
Proof.
  intros Hs Hs'. unfold Gob.encodeString. rewrite <- !app_assoc.
  intros [Hlen Hrest]%encodeUint_inj; [|by apply string_ok_range..].
  apply app_inj_1 in Hrest as [Hb Hr].
  - split; [by apply list_byte_of_string_inj|done].
  - rewrite !list_byte_of_string_length. lia.
Qed.

Lemma encodeStrings_inj l l' r r' :
  length l = length l' → Forall string_ok l → Forall string_ok l' →
  concat (Gob.encodeString <$> l) ++ r = concat (Gob.encodeString <$> l') ++ r' →
  l = l' ∧ r = r'.
Proof.
  revert l'. induction l as [|s l IH]; intros [|s' l'] Hlen Hl Hl'; simplify_eq/=; [done|].
  inversion_clear Hl as [|?? Hs Hl0]. inversion_clear Hl' as [|?? Hs' Hl0'].
  rewrite <- !app_assoc. intros [-> Hrest]%encodeString_inj; [|done..].
  apply IH in Hrest as [-> ->]; done.
Qed.

Lemma encodeArray_inj l l' r r' :
  strings_ok l → strings_ok l' →
  Gob.encodeArray l ++ r = Gob.encodeArray l' ++ r' → l = l' ∧ r = r'.
Proof.
  intros [Hn Hl] [Hn' Hl']. unfold Gob.encodeArray. rewrite <- !app_assoc.
  intros [Hlen Hrest]%encodeUint_inj; [|lia..].
  apply encodeStrings_inj in Hrest; [done|lia|done..].
Qed.

Lemma length_0_empty s : String.length s = 0%nat → s = "".
Proof. by destruct s. Qed.

Lemma field_bytes_inj f f' bs bs' r r' :
  same_kind f f' → field_ok f → field_ok f' →
  Gob.field_bytes f = Some bs → Gob.field_bytes f' = Some bs' →
  bs ++ r = bs' ++ r' → field_equiv f f' ∧ r = r'.
Proof.
  destruct f as [s|i|l|[s|]], f' as [s'|i'|l'|[s'|]]; simpl; try done;
    intros _ Hok Hok'; repeat case_decide; intros; simplify_eq;
    try (exfalso; simpl in *; lia).
  - by apply encodeString_inj.
  - by apply encodeInt_inj.
  - by apply encodeArray_inj.
  - match goal with
    | H : _ ++ _ = _ ++ _ |- _ => apply encodeString_inj in H as [-> ->]; done
    end.
Qed.

Lemma field_bytes_None_equiv f f' :
  same_kind f f' → Gob.field_bytes f = None → Gob.field_bytes f' = None → field_equiv f f'.
Proof.
  assert (∀ s, ¬ (0 < String.length s)%nat → s = "") as Hempty.
  { intros s Hs. apply length_0_empty. lia. }
  destruct f as [s|i|l|[s|]], f' as [s'|i'|l'|[s'|]]; simpl; try done; intros _;
    repeat case_decide; intros; simplify_eq; try done;
    repeat match goal with
           | H : ¬ (0 < String.length ?s)%nat |- _ => apply Hempty in H; subst
           | H : length ?l = 0%nat |- _ => apply nil_length_inv in H; subst
           end; try done; try lia.
Qed.

Lemma field_equiv_bytes f f' :
  field_equiv f f' → Gob.field_bytes f = Gob.field_bytes f'.
Proof.
  destruct f as [s|i|l|[s|]], f' as [s'|i'|l'|[s'|]]; simpl; try done;
    try (by intros ->);
    repeat case_decide; intros; simplify_eq; try done;
    simpl in *; try lia;
    repeat match goal with
           | H : ¬ (0 < String.length ?s)%nat |- _ => destruct s; [done|simpl in H; lia]
           end.
Qed.

(** ** The struct *)

(** What [encodeStruct_from] writes starts with a field number delta: zero
    at the end of the struct, or the distance to a field from [j] on. *)
Lemma encodeStruct_from_head fs fn j :
  ∃ d tail,
    Gob.encodeStruct_from fn j fs = Gob.encodeUint d ++ tail
    ∧ (d = 0 ∨ j - fn ≤ d < j - fn + Z.of_nat (length fs)).
Proof.
  revert j. induction fs as [|f fs IH]; intros j; simpl.
  - exists 0, []. split; [by rewrite app_nil_r|by left].
  - destruct (Gob.field_bytes f) as [bs|].
    + eexists _, _. split; [done|]. right. lia.
    + destruct (IH (j + 1)) as (d & tail & -> & Hd).
      exists d, tail. split; [done|]. lia.
Qed.

Lemma encodeStruct_from_inj fs fs' :
  Forall2 same_kind fs fs' → Forall field_ok fs → Forall field_ok fs' →
  ∀ fn i r r',
    0 < i - fn → i - fn + Z.of_nat (length fs) < 2 ^ 64 →
    Gob.encodeStruct_from fn i fs ++ r = Gob.encodeStruct_from fn i fs' ++ r' →
    Forall2 field_equiv fs fs'.
Proof.
  induction 1 as [|f f' fs fs' Hk Hks IH]; intros Hok Hok' fn i r r' Hi Hlen; [done|].
  inversion_clear Hok as [|?? Hf Hfs]. inversion_clear Hok' as [|?? Hf' Hfs'].
  pose proof (Forall2_length _ _ _ Hks) as Hl.
  simpl in Hlen |- *.
  destruct (Gob.field_bytes f) as [bs|] eqn:Eb, (Gob.field_bytes f') as [bs'|] eqn:Eb'.
  - rewrite <- !app_assoc. intros [_ Hrest]%encodeUint_inj; [|lia..].
    destruct (field_bytes_inj f f' bs bs' _ _ Hk Hf Hf' Eb Eb' Hrest) as [He Hrest'].
    constructor; [done|]. apply (IH Hfs Hfs' i (i + 1) r r'); [lia|lia|done].
  - destruct (encodeStruct_from_head fs' fn (i + 1)) as (d & tail & -> & Hd).
    rewrite <- !app_assoc. intros [Hd' _]%encodeUint_inj; lia.
  - destruct (encodeStruct_from_head fs fn (i + 1)) as (d & tail & -> & Hd).
    rewrite <- !app_assoc. intros [Hd' _]%encodeUint_inj; lia.
  - intros Hrest. constructor; [by apply field_bytes_None_equiv|].
    apply (IH Hfs Hfs' fn (i + 1) r r'); [lia|lia|done].
Qed.

Lemma encodeStruct_from_equiv fs fs' fn i :
  Forall2 field_equiv fs fs' →
  Gob.encodeStruct_from fn i fs = Gob.encodeStruct_from fn i fs'.
Proof.
  intros H. revert fn i. induction H as [|f f' fs fs' Hf _ IH]; intros fn i; simpl; [done|].
  rewrite (field_equiv_bytes f f' Hf). destruct (Gob.field_bytes f'); by rewrite IH.
Qed.

Lemma RunArgs_fields_equiv a b :
  Forall2 field_equiv (RunArgs_fields a) (RunArgs_fields b) ↔ same_fields a b.
Proof.
  unfold RunArgs_fields, same_fields. rewrite !Forall2_cons, Forall2_nil. simpl. tauto.
Qed.

Lemma RunArgs_fields_kind a b : Forall2 same_kind (RunArgs_fields a) (RunArgs_fields b).
Proof. repeat constructor. Qed.

(** [Equal] holds exactly for arguments with the same fields, where a nil
    optional field and one that points to the empty string count as the
    same. *)
Lemma Equal_same_fields ti a b :
  RunArgs_ok a → RunArgs_ok b → encodable a → encodable b →
  (Equal ti a b = true ↔ same_fields a b).
Proof.
  intros Ha Hb Hea Heb.
  rewrite Equal_struct, bool_decide_eq_true, <- RunArgs_fields_equiv by done.
  unfold Gob.encodeStruct. split.
  - intros Heq. apply (encodeStruct_from_inj _ _ (RunArgs_fields_kind a b) Ha Hb (-1) 0 [] []).
    + lia.
    + simpl. lia.
    + by rewrite Heq.
  - apply encodeStruct_from_equiv.
Qed.

(** C9, amended. For arguments that a Go program can hold and whose
    encoding stays below the size limit of a gob message, [Equal] holds if
    and only if every field of the one matches the field of the other: the
    strings and the numbers exactly, the list fields element by element in
    order, and the optional fields exactly except that a nil field and a
    field that points to the empty string are not told apart.  So a change
    of a field makes [Equal] false unless it only swaps nil and the empty
    string in an optional field. *)
Theorem Equal_spec ti a b :
  RunArgs_ok a → RunArgs_ok b → encodable a → encodable b →
  (Equal ti a b = true ↔ same_fields a b)
  ∧ (Equal ti a b = false ↔ ¬ same_fields a b).
Proof.
  intros Ha Hb Hea Heb. pose proof (Equal_same_fields ti a b Ha Hb Hea Heb) as Hiff.
  split; [done|]. rewrite <- Hiff. by destruct (Equal ti a b).
Qed.

Ltac runargs_ok :=
  repeat constructor; simpl; unfold string_ok, is_int64; simpl; lia.

Lemma Equal_spec_witness :
  (Equal sample_typeInfo (sample_args "exp" 8) (sample_args "exp" 4) = true
   ↔ same_fields (sample_args "exp" 8) (sample_args "exp" 4))
  ∧ (Equal sample_typeInfo (sample_args "exp" 8) (sample_args "exp" 4) = false
     ↔ ¬ same_fields (sample_args "exp" 8) (sample_args "exp" 4)).
Proof.
  apply (Equal_spec sample_typeInfo (sample_args "exp" 8) (sample_args "exp" 4)).
  - runargs_ok.
  - runargs_ok.
  - by_compute.
  - by_compute.
Defined.

(** Two arguments that differ in one optional field, nil in the one and a
    pointer to the empty string in the other, are [Equal], whatever the
    state of the gob type registry: both encodings leave the field out. *)
Lemma Equal_nil_and_empty_pointer :
  let a := mkRunArgs "proj" ["10.0.0.1"; "10.0.0.2"] 8 "exp" 29500 "run" 0
             ["hf_action_restartable=running"] None None None in
  let b := mkRunArgs "proj" ["10.0.0.1"; "10.0.0.2"] 8 "exp" 29500 "run" 0
             ["hf_action_restartable=running"] (Some "") None None in
  ContainerName a = None
  ∧ ContainerName b = Some ""
  ∧ a ≠ b
  ∧ RunArgs_ok a ∧ RunArgs_ok b
  ∧ encodable a ∧ encodable b
  ∧ ∀ ti, Equal ti a b = true.
Proof.
  intros a b.
  split_and!; [done|done|discriminate|runargs_ok|runargs_ok|by_compute|by_compute|].
  intros ti. rewrite Equal_struct; by_compute.
Qed.

(** * Further properties of the code *)

(** ** Splitting and joining *)

Lemma Split_count s c : length (GoStrings.Split s c) = S (count_byte c s).
Proof.
  induction s as [|d s IH]; simpl; [done|].
  destruct (Ascii.eqb d c); simpl; [by rewrite IH|].
  destruct (GoStrings.Split s c) eqn:E; [by apply Split_nonempty in E|].
  simpl in *. lia.
Qed.

Lemma Split_app_nosep a b c :
  count_byte c a = 0%nat →
  GoStrings.Split (a +:+ String c b) c = a :: GoStrings.Split b c.
Proof.
  induction a as [|d a IH]; simpl.
  - intros _. change ("" +:+ String c b) with (String c b). simpl.
    by rewrite Ascii.eqb_refl.
  - change (String d a +:+ String c b) with (String d (a +:+ String c b)).
    simpl. destruct (Ascii.eqb d c) eqn:E; simpl; [done|]. intros Ha.
    by rewrite IH.
Qed.

Lemma Split_nosep a c : count_byte c a = 0%nat → GoStrings.Split a c = [a].
Proof.
  induction a as [|d a IH]; simpl; [done|].
  destruct (Ascii.eqb d c) eqn:E; simpl; [done|]. intros Ha. by rewrite IH.
Qed.

Lemma Join_cons x y l sep :
  GoStrings.Join (x :: y :: l) sep = x +:+ sep +:+ GoStrings.Join (y :: l) sep.
Proof. done. Qed.

Lemma Join_Split s c : GoStrings.Join (GoStrings.Split s c) (String c "") = s.
Proof.
  induction s as [|d s IH]; [done|]. simpl.
  destruct (GoStrings.Split s c) as [|x l] eqn:E; [by apply Split_nonempty in E|].
  destruct (Ascii.eqb d c) eqn:Ed.
  - apply Ascii.eqb_eq in Ed as ->. rewrite Join_cons, IH. done.
  - destruct l as [|y l].
    + simpl in *. by rewrite IH.
    + rewrite Join_cons in IH. rewrite Join_cons. rewrite <- IH. done.
Qed.

Lemma length_app_string a b :
  String.length (a +:+ b) = (String.length a + String.length b)%nat.
Proof. induction a as [|d a IH]; simpl; [done|]. by rewrite <- IH. Qed.

Lemma length_substring_0 k s :
  (k ≤ String.length s)%nat → String.length (String.substring 0 k s) = k.
Proof.
  revert s. induction k as [|k IH]; intros [|d s]; simpl; try done; try lia.
  intros Hk. rewrite IH; [done|lia].
Qed.

Lemma slice_to_Ret s n r :
  slice_to s n = Ret r → Z.of_nat (String.length r) = n ∧ 0 ≤ n ≤ Z.of_nat (String.length s).
Proof.
  unfold slice_to. case_decide as Hn; [|done]. intros [= <-].
  rewrite length_substring_0 by lia. lia.
Qed.

(** ** Trimming a path for display *)

Lemma trimPathForLength_cut_Ret path n r :
  trimPathForLength_cut path n = Ret r → Z.of_nat (String.length r) ≤ n + 3.
Proof.
  unfold trimPathForLength_cut. cbv zeta. case_decide as Hs.
  - intros Hr%slice_to_Ret. lia.
  - match goal with
    | |- context [Z.of_nat (String.length ?p) <? n] =>
        destruct (Z.ltb_spec (Z.of_nat (String.length p)) n) as [Hlt|Hge2];
        [intros [= <-]; lia|];
        destruct (slice_to p n) as [cut| |] eqn:Hcut; simpl; try done
    end.
    intros [= <-]. apply slice_to_Ret in Hcut.
    rewrite length_app_string. simpl. lia.
Qed.

(** The second part never panics when the path has [length] bytes or more,
    and with a separator inside it never panics at all. *)
Lemma trimPathForLength_cut_Panic path n msg :
  0 ≤ n →
  trimPathForLength_cut path n = Panic msg →
  count_byte "/" path = 0%nat ∧ Z.of_nat (String.length path) < n.
Proof.
  intros Hn. unfold trimPathForLength_cut. cbv zeta. rewrite Split_count.
  case_decide as Hs.
  - unfold slice_to. case_decide; [done|]. intros _. lia.
  - match goal with
    | |- context [Z.of_nat (String.length ?p) <? n] =>
        destruct (Z.ltb_spec (Z.of_nat (String.length p)) n) as [Hlt|Hge2]; [done|];
        unfold slice_to; rewrite decide_True by lia; done
    end.
Qed.

(** X1. When [trimPathForLength] returns, the result has at most [length + 3]
    bytes: the path itself when it is shorter than [length], and otherwise at
    most [length] bytes of it and the three dots. *)
Theorem trimPathForLength_bound path n r :
  trimPathForLength path n = Ret r →
  Z.of_nat (String.length r) ≤ n + 3
  ∧ (Z.of_nat (String.length path) < n → r = path).
Proof.
  unfold trimPathForLength.
  destruct (Z.ltb_spec (Z.of_nat (String.length path)) n) as [Hlt|Hge].
  { intros [= <-]. split; [lia|done]. }
  intros Hr. split; [|lia].
  destruct path as [|c rest]; [done|].
  destruct (Ascii.eqb c "/"); by apply trimPathForLength_cut_Ret in Hr.
Qed.

Lemma trimPathForLength_bound_witness :
  Z.of_nat (String.length "~/.cache/h...") ≤ 10 + 3
  ∧ (Z.of_nat (String.length "/home/user/.cache/higgsfield") < 10
     → "~/.cache/h..." = "/home/user/.cache/higgsfield").
Proof.
  apply (trimPathForLength_bound "/home/user/.cache/higgsfield" 10 "~/.cache/h...").
  reflexivity.
Defined.

(** X2. For a positive [length], [trimPathForLength] panics exactly on a path of
    [length] bytes that starts with a separator and holds no other one: the
    separator is cut off, and the slice of [length] bytes then reaches past
    the end. *)
Theorem trimPathForLength_panics path n :
  0 < n →
  (∃ msg, trimPathForLength path n = Panic msg) ↔
  ∃ rest, path = String "/" rest
          ∧ Z.of_nat (String.length path) = n
          ∧ count_byte "/" rest = 0%nat.
Proof.
  intros Hn. unfold trimPathForLength.
  destruct (Z.ltb_spec (Z.of_nat (String.length path)) n) as [Hlt|Hge].
  { split; [by intros [? ?]|]. intros (rest & _ & Hlen & _). lia. }
  destruct path as [|c rest]; [simpl in Hge; lia|].
  simpl String.length in *.
  destruct (Ascii.eqb c "/") eqn:Hc.
  - apply Ascii.eqb_eq in Hc as ->. split.
    + intros [msg Hm]. apply trimPathForLength_cut_Panic in Hm as [Hcnt Hlen]; [|lia].
      exists rest. split_and!; [done|lia|done].
    + intros (rest' & [= <-] & Hlen & Hcnt).
      unfold trimPathForLength_cut. cbv zeta. rewrite Split_count, Hcnt.
      rewrite decide_True by lia. unfold slice_to. rewrite decide_False by lia. by eexists.
  - split.
    + intros [msg Hm]. apply trimPathForLength_cut_Panic in Hm as [_ Hlen]; [|lia].
      simpl String.length in Hlen. lia.
    + intros (rest' & [= -> _] & _). by rewrite Ascii.eqb_refl in Hc.
Qed.

Lemma trimPathForLength_panics_witness :
  (∃ msg, trimPathForLength "/data" 5 = Panic msg) ↔
  ∃ rest, "/data" = String "/" rest
          ∧ Z.of_nat (String.length "/data") = 5
          ∧ count_byte "/" rest = 0%nat.
Proof. apply (trimPathForLength_panics "/data" 5). lia. Defined.

(** X3. A long path under a home directory is shown from the home directory on:
    [/home/<user>/<rest>] becomes [~/<rest>], cut to [length] bytes and
    followed by three dots when it still has [length] bytes or more. *)
Theorem trimPathForLength_home user rest n :
  count_byte "/" user = 0%nat →
  0 ≤ n ≤ Z.of_nat (String.length ("/home/" +:+ user +:+ "/" +:+ rest)) →
  trimPathForLength ("/home/" +:+ user +:+ "/" +:+ rest) n
  = if Z.of_nat (String.length ("~/" +:+ rest)) <? n then Ret ("~/" +:+ rest)
    else Ret (String.substring 0 (Z.to_nat n) ("~/" +:+ rest) +:+ "...").
Proof.
  intros Huser Hn. unfold trimPathForLength.
  destruct (Z.ltb_spec (Z.of_nat (String.length ("/home/" +:+ user +:+ "/" +:+ rest))) n);
    [lia|].
  change ("/home/" +:+ user +:+ "/" +:+ rest)
    with (String "/" ("home" +:+ String "/" (user +:+ String "/" rest))).
  cbv beta iota. rewrite Ascii.eqb_refl. unfold trimPathForLength_cut. cbv zeta.
  rewrite (Split_app_nosep "home") by done. rewrite Split_app_nosep by done.
  rewrite decide_False by (simpl length; lia).
  rewrite decide_True by done. simpl drop. rewrite drop_0, Join_Split.
  destruct (Z.ltb_spec (Z.of_nat (String.length ("~/" +:+ rest))) n); [done|].
  unfold slice_to. rewrite decide_True by lia. done.
Qed.

Lemma trimPathForLength_home_witness :
  trimPathForLength ("/home/" +:+ "user" +:+ "/" +:+ ".cache/higgsfield") 10
  = if Z.of_nat (String.length ("~/" +:+ ".cache/higgsfield")) <? 10
    then Ret ("~/" +:+ ".cache/higgsfield")
    else Ret (String.substring 0 (Z.to_nat 10) ("~/" +:+ ".cache/higgsfield") +:+ "...").
Proof.
  apply (trimPathForLength_home "user" ".cache/higgsfield" 10).
  - reflexivity.
  - simpl. lia.
Defined.

(** ** Joining maps *)

Lemma map_fold_insert_union `{Countable K} {V} (acc m : gmap K V) :
  map_fold (λ k v acc, <[k := v]> acc) acc m = m ∪ acc.
Proof.
  apply (map_fold_weak_ind (λ r m, r = m ∪ acc)).
  - by rewrite (left_id_L ∅ (∪)).
  - intros i x m' r _ ->. by rewrite insert_union_l.
Qed.

Lemma MapJoin_snoc `{Countable K} {V} (maps : list (gmap K V)) m :
  MapJoin (maps ++ [m]) = m ∪ MapJoin maps.
Proof. unfold MapJoin. by rewrite foldl_snoc, map_fold_insert_union. Qed.

(** X4. [MapJoin] is the union of the maps in which a later map takes
    precedence: a key has the value of the last map of the list that holds
    it, and is absent when no map holds it. *)
Theorem MapJoin_last_wins `{Countable K} {V} (maps : list (gmap K V)) (k : K) :
  MapJoin maps = ⋃ reverse maps
  ∧ (∀ pre m post v,
       maps = pre ++ m :: post → m !! k = Some v →
       Forall (λ m', m' !! k = None) post → MapJoin maps !! k = Some v)
  ∧ (Forall (λ m, m !! k = None) maps → MapJoin maps !! k = None).
Proof.
  assert (∀ l : list (gmap K V), MapJoin l = ⋃ reverse l) as Hunion.
  { induction l as [|m l IH] using rev_ind; [done|].
    by rewrite MapJoin_snoc, reverse_snoc, IH. }
  assert (∀ l : list (gmap K V), Forall (λ m, m !! k = None) l → MapJoin l !! k = None)
    as Hnone.
  { induction l as [|m l IH] using rev_ind; [done|].
    intros [Hl Hm]%Forall_app. inversion_clear Hm as [|?? Hk _].
    rewrite MapJoin_snoc, lookup_union, Hk, (left_id_L None _). by apply IH. }
  split_and!; [apply Hunion| |apply Hnone].
  intros pre m post v -> Hm Hpost. revert Hpost.
  induction post as [|m' post IH] using rev_ind; intros Hpost.
  - rewrite MapJoin_snoc, lookup_union, Hm. by destruct (MapJoin pre !! k).
  - apply Forall_app in Hpost as [Hpost Hm']. inversion_clear Hm' as [|?? Hk _].
    replace (pre ++ m :: post ++ [m']) with ((pre ++ m :: post) ++ [m'])
      by (by rewrite <- app_assoc).
    rewrite MapJoin_snoc, lookup_union, Hk, (left_id_L None _). by apply IH.
Qed.

(** ** The table of the store *)

Lemma GetState_found order projectName experimentName st :
  (∃ kp, kp ∈ order ∧ PES_ProjectName kp.2 = projectName
         ∧ PES_ExperimentName kp.2 = experimentName) →
  (∀ kp, kp ∈ order → PES_ProjectName kp.2 = projectName →
         PES_ExperimentName kp.2 = experimentName → PES_State kp.2 = st) →
  GetState order projectName experimentName = (st, None).
Proof.
  induction order as [|[k p] order IH]; intros (kp & Hin & Hp & He) Hall.
  - by apply elem_of_nil in Hin.
  - simpl. case_decide as Hd.
    + destruct Hd as [Hd1 Hd2]. f_equal. apply (Hall (k, p)); [by left|done|done].
    + apply IH.
      * apply elem_of_cons in Hin as [->|Hin]; [by destruct Hd|]. by exists kp.
      * intros kp' Hin'. apply Hall. by right.
Qed.

Lemma GetState_none order projectName experimentName :
  (∀ kp, kp ∈ order → ¬ (PES_ProjectName kp.2 = projectName
                         ∧ PES_ExperimentName kp.2 = experimentName)) →
  GetState order projectName experimentName
  = ("", Some (ErrNew ("state for project " +:+ projectName +:+ " experiment "
                       +:+ experimentName +:+ " not found"))).
Proof.
  induction order as [|[k p] order IH]; intros Hall; simpl; [done|].
  rewrite decide_False by (apply (Hall (k, p)); by left).
  apply IH. intros kp Hin. apply Hall. by right.
Qed.

Lemma keyed_insert m p : keyed m → keyed (<[NameAsType p := p]> m).
Proof.
  intros Hk k x. destruct (decide (k = NameAsType p)) as [->|Hne].
  - rewrite lookup_insert_eq. by intros [= <-].
  - rewrite lookup_insert_ne by done. apply Hk.
Qed.

(** X5. On a table whose entries sit under their own keys, [GetState] does not
    depend on the order in which the map is ranged over: it returns the state
    of the entry under the key [project-experiment] when that entry has this
    project and this experiment, and the not-found error otherwise. *)
Theorem GetState_keyed m order projectName experimentName :
  keyed m →
  range_order (Some m) order →
  GetState order projectName experimentName
  = match m !! (projectName +:+ "-" +:+ experimentName) with
    | Some x =>
        if decide (PES_ProjectName x = projectName ∧ PES_ExperimentName x = experimentName)
        then (PES_State x, None)
        else ("", Some (ErrNew ("state for project " +:+ projectName +:+ " experiment "
                                +:+ experimentName +:+ " not found")))
    | None => ("", Some (ErrNew ("state for project " +:+ projectName +:+ " experiment "
                                 +:+ experimentName +:+ " not found")))
    end.
Proof.
  intros Hk Horder. unfold range_order in Horder. simpl in Horder.
  assert (∀ kp, kp ∈ order → PES_ProjectName kp.2 = projectName →
                PES_ExperimentName kp.2 = experimentName →
                m !! (projectName +:+ "-" +:+ experimentName) = Some kp.2) as Hmatch.
  { intros [k p] Hin Hp He. rewrite Horder in Hin. apply elem_of_map_to_list in Hin.
    simpl in *. rewrite <- Hp, <- He. by rewrite (Hk _ _ Hin) in Hin. }
  destruct (m !! (projectName +:+ "-" +:+ experimentName)) as [x|] eqn:Hx.
  - case_decide as Hd.
    + apply GetState_found.
      * exists (projectName +:+ "-" +:+ experimentName, x). split; [|done].
        rewrite Horder. by apply elem_of_map_to_list.
      * intros kp Hin Hp He. specialize (Hmatch kp Hin Hp He). by simplify_eq.
    + apply GetState_none. intros kp Hin [Hp He].
      specialize (Hmatch kp Hin Hp He). simplify_eq. by apply Hd.
  - apply GetState_none. intros kp Hin [Hp He].
    by specialize (Hmatch kp Hin Hp He).
Qed.

Lemma GetState_keyed_witness :
  GetState [("proj-exp", mkProjectExperimentState "proj" "exp" Running (sample_args "exp" 8))]
    "proj" "other"
  = ("", Some (ErrNew "state for project proj experiment other not found")).
Proof.
  rewrite (GetState_keyed
             {[ "proj-exp" := mkProjectExperimentState "proj" "exp" Running (sample_args "exp" 8) ]}
             [("proj-exp", mkProjectExperimentState "proj" "exp" Running (sample_args "exp" 8))]
             "proj" "other").
  - vm_compute. reflexivity.
  - intros k p [<- <-]%lookup_singleton_Some. reflexivity.
  - unfold range_order. simpl. by rewrite map_to_list_singleton.
Defined.

(** X6. On a store whose table has been made and is keyed, [SetState] followed by
    [GetState] returns the state just set, in whatever order the map is
    ranged over; the table stays keyed, it holds the new entry under
    [project-experiment], and every other key is as before. *)
Theorem SetState_then_GetState r m projectName experimentName state runArgs :
  States r = Some m →
  keyed m →
  ∃ r' m',
    SetState r projectName experimentName state runArgs = Ret (r', None)
    ∧ States r' = Some m'
    ∧ keyed m'
    ∧ m' !! (projectName +:+ "-" +:+ experimentName)
      = Some (mkProjectExperimentState projectName experimentName state runArgs)
    ∧ (∀ k, k ≠ projectName +:+ "-" +:+ experimentName → m' !! k = m !! k)
    ∧ ∀ order, range_order (States r') order →
        GetState order projectName experimentName = (state, None).
Proof.
  intros Hm Hk. unfold SetState. rewrite Hm.
  set (new := mkProjectExperimentState projectName experimentName state runArgs).
  eexists _, _. split_and!; [done|done| | | |].
  - by apply keyed_insert.
  - apply lookup_insert_eq.
  - intros k Hne. by apply lookup_insert_ne.
  - intros order Horder. unfold range_order in Horder. simpl in Horder.
    apply GetState_found.
    + exists (NameAsType new, new). split; [|done].
      rewrite Horder. apply elem_of_map_to_list, lookup_insert_eq.
    + intros [k p] Hin Hp He. rewrite Horder in Hin. apply elem_of_map_to_list in Hin.
      pose proof (keyed_insert m new Hk _ _ Hin) as Hkey. simpl in *.
      assert (k = NameAsType new) as ->.
      { rewrite Hkey. unfold NameAsType, Name. by rewrite Hp, He. }
      rewrite lookup_insert_eq in Hin. by injection Hin as <-.
Qed.

Lemma SetState_then_GetState_witness :
  ∃ r' m',
    SetState (mkInnerStateManager restartDir (Some ∅)) "proj" "exp" Running (sample_args "exp" 8)
    = Ret (r', None)
    ∧ States r' = Some m'
    ∧ keyed m'
    ∧ m' !! ("proj" +:+ "-" +:+ "exp")
      = Some (mkProjectExperimentState "proj" "exp" Running (sample_args "exp" 8))
    ∧ (∀ k, k ≠ "proj" +:+ "-" +:+ "exp"
            → m' !! k = (∅ : gmap string ProjectExperimentState) !! k)
    ∧ ∀ order, range_order (States r') order → GetState order "proj" "exp" = (Running, None).
Proof.
  apply (SetState_then_GetState (mkInnerStateManager restartDir (Some ∅)) ∅
           "proj" "exp" Running (sample_args "exp" 8)).
  - reflexivity.
  - intros k p Hl. by rewrite lookup_empty in Hl.
Defined.

(** X7. Two jobs whose project and experiment names differ but join to the same
    key share one slot of the table: setting the second overwrites the
    first, and [GetState] no longer finds the first, in any order. *)
Theorem SetState_key_collision r m p1 e1 p2 e2 st1 st2 cfg1 cfg2 :
  States r = Some m →
  keyed m →
  p1 +:+ "-" +:+ e1 = p2 +:+ "-" +:+ e2 →
  (p1, e1) ≠ (p2, e2) →
  ∃ r1 r2,
    SetState r p1 e1 st1 cfg1 = Ret (r1, None)
    ∧ SetState r1 p2 e2 st2 cfg2 = Ret (r2, None)
    ∧ ∀ order, range_order (States r2) order →
        GetState order p2 e2 = (st2, None)
        ∧ GetState order p1 e1
          = ("", Some (ErrNew ("state for project " +:+ p1 +:+ " experiment "
                               +:+ e1 +:+ " not found"))).
Proof.
  intros Hm Hk Hkey Hne.
  unfold SetState at 1. rewrite Hm. eexists _, _. split; [done|].
  unfold SetState. simpl States. split; [done|].
  set (new1 := mkProjectExperimentState p1 e1 st1 cfg1).
  set (new2 := mkProjectExperimentState p2 e2 st2 cfg2).
  assert (NameAsType new2 = NameAsType new1) as Hsame by (symmetry; exact Hkey).
  intros order Horder. unfold range_order in Horder. simpl in Horder.
  rewrite Hsame, insert_insert_eq in Horder.
  assert (keyed (<[NameAsType new1 := new2]> m)) as Hk2.
  { rewrite <- Hsame. by apply keyed_insert. }
  assert (∀ k p, (k, p) ∈ order → PES_ProjectName p +:+ "-" +:+ PES_ExperimentName p
                                   = NameAsType new1 → p = new2) as Hslot.
  { intros k p Hin Hn. rewrite Horder in Hin. apply elem_of_map_to_list in Hin.
    pose proof (Hk2 _ _ Hin) as Hkey'.
    change (k = PES_ProjectName p +:+ "-" +:+ PES_ExperimentName p) in Hkey'.
    rewrite Hn in Hkey'. subst k. rewrite lookup_insert_eq in Hin. by injection Hin. }
  split.
  - apply GetState_found.
    + exists (NameAsType new1, new2). split; [|done].
      rewrite Horder. apply elem_of_map_to_list, lookup_insert_eq.
    + intros [k p] Hin Hp He. simpl in *.
      rewrite (Hslot k p Hin); [done|]. rewrite Hp, He. by symmetry.
  - apply GetState_none. intros [k p] Hin [Hp He]. simpl in *.
    assert (p = new2) as -> by (apply (Hslot k); [done|by rewrite Hp, He]).
    simpl in *. apply Hne. by rewrite Hp, He.
Qed.

Lemma SetState_key_collision_witness :
  ∃ r1 r2,
    SetState (mkInnerStateManager restartDir (Some ∅)) "a-b" "c" Running (sample_args "c" 8)
    = Ret (r1, None)
    ∧ SetState r1 "a" "b-c" Stoppable (sample_args "b-c" 8) = Ret (r2, None)
    ∧ ∀ order, range_order (States r2) order →
        GetState order "a" "b-c" = (Stoppable, None)
        ∧ GetState order "a-b" "c"
          = ("", Some (ErrNew ("state for project " +:+ "a-b" +:+ " experiment "
                               +:+ "c" +:+ " not found"))).
Proof.
  apply (SetState_key_collision (mkInnerStateManager restartDir (Some ∅)) ∅
           "a-b" "c" "a" "b-c" Running Stoppable (sample_args "c" 8) (sample_args "b-c" 8)).
  - reflexivity.
  - intros k p Hl. by rewrite lookup_empty in Hl.
  - reflexivity.
  - discriminate.
Defined.

(** ** Loading the table from the directory *)

Lemma readState_never_nil json_Decode fs r stateFile :
  readState json_Decode fs r stateFile ≠ (None, None).
Proof. unfold readState. repeat case_match; congruence. Qed.

Lemma readState_path json_Decode fs r r' stateFile :
  defaultRestartPath r' = defaultRestartPath r →
  readState json_Decode fs r' stateFile = readState json_Decode fs r stateFile.
Proof. intros Hp. unfold readState. by rewrite Hp. Qed.

Lemma state_files_cons file files :
  state_files (file :: files)
  = if OS.IsDir file then state_files files
    else if negb (isStateFile (OS.Name file)) then state_files files
    else OS.Name file :: state_files files.
Proof.
  unfold state_files. destruct (OS.IsDir file) eqn:Hd, (isStateFile (OS.Name file)) eqn:Hs;
    simpl; first [rewrite filter_cons_True by (by rewrite ?Hd, ?Hs)
                 |rewrite filter_cons_False by (rewrite ?Hd, ?Hs; intros []; congruence)];
    done.
Qed.

(** X8. On a store whose table was never made, [FillStates]'s loop loads
    nothing: with no state file in the listing it returns the store as it
    is; otherwise the first state file decides, a successful read panics on
    the assignment and a failed read returns its error with the store as it
    is.  Files after the first state file are never read. *)
Theorem FillStates_loop_nil_table json_Decode fs path files :
  (state_files files = [] →
   FillStates_loop json_Decode fs (mkInnerStateManager path None) files
   = Ret (mkInnerStateManager path None, None))
  ∧ (∀ name rest, state_files files = name :: rest →
       FillStates_loop json_Decode fs (mkInnerStateManager path None) files
       = match readState json_Decode fs (mkInnerStateManager path None) name with
         | (Some _, None) => Panic "assignment to entry in nil map"
         | (_, Some err) => Ret (mkInnerStateManager path None, Some err)
         | (None, None) => Panic "invalid memory address or nil pointer dereference"
         end)
  ∧ (∀ r', FillStates_loop json_Decode fs (mkInnerStateManager path None) files
           = Ret (r', None) → state_files files = []).
Proof.
  induction files as [|file files (IH1 & IH2 & IH3)].
  - split_and!; [done|intros ?? [=]|done].
  - rewrite state_files_cons. simpl FillStates_loop.
    destruct (OS.IsDir file); [by split_and!|].
    destruct (isStateFile (OS.Name file)); simpl negb; cbv iota; [|by split_and!].
    split_and!.
    + intros [=].
    + intros name rest [= <- <-]. by repeat case_match.
    + intros r' Hr. exfalso. repeat case_match; simplify_eq.
Qed.

Lemma FillStates_loop_reads json_Decode fs files : ∀ r r',
  FillStates_loop json_Decode fs r files = Ret (r', None) →
  Forall (λ name, ∃ p, readState json_Decode fs r name = (Some p, None)) (state_files files).
Proof.
  induction files as [|file files IH]; intros r r' Hrun; [constructor|].
  rewrite state_files_cons. simpl in Hrun.
  destruct (OS.IsDir file); [by apply (IH r r')|].
  destruct (isStateFile (OS.Name file)); simpl negb in *; cbv iota in *;
    [|by apply (IH r r')].
  destruct (readState json_Decode fs r (OS.Name file)) as [[state|] [err|]] eqn:Hread;
    try discriminate.
  constructor; [by exists state|].
  destruct (States r) as [m|]; [|discriminate].
  eapply Forall_impl; [exact (IH _ _ Hrun)|].
  intros name [p Hp]. exists p. rewrite <- Hp. symmetry. by apply readState_path.
Qed.

Lemma FillStates_loop_made json_Decode fs files : ∀ r m r',
  States r = Some m →
  keyed m →
  FillStates_loop json_Decode fs r files = Ret (r', None) →
  defaultRestartPath r' = defaultRestartPath r
  ∧ Forall (λ name, ∃ p, readState json_Decode fs r name = (Some p, None)) (state_files files)
  ∧ ∃ m', States r' = Some m' ∧ keyed m'
    ∧ ∀ k p, m' !! k = Some p →
        m !! k = Some p
        ∨ ∃ name, name ∈ state_files files
                  ∧ readState json_Decode fs r name = (Some p, None).
Proof.
  induction files as [|file files IH]; intros r m r' Hm Hk Hrun.
  - simpl in Hrun. injection Hrun as <-. split_and!; [done|constructor|].
    exists m. split_and!; [done|done|]. intros k p Hl. by left.
  - rewrite state_files_cons. simpl in Hrun.
    destruct (OS.IsDir file); [by apply (IH r m r')|].
    destruct (isStateFile (OS.Name file)); simpl negb in *; cbv iota in *;
      [|by apply (IH r m r')].
    destruct (readState json_Decode fs r (OS.Name file)) as [[state|] [err|]] eqn:Hread;
      try discriminate.
    rewrite Hm in Hrun.
    set (r1 := mkInnerStateManager (defaultRestartPath r)
                 (Some (<[NameAsType state := state]> m))) in Hrun.
    destruct (IH r1 _ r' eq_refl (keyed_insert m state Hk) Hrun)
      as (Hpath & Hall & m' & Hm' & Hk' & Hfrom).
    assert (∀ name, readState json_Decode fs r1 name = readState json_Decode fs r name)
      as Hsame by (intros name; by apply readState_path).
    split_and!; [done| |].
    + constructor; [by exists state|].
      eapply Forall_impl; [exact Hall|]. intros name [p Hp]. exists p. by rewrite <- Hsame.
    + exists m'. split_and!; [done|done|]. intros k p Hl.
      destruct (Hfrom k p Hl) as [Hold|(name & Hin & Hname)].
      * destruct (decide (k = NameAsType state)) as [->|Hne].
        -- rewrite lookup_insert_eq in Hold. injection Hold as <-.
           right. exists (OS.Name file). split; [by left|done].
        -- rewrite lookup_insert_ne in Hold by done. by left.
      * right. exists name. split; [by right|by rewrite <- Hsame].
Qed.

(** X9. When [FillStates] succeeds on a store whose table has been made and is
    keyed, every state file of the directory was read successfully, the
    table is still keyed, and each of its entries either was there before
    or was read from a file that is no directory and whose name has exactly
    three dot-separated tokens, the third a recognized state. *)
Theorem FillStates_loads json_Decode fs r m r' :
  States r = Some m →
  keyed m →
  FillStates json_Decode fs r = Ret (r', None) →
  ∃ files m',
    OS.ReadDir fs (defaultRestartPath r) = (files, None)
    ∧ defaultRestartPath r' = defaultRestartPath r
    ∧ Forall (λ name, ∃ p, readState json_Decode fs r name = (Some p, None)) (state_files files)
    ∧ States r' = Some m'
    ∧ keyed m'
    ∧ ∀ k p, m' !! k = Some p →
        m !! k = Some p
        ∨ ∃ file, file ∈ files ∧ OS.IsDir file = false
                  ∧ GoStrings.Split (OS.Name file) "."%char
                    = [PES_ProjectName p; PES_ExperimentName p; PES_State p]
                  ∧ isValidState (PES_State p) = true
                  ∧ readState json_Decode fs r (OS.Name file) = (Some p, None).
Proof.
  intros Hm Hk Hrun. unfold FillStates in Hrun.
  destruct (OS.ReadDir fs (defaultRestartPath r)) as [files [err|]] eqn:Hdir;
    [discriminate|].
  destruct (FillStates_loop_made _ _ _ _ _ _ Hm Hk Hrun)
    as (Hpath & Hall & m' & Hm' & Hk' & Hfrom).
  exists files, m'. split_and!; try done.
  intros k p Hl. destruct (Hfrom k p Hl) as [Hold|(name & Hin & Hname)]; [by left|].
  right. unfold state_files in Hin.
  apply list_elem_of_fmap in Hin as (file & -> & Hin).
  apply list_elem_of_filter in Hin as [[Hd _] Hin].
  destruct (readState_Some _ _ _ _ _ Hname) as [Hsplit Hvalid].
  by exists file.
Qed.

Lemma FillStates_loads_witness :
  ∃ files m',
    OS.ReadDir (OS.mkFS [] {[ ["states"] := OS.Dir;
                              ["states"; "proj.exp.running"] := OS.File "{}" ]})
      (defaultRestartPath (mkInnerStateManager "/states/" (Some ∅))) = (files, None)
    ∧ defaultRestartPath
        (mkInnerStateManager "/states/"
           (Some {[ "proj-exp" := mkProjectExperimentState "proj" "exp" Running
                                    (sample_args "exp" 8) ]}))
      = defaultRestartPath (mkInnerStateManager "/states/" (Some ∅))
    ∧ Forall (λ name, ∃ p,
                readState (λ _, (sample_args "exp" 8, None))
                  (OS.mkFS [] {[ ["states"] := OS.Dir;
                                 ["states"; "proj.exp.running"] := OS.File "{}" ]})
                  (mkInnerStateManager "/states/" (Some ∅)) name = (Some p, None))
        (state_files files)
    ∧ States (mkInnerStateManager "/states/"
                (Some {[ "proj-exp" := mkProjectExperimentState "proj" "exp" Running
                                         (sample_args "exp" 8) ]}))
      = Some m'
    ∧ keyed m'
    ∧ ∀ k p, m' !! k = Some p →
        (∅ : gmap string ProjectExperimentState) !! k = Some p
        ∨ ∃ file, file ∈ files ∧ OS.IsDir file = false
                  ∧ GoStrings.Split (OS.Name file) "."%char
                    = [PES_ProjectName p; PES_ExperimentName p; PES_State p]
                  ∧ isValidState (PES_State p) = true
                  ∧ readState (λ _, (sample_args "exp" 8, None))
                      (OS.mkFS [] {[ ["states"] := OS.Dir;
                                     ["states"; "proj.exp.running"] := OS.File "{}" ]})
                      (mkInnerStateManager "/states/" (Some ∅)) (OS.Name file)
                    = (Some p, None).
Proof.
  apply (FillStates_loads (λ _, (sample_args "exp" 8, None))
           (OS.mkFS [] {[ ["states"] := OS.Dir;
                          ["states"; "proj.exp.running"] := OS.File "{}" ]})
           (mkInnerStateManager "/states/" (Some ∅)) ∅).
  - reflexivity.
  - intros k p Hl. by rewrite lookup_empty in Hl.
  - vm_compute. reflexivity.
Defined.

(** X10. A file that is no directory and whose name has three dot-separated
    tokens, the third no recognized state, is not skipped: with it in the
    directory [FillStates] never succeeds, it returns an error or panics. *)
Theorem FillStates_unrecognized_state json_Decode fs r file d0 d1 d2 :
  file ∈ (OS.ReadDir fs (defaultRestartPath r)).1 →
  OS.IsDir file = false →
  GoStrings.Split (OS.Name file) "."%char = [d0; d1; d2] →
  isValidState d2 = false →
  (∃ msg, FillStates json_Decode fs r = Panic msg)
  ∨ (∃ r' err, FillStates json_Decode fs r = Ret (r', Some err)).
Proof.
  intros Hin Hdir Hsplit Hinvalid. unfold FillStates.
  destruct (OS.ReadDir fs (defaultRestartPath r)) as [files [err|]] eqn:Hread;
    [right; by eexists _, _|].
  simpl in Hin.
  destruct (FillStates_loop json_Decode fs r files) as [[r' [err|]]|msg|code] eqn:Hrun.
  - right. by eexists _, _.
  - exfalso. apply FillStates_loop_reads in Hrun.
    assert (OS.Name file ∈ state_files files) as Hname.
    { unfold state_files. apply list_elem_of_fmap. exists file. split; [done|].
      apply list_elem_of_filter. split; [|done]. split; [done|].
      unfold isStateFile. rewrite Hsplit. done. }
    rewrite Forall_forall in Hrun. destruct (Hrun _ Hname) as [p Hp].
    apply readState_Some in Hp as [Hp Hvalid]. rewrite Hsplit in Hp.
    injection Hp as _ _ ->. congruence.
  - left. by eexists.
  - exfalso. clear Hin Hread. revert r Hrun.
    induction files as [|f files IH]; intros r Hrun; simpl in Hrun; [discriminate|].
    repeat case_match; simplify_eq; by eapply IH.
Qed.

Lemma FillStates_unrecognized_state_witness :
  (∃ msg, FillStates (λ _, (sample_args "exp" 8, None))
            (OS.mkFS [] {[ ["states"] := OS.Dir;
                           ["states"; "proj.exp.paused"] := OS.File "{}" ]})
            (mkInnerStateManager "/states/" (Some ∅)) = Panic msg)
  ∨ (∃ r' err, FillStates (λ _, (sample_args "exp" 8, None))
                 (OS.mkFS [] {[ ["states"] := OS.Dir;
                                ["states"; "proj.exp.paused"] := OS.File "{}" ]})
                 (mkInnerStateManager "/states/" (Some ∅)) = Ret (r', Some err)).
Proof.
  apply (FillStates_unrecognized_state (λ _, (sample_args "exp" 8, None))
           (OS.mkFS [] {[ ["states"] := OS.Dir;
                          ["states"; "proj.exp.paused"] := OS.File "{}" ]})
           (mkInnerStateManager "/states/" (Some ∅))
           (OS.mkDirEntry "proj.exp.paused" false) "proj" "exp" "paused").
  - vm_compute. left.
  - reflexivity.
  - vm_compute. reflexivity.
  - vm_compute. reflexivity.
Defined.

(** ** The name of a state file *)

Lemma count_byte_app c a b :
  count_byte c (a +:+ b) = (count_byte c a + count_byte c b)%nat.
Proof.
  induction a as [|d a IH]; [done|].
  change (String d a +:+ b) with (String d (a +:+ b)). simpl. rewrite IH. lia.
Qed.

(** X11. The name [Write] gives a state file, [project.experiment.state], is
    recognized by [isStateFile] exactly when none of the three parts
    contains a dot, and then it splits back into these three parts; with a
    dot in one of them [isStateFile] rejects the name that [Write] uses. *)
Theorem state_file_name projectName experimentName state :
  (isStateFile (projectName +:+ "." +:+ experimentName +:+ "." +:+ state) = true
   ↔ count_byte "." projectName = 0%nat ∧ count_byte "." experimentName = 0%nat
     ∧ count_byte "." state = 0%nat)
  ∧ (count_byte "." projectName = 0%nat → count_byte "." experimentName = 0%nat →
     count_byte "." state = 0%nat →
     GoStrings.Split (projectName +:+ "." +:+ experimentName +:+ "." +:+ state) "."%char
     = [projectName; experimentName; state]).
Proof.
  split.
  - unfold isStateFile. rewrite bool_decide_eq_true, Split_count.
    rewrite !count_byte_app. simpl. lia.
  - intros Hp He Hs.
    change ("." +:+ experimentName +:+ "." +:+ state)
      with (String "." (experimentName +:+ "." +:+ state)).
    rewrite Split_app_nosep by done.
    change ("." +:+ state) with (String "." state).
    rewrite Split_app_nosep by done. by rewrite Split_nosep.
Qed.

(** ** The exit code that the local pass records *)

Lemma containerStateAndExitCode_loop_missing containers containerName :
  Forall (λ c, ∃ n ns, Names c = n :: ns ∧ n ≠ "/" +:+ containerName) containers →
  containerStateAndExitCode_loop containers containerName
  = Ret ("", 1, Some (WithMessage ErrContainerNotFound
                        ("container " +:+ containerName +:+ " not found"))).
Proof.
  induction 1 as [|c containers (n & ns & Hn & Hne) _ IH]; simpl; [done|].
  rewrite Hn. by rewrite decide_False.
Qed.

(** X12. When the runtime lists no container whose first name is the store key of
    the job, [containerStateAndExitCode] returns exit code 1 with the
    not-found error, [FindLocalMatch] takes this for an observation and
    records Actual = 1 in the local page; as 1 is a bad exit code, the
    observation satisfies the restart predicate exactly when the expected
    state is Running. *)
Theorem container_not_found_is_exit_code_1
    (ContainerList : string → list Container * option error)
    (experiment : string) (containers : list Container)
    (s : StateManager) (rargs : RunArgs) (expected : State)
    (local : gmap string StateMatch) :
  experiment ≠ "" →
  ContainerList experiment = (containers, None) →
  Forall (λ c, ∃ n ns, Names c = n :: ns ∧ n ≠ "/" +:+ experiment) containers →
  curIP s ∈ Hosts rargs →
  Restartable rargs = Ret expected →
  page s !! curIP s = Some local →
  containerStateAndExitCode (Some ContainerList) experiment
  = Ret ("", 1, Some (WithMessage ErrContainerNotFound
                        ("container " +:+ experiment +:+ " not found")))
  ∧ FindLocalMatch_body (Some ContainerList) s experiment rargs
    = Ret (mkStateManager (curIP s)
             (<[curIP s := <[experiment := mkStateMatch expected 1 rargs]> local]> (page s))
             (ism s) (toRestart s), None)
  ∧ (ShouldRestart (mkStateMatch expected 1 rargs) = true ↔ expected = Running).
Proof.
  intros Hname Hlist Hall Hin Hexp Hpage.
  assert (containerStateAndExitCode (Some ContainerList) experiment
          = Ret ("", 1, Some (WithMessage ErrContainerNotFound
                                ("container " +:+ experiment +:+ " not found")))) as Hres.
  { unfold containerStateAndExitCode. rewrite decide_False by done. rewrite Hlist.
    by apply containerStateAndExitCode_loop_missing. }
  split_and!; [done| |].
  - unfold FindLocalMatch_body, slices_Contains.
    rewrite bool_decide_eq_true_2 by done. rewrite Hexp. simpl.
    rewrite Hres. simpl. by rewrite Hpage.
  - unfold ShouldRestart. simpl. rewrite andb_true_r. apply bool_decide_eq_true.
Qed.

Lemma container_not_found_is_exit_code_1_witness :
  containerStateAndExitCode
    (Some (λ _, ([mkContainer ["/trainer"] "running" "Up 5 minutes"], None))) "proj-exp"
  = Ret ("", 1, Some (WithMessage ErrContainerNotFound
                        ("container " +:+ "proj-exp" +:+ " not found")))
  ∧ FindLocalMatch_body
      (Some (λ _, ([mkContainer ["/trainer"] "running" "Up 5 minutes"], None)))
      (mkStateManager "10.0.0.1" {[ "10.0.0.1" := ∅ ]}
         (mkInnerStateManager restartDir None) ∅)
      "proj-exp"
      (mkRunArgs "proj" ["10.0.0.1"] 1 "exp" 29500 "run" 0
         ["hf_action_restartable=running"] (Some "trainer") None None)
    = Ret (mkStateManager
             (curIP (mkStateManager "10.0.0.1" {[ "10.0.0.1" := ∅ ]}
                       (mkInnerStateManager restartDir None) ∅))
             (<[curIP (mkStateManager "10.0.0.1" {[ "10.0.0.1" := ∅ ]}
                         (mkInnerStateManager restartDir None) ∅)
                := <["proj-exp" :=
                       mkStateMatch Running 1
                         (mkRunArgs "proj" ["10.0.0.1"] 1 "exp" 29500 "run" 0
                            ["hf_action_restartable=running"] (Some "trainer") None None)]> ∅]>
                (page (mkStateManager "10.0.0.1" {[ "10.0.0.1" := ∅ ]}
                         (mkInnerStateManager restartDir None) ∅)))
             (ism (mkStateManager "10.0.0.1" {[ "10.0.0.1" := ∅ ]}
                     (mkInnerStateManager restartDir None) ∅))
             (toRestart (mkStateManager "10.0.0.1" {[ "10.0.0.1" := ∅ ]}
                           (mkInnerStateManager restartDir None) ∅)), None)
  ∧ (ShouldRestart
       (mkStateMatch Running 1
          (mkRunArgs "proj" ["10.0.0.1"] 1 "exp" 29500 "run" 0
             ["hf_action_restartable=running"] (Some "trainer") None None)) = true
     ↔ Running = Running).
Proof.
  apply (container_not_found_is_exit_code_1
           (λ _, ([mkContainer ["/trainer"] "running" "Up 5 minutes"], None))
           "proj-exp" [mkContainer ["/trainer"] "running" "Up 5 minutes"]
           (mkStateManager "10.0.0.1" {[ "10.0.0.1" := ∅ ]}
              (mkInnerStateManager restartDir None) ∅)
           (mkRunArgs "proj" ["10.0.0.1"] 1 "exp" 29500 "run" 0
              ["hf_action_restartable=running"] (Some "trainer") None None)
           Running ∅).
  - discriminate.
  - reflexivity.
  - constructor; [|constructor]. eexists _, _. split; [reflexivity|discriminate].
  - simpl. set_solver.
  - reflexivity.
  - reflexivity.
Defined.

Lemma FindStringSubmatch_skip pre s :
  count_byte "E" pre = 0%nat →
  ExitCodeRegexp.FindStringSubmatch (pre +:+ s) = ExitCodeRegexp.FindStringSubmatch s.
Proof.
  induction pre as [|c pre IH]; [done|].
  change (String c pre +:+ s) with (String c (pre +:+ s)). simpl.
  destruct (Ascii.eqb c "E") eqn:Hc; [done|]. intros Hpre.
  assert (ExitCodeRegexp.match_here (String c (pre +:+ s)) = None) as ->.
  { unfold ExitCodeRegexp.match_here.
    change (ExitCodeRegexp.strip_prefix "Exited (" (String c (pre +:+ s)))
      with (if Ascii.eqb "E" c
            then ExitCodeRegexp.strip_prefix "xited (" (pre +:+ s) else None).
    rewrite Ascii.eqb_sym in Hc. by rewrite Hc. }
  by apply IH.
Qed.

(** X13. A status text in which the exit marker [Exited (ds)] comes before any
    other capital E gives the number that the digits [ds] spell, when it
    fits an [int]; a larger number gives exit code 0 together with an
    error. *)
Theorem getExitCode_marker pre ds post :
  count_byte "E" pre = 0%nat →
  ds ≠ "" →
  Forall (λ c, GoStrconv.is_digit c = true) (list_ascii_of_string ds) →
  (GoStrconv.digits_value 0 ds ≤ GoStrconv.maxInt →
   getExitCode (pre +:+ "Exited (" +:+ ds +:+ ")" +:+ post)
   = (GoStrconv.digits_value 0 ds, None))
  ∧ (GoStrconv.maxInt < GoStrconv.digits_value 0 ds →
     ∃ err, getExitCode (pre +:+ "Exited (" +:+ ds +:+ ")" +:+ post) = (0, Some err)).
Proof.
  intros Hpre Hne Hds.
  assert (ExitCodeRegexp.FindStringSubmatch (pre +:+ "Exited (" +:+ ds +:+ ")" +:+ post)
          = Some ds) as Hfind.
  { rewrite FindStringSubmatch_skip by done.
    pose proof (match_here_marker ds post Hne Hds) as Hm.
    destruct ("Exited (" +:+ ds +:+ ")" +:+ post) eqn:E; [done|].
    simpl. by rewrite Hm. }
  unfold getExitCode. rewrite Hfind. unfold GoStrconv.Atoi. split; intros Hv.
  - by rewrite (proj2 (Z.leb_le _ _) Hv).
  - rewrite (proj2 (Z.leb_gt _ _) Hv). by eexists.
Qed.

Lemma getExitCode_marker_witness :
  (GoStrconv.digits_value 0 "137" ≤ GoStrconv.maxInt →
   getExitCode ("" +:+ "Exited (" +:+ "137" +:+ ")" +:+ " 2 hours ago")
   = (GoStrconv.digits_value 0 "137", None))
  ∧ (GoStrconv.maxInt < GoStrconv.digits_value 0 "137" →
     ∃ err, getExitCode ("" +:+ "Exited (" +:+ "137" +:+ ")" +:+ " 2 hours ago")
            = (0, Some err)).
Proof.
  apply (getExitCode_marker "" "137" " 2 hours ago").
  - reflexivity.
  - discriminate.
  - repeat constructor.
Defined.

(** ** The local pass over the store *)

Lemma FindLocalMatch_body_frame cli s experiment rargs s' err :
  FindLocalMatch_body cli s experiment rargs = Ret (s', err) →
  curIP s' = curIP s ∧ ism s' = ism s ∧ toRestart s' = toRestart s
  ∧ (∀ h, h ≠ curIP s → page s' !! h = page s !! h)
  ∧ (is_Some (page s !! curIP s) → is_Some (page s' !! curIP s))
  ∧ (∀ e, e ≠ experiment → cell (page s') (curIP s) e = cell (page s) (curIP s) e)
  ∧ (∀ m, cell (page s') (curIP s) experiment = Some m →
       cell (page s) (curIP s) experiment = Some m
       ∨ SM_RunArgs m = rargs ∧ curIP s ∈ Hosts rargs
         ∧ Restartable rargs = Ret (Expected m)).
Proof.
  unfold FindLocalMatch_body, slices_Contains. case_bool_decide as Hin.
  2:{ intros [= <- <-]. split_and!; try done. intros m Hm. by left. }
  destruct (Restartable rargs) as [expected|msg|code] eqn:Hexp; simpl; [|done..].
  destruct (containerStateAndExitCode cli experiment) as [[[st exitCode] err1]|msg|code];
    simpl; [|done..].
  assert (
    match page s !! curIP s with
    | Some local =>
        Ret (mkStateManager (curIP s)
               (<[curIP s := <[experiment := mkStateMatch expected exitCode rargs]> local]>
                  (page s)) (ism s) (toRestart s), None)
    | None => Panic "assignment to entry in nil map"
    end = Ret (s', err) →
    curIP s' = curIP s ∧ ism s' = ism s ∧ toRestart s' = toRestart s
    ∧ (∀ h, h ≠ curIP s → page s' !! h = page s !! h)
    ∧ (is_Some (page s !! curIP s) → is_Some (page s' !! curIP s))
    ∧ (∀ e, e ≠ experiment → cell (page s') (curIP s) e = cell (page s) (curIP s) e)
    ∧ (∀ m, cell (page s') (curIP s) experiment = Some m →
         cell (page s) (curIP s) experiment = Some m
         ∨ SM_RunArgs m = rargs ∧ curIP s ∈ Hosts rargs
           ∧ Restartable rargs = Ret (Expected m))) as Hrecord.
  { unfold cell, Host in *.
    destruct (@lookup string _ _ _ (curIP s) (page s)) as [local|] eqn:Hlocal; [|done].
    intros [= <- <-]. simpl. split_and!; try done.
    - intros h Hh. by rewrite lookup_insert_ne.
    - intros _. rewrite lookup_insert_eq. by eexists.
    - intros e He. rewrite lookup_insert_eq. simpl.
      by rewrite lookup_insert_ne.
    - intros m. rewrite lookup_insert_eq. simpl.
      rewrite lookup_insert_eq. intros [= <-]. right. by split_and!. }
  rewrite Hexp in Hrecord.
  destruct err1 as [err1|]; [|exact Hrecord].
  destruct (errors_Is err1 ErrContainerNotFound); simpl; [exact Hrecord|].
  intros [= <- <-]. split_and!; try done. intros m Hm. by left.
Qed.

(** X14. Whatever the runtime answers, the local pass touches nothing but the
    row of the local host in the page: the address, the store and the
    restart table are as before, the rows of the other hosts are as before,
    the cells of the local row for jobs outside the pass are as before, and
    a cell of the local row after the pass either was there before or holds
    the stored arguments of a job of the pass that lists the local host,
    with the expected state that [Restartable] derives from them. *)
Theorem FindLocalMatch_loop_frame cli order : ∀ s s' err,
  FindLocalMatch_loop cli s order = Ret (s', err) →
  curIP s' = curIP s ∧ ism s' = ism s ∧ toRestart s' = toRestart s
  ∧ (∀ h, h ≠ curIP s → page s' !! h = page s !! h)
  ∧ (∀ e, e ∉ order.*1 → cell (page s') (curIP s) e = cell (page s) (curIP s) e)
  ∧ (∀ e m, cell (page s') (curIP s) e = Some m →
       cell (page s) (curIP s) e = Some m
       ∨ ∃ state, (e, state) ∈ order
                  ∧ SM_RunArgs m = PES_RunArgs state
                  ∧ curIP s ∈ Hosts (PES_RunArgs state)
                  ∧ Restartable (PES_RunArgs state) = Ret (Expected m)).
Proof.
  induction order as [|[experiment state] order IH]; intros s s' err; simpl.
  - intros [= <- <-]. split_and!; try done. intros e m Hm. by left.
  - destruct (FindLocalMatch_body cli s experiment (PES_RunArgs state))
      as [[s1 err1]|msg|code] eqn:Hbody; simpl; [|done..].
    apply FindLocalMatch_body_frame in Hbody
      as (Hip & Hism & Htr & Hother & _ & Hrow & Hcell).
    assert (∀ e m, cell (page s1) (curIP s) e = Some m →
              cell (page s) (curIP s) e = Some m
              ∨ ∃ state', (e, state') ∈ (experiment, state) :: order
                          ∧ SM_RunArgs m = PES_RunArgs state'
                          ∧ curIP s ∈ Hosts (PES_RunArgs state')
                          ∧ Restartable (PES_RunArgs state') = Ret (Expected m)) as Hcell1.
    { intros e m Hm. destruct (decide (e = experiment)) as [->|Hne].
      - destruct (Hcell m Hm) as [Hold|(Hargs & Hin & Hexp)]; [by left|].
        right. exists state. split_and!; [by left|done..].
      - left. by rewrite <- Hrow. }
    destruct err1 as [err1|].
    + intros [= <- <-]. split_and!; try done.
      intros e He. apply not_elem_of_cons in He as [He _]. by apply Hrow.
    + intros Hloop. apply IH in Hloop as (Hip' & Hism' & Htr' & Hother' & Hrow' & Hcell').
      rewrite Hip in *. split_and!; try congruence.
      * intros h Hh. rewrite Hother' by done. by apply Hother.
      * intros e He. apply not_elem_of_cons in He as [He1 He2].
        rewrite Hrow' by done. by apply Hrow.
      * intros e m Hm. destruct (Hcell' e m Hm) as [Hold|(state' & Hin & Hrest)].
        -- by apply Hcell1.
        -- right. exists state'. split; [by right|done].
Qed.

Lemma FindLocalMatch_loop_frame_witness :
  curIP (mkStateManager "10.0.0.1"
           {[ "10.0.0.1" := {[ "proj-exp" := mkStateMatch Running 1 (sample_args "exp" 8) ]} ]}
           (mkInnerStateManager restartDir None) ∅)
  = curIP sample_manager
  ∧ ism (mkStateManager "10.0.0.1"
           {[ "10.0.0.1" := {[ "proj-exp" := mkStateMatch Running 1 (sample_args "exp" 8) ]} ]}
           (mkInnerStateManager restartDir None) ∅)
    = ism sample_manager
  ∧ toRestart (mkStateManager "10.0.0.1"
           {[ "10.0.0.1" := {[ "proj-exp" := mkStateMatch Running 1 (sample_args "exp" 8) ]} ]}
           (mkInnerStateManager restartDir None) ∅)
    = toRestart sample_manager
  ∧ (∀ h, h ≠ curIP sample_manager →
       page (mkStateManager "10.0.0.1"
           {[ "10.0.0.1" := {[ "proj-exp" := mkStateMatch Running 1 (sample_args "exp" 8) ]} ]}
           (mkInnerStateManager restartDir None) ∅) !! h
       = page sample_manager !! h)
  ∧ (∀ e, e ∉ [("proj-exp",
                 mkProjectExperimentState "proj" "exp" Running (sample_args "exp" 8))].*1 →
       cell (page (mkStateManager "10.0.0.1"
           {[ "10.0.0.1" := {[ "proj-exp" := mkStateMatch Running 1 (sample_args "exp" 8) ]} ]}
           (mkInnerStateManager restartDir None) ∅)) (curIP sample_manager) e
       = cell (page sample_manager) (curIP sample_manager) e)
  ∧ (∀ e m,
       cell (page (mkStateManager "10.0.0.1"
           {[ "10.0.0.1" := {[ "proj-exp" := mkStateMatch Running 1 (sample_args "exp" 8) ]} ]}
           (mkInnerStateManager restartDir None) ∅)) (curIP sample_manager) e = Some m →
       cell (page sample_manager) (curIP sample_manager) e = Some m
       ∨ ∃ state,
           (e, state) ∈ [("proj-exp",
                          mkProjectExperimentState "proj" "exp" Running (sample_args "exp" 8))]
           ∧ SM_RunArgs m = PES_RunArgs state
           ∧ curIP sample_manager ∈ Hosts (PES_RunArgs state)
           ∧ Restartable (PES_RunArgs state) = Ret (Expected m)).
Proof.
  apply (FindLocalMatch_loop_frame (Some (λ _, ([], None)))
           [("proj-exp", mkProjectExperimentState "proj" "exp" Running (sample_args "exp" 8))]
           sample_manager _ None).
  vm_compute. reflexivity.
Defined.

(** X15. A job whose host list does not hold the local address is passed over:
    when no job of the pass lists the local host, the pass returns the
    manager unchanged and without error, whatever the client is, even a nil
    one. *)
Theorem FindLocalMatch_loop_other_hosts cli s order :
  Forall (λ kp, curIP s ∉ Hosts (PES_RunArgs kp.2)) order →
  FindLocalMatch_loop cli s order = Ret (s, None).
Proof.
  induction 1 as [|[experiment state] order Hnot _ IH]; simpl; [done|].
  unfold FindLocalMatch_body, slices_Contains.
  rewrite bool_decide_eq_false_2 by done. simpl. exact IH.
Qed.

Lemma FindLocalMatch_loop_other_hosts_witness :
  FindLocalMatch_loop None
    (mkStateManager "10.0.0.9" {[ "10.0.0.9" := ∅ ]} (mkInnerStateManager restartDir None) ∅)
    [("proj-exp", mkProjectExperimentState "proj" "exp" Running (sample_args "exp" 8))]
  = Ret (mkStateManager "10.0.0.9" {[ "10.0.0.9" := ∅ ]}
           (mkInnerStateManager restartDir None) ∅, None).
Proof.
  apply (FindLocalMatch_loop_other_hosts None
           (mkStateManager "10.0.0.9" {[ "10.0.0.9" := ∅ ]}
              (mkInnerStateManager restartDir None) ∅)
           [("proj-exp", mkProjectExperimentState "proj" "exp" Running (sample_args "exp" 8))]).
  constructor; [|constructor]. simpl.
  intros [Heq|[Heq|Hin%elem_of_nil]%elem_of_cons]%elem_of_cons; [discriminate..|done].
Defined.

(** ** Merging the pages in order *)

Lemma merge_matches_decoded spage pages :
  merge_matches spage ((λ pg, (pg, None)) <$> pages) = (foldl merge_page spage pages, None).
Proof. revert spage. induction pages as [|pg pages IH]; intros spage; simpl; [done|apply IH]. Qed.

Lemma merge_matches_app spage pages rest :
  merge_matches spage (((λ pg, (pg, None)) <$> pages) ++ rest)
  = merge_matches (foldl merge_page spage pages) rest.
Proof. revert spage. induction pages as [|pg pages IH]; intros spage; simpl; [done|apply IH]. Qed.

Lemma foldl_merge_page_cell spage pages host experiment :
  cell (foldl merge_page spage pages) host experiment
  = foldl (λ acc pg, match cell pg host experiment with
                     | Some m => Some m
                     | None => acc
                     end) (cell spage host experiment) pages.
Proof.
  revert spage. induction pages as [|pg pages IH]; intros spage; simpl; [done|].
  by rewrite IH, merge_page_cell.
Qed.

Lemma foldl_cell_skip (acc : option StateMatch) post host experiment :
  Forall (λ q, cell q host experiment = None) post →
  foldl (λ acc pg, match cell pg host experiment with
                   | Some m => Some m
                   | None => acc
                   end) acc post = acc.
Proof.
  intros Hpost. revert acc.
  induction Hpost as [|q post Hq _ IH]; intros acc; simpl; [done|].
  by rewrite Hq.
Qed.

(** X16. When every match decodes, the pages are merged in the order of the
    arguments and the later page wins cell by cell: a cell of the merged
    page is the cell of the last page that has it, and the cell of the page
    before the call when no page has it. *)
Theorem merge_matches_later_wins spage pages host experiment :
  ∃ pg,
    merge_matches spage ((λ pg, (pg, None)) <$> pages) = (pg, None)
    ∧ (∀ pre p post m,
         pages = pre ++ p :: post →
         cell p host experiment = Some m →
         Forall (λ q, cell q host experiment = None) post →
         cell pg host experiment = Some m)
    ∧ (Forall (λ q, cell q host experiment = None) pages →
       cell pg host experiment = cell spage host experiment).
Proof.
  exists (foldl merge_page spage pages). split; [apply merge_matches_decoded|].
  rewrite foldl_merge_page_cell. split.
  - intros pre p post m -> Hp Hpost.
    rewrite foldl_app. simpl. rewrite Hp. by apply foldl_cell_skip.
  - apply foldl_cell_skip.
Qed.

(** X17. A match that fails to decode ends the call at once with the error
    "failed to unmarshal page": the pages before it are already merged into
    the page of the manager, the pages after it are not looked at, and the
    restart table is as before the call. *)
Theorem JoinLocalMatches_decode_failure ti s pages pg err rest sched :
  JoinLocalMatches ti s (((λ pg, (pg, None)) <$> pages) ++ (pg, Some err) :: rest) sched
  = (mkStateManager (curIP s) (foldl merge_page (page s) pages) (ism s) (toRestart s),
     Some (WithMessage err "failed to unmarshal page"))
  ∧ ∀ host experiment,
      Forall (λ q, cell q host experiment = None) pages →
      cell (foldl merge_page (page s) pages) host experiment = cell (page s) host experiment.
Proof.
  split.
  - unfold JoinLocalMatches. by rewrite merge_matches_app.
  - intros host experiment Hpages. rewrite foldl_merge_page_cell.
    by apply foldl_cell_skip.
Qed.

(** ** The restart table across a call *)

Lemma experiment_turn_keeps ti v tr :
  dom tr ⊆ dom (experiment_turn ti v tr).1
  ∧ ∀ e, e ≠ v_experiment v → (experiment_turn ti v tr).1 !! e = tr !! e.
Proof.
  unfold experiment_turn. repeat case_match; simpl; try done.
  split.
  - rewrite dom_insert. set_solver.
  - intros e He. by rewrite lookup_insert_ne.
Qed.

Lemma experiments_loop_keeps ti sched tr :
  dom tr ⊆ dom (experiments_loop ti sched tr).1
  ∧ ∀ e, e ∉ v_experiment <$> sched → (experiments_loop ti sched tr).1 !! e = tr !! e.
Proof.
  revert tr. induction sched as [|v sched IH]; intros tr; simpl; [done|].
  destruct (experiment_turn_keeps ti v tr) as [Hdom Hother].
  destruct (experiment_turn ti v tr) as [tr1 [err|]]; simpl in *.
  - split; [done|]. intros e He.
    apply not_elem_of_cons in He as [He _]. by apply Hother.
  - destruct (IH tr1) as [Hdom' Hother']. split; [by etrans|].
    intros e He. apply not_elem_of_cons in He as [He1 He2].
    rewrite Hother' by done. by apply Hother.
Qed.

(** X18. [JoinLocalMatches] never takes an experiment out of the restart table:
    whatever the matches and the order of the loops, and whether the call
    fails or not, every experiment that was in the table is still in it,
    the entries of experiments that the third loop does not visit are
    untouched, and the address and the store of the manager are as
    before. *)
Theorem JoinLocalMatches_keeps_entries ti s matches sched :
  curIP (JoinLocalMatches ti s matches sched).1 = curIP s
  ∧ ism (JoinLocalMatches ti s matches sched).1 = ism s
  ∧ dom (toRestart s) ⊆ dom (toRestart (JoinLocalMatches ti s matches sched).1)
  ∧ ∀ e, e ∉ v_experiment <$> sched →
         toRestart (JoinLocalMatches ti s matches sched).1 !! e = toRestart s !! e.
Proof.
  unfold JoinLocalMatches.
  destruct (merge_matches (page s) matches) as [pg [err|]]; simpl; [done|].
  destruct (experiments_loop_keeps ti sched (toRestart s)) as [Hdom Hother].
  destruct (experiments_loop ti sched (toRestart s)) as [tr' err]. simpl in *.
  by split_and!.
Qed.

(** ** The order of the third loop *)

Lemma experiments_loop_decided_no_conflict ti pg sched tr tr' :
  schedule_of (group_page pg) sched →
  experiments_loop ti sched tr = (tr', None) →
  no_conflict ti pg.
Proof.
  intros Hsched Hloop e h h' m m' Hm Hm'.
  destruct (experiments_loop_ok ti sched tr tr' (schedule_NoDup _ _ Hsched) Hloop)
    as [_ Hin].
  destruct (group_page_observed _ _ _ _ Hm) as (hs & Hrow & _).
  destruct (schedule_covers _ _ _ _ Hsched Hrow) as (v & Hv & <-).
  destruct (Hin v Hv) as (tr0 & tr1 & Hdec & _).
  assert (visit_of (group_page pg) v) as Hvis.
  { destruct Hsched as [_ Hall]. rewrite Forall_forall in Hall. by apply Hall. }
  by apply (visit_decides_agree ti pg v tr0 tr1 Hvis Hdec h h').
Qed.

Lemma experiments_loop_outcome ti pg sched tr :
  schedule_of (group_page pg) sched →
  (no_conflict ti pg ∧ (experiments_loop ti sched tr).2 = None)
  ∨ (¬ no_conflict ti pg
     ∧ (experiments_loop ti sched tr).2 = Some (ErrNew "run args are not equal")).
Proof.
  intros Hsched.
  destruct (experiments_loop_split ti sched tr)
    as [[tr' Hok]|(pre & v & post & tr' & err & -> & _ & Hfail & Hres)].
  - left. split; [by eapply experiments_loop_decided_no_conflict|]. by rewrite Hok.
  - right.
    assert (visit_of (group_page pg) v) as Hvis.
    { destruct Hsched as [_ Hall]. rewrite Forall_forall in Hall.
      apply Hall. apply elem_of_app. right. by left. }
    destruct (visit_fails_conflict ti pg v err Hvis Hfail)
      as (-> & h & h' & m & m' & Hm & Hm' & HE).
    split; [|by rewrite Hres]. intros Hnc.
    rewrite (Hnc _ _ _ _ _ Hm Hm') in HE. done.
Qed.

Lemma restart_cases pg e :
  (∃ h m, cell pg h e = Some m ∧ ShouldRestart m = true)
  ∨ (∀ h m, cell pg h e = Some m → ShouldRestart m = false).
Proof.
  destruct (decide (Exists (λ hm, ShouldRestart hm.2 = true)
                      (map_to_list (default ∅ (group_page pg !! e))))) as [Hd|Hd].
  - left. apply Exists_exists in Hd as ([h m] & Hin & HS). exists h, m. split; [|done].
    destruct (group_page pg !! e) as [hs|] eqn:Hrow; simpl in Hin.
    + apply elem_of_map_to_list in Hin. by rewrite <- (group_page_row _ _ _ Hrow).
    + rewrite map_to_list_empty in Hin. by apply elem_of_nil in Hin.
  - right. intros h m Hc. destruct (ShouldRestart m) eqn:HS; [|done].
    exfalso. apply Hd, Exists_exists. exists (h, m). split; [|done].
    destruct (group_page_observed _ _ _ _ Hc) as (hs & Hrow & Hh).
    rewrite Hrow. simpl. by apply elem_of_map_to_list.
Qed.

(** X19. The outcome of [JoinLocalMatches] does not depend on the order in which
    the runtime ranges over the maps, up to what [Equal] tells apart: for
    two schedules of the third loop over the same merged page the call
    fails under both or under neither, with the same error, and it fails
    exactly when two hosts report, for one experiment, arguments that
    [Equal] tells apart; the page is the same; and when the call succeeds
    the two restart tables hold the same experiments, with arguments that
    [Equal] takes for the same. *)
Theorem JoinLocalMatches_order_independent ti s matches pg sched1 sched2 :
  merge_matches (page s) matches = (pg, None) →
  schedule_of (group_page pg) sched1 →
  schedule_of (group_page pg) sched2 →
  (JoinLocalMatches ti s matches sched1).2 = (JoinLocalMatches ti s matches sched2).2
  ∧ ((JoinLocalMatches ti s matches sched1).2 = None ↔ no_conflict ti pg)
  ∧ page (JoinLocalMatches ti s matches sched1).1
    = page (JoinLocalMatches ti s matches sched2).1
  ∧ ((JoinLocalMatches ti s matches sched1).2 = None →
     ∀ e, match toRestart (JoinLocalMatches ti s matches sched1).1 !! e,
                toRestart (JoinLocalMatches ti s matches sched2).1 !! e with
          | Some a, Some b => Equal ti a b = true
          | None, None => True
          | _, _ => False
          end).
Proof.
  intros Hmerge Hs1 Hs2. unfold JoinLocalMatches. rewrite Hmerge.
  pose proof (experiments_loop_outcome ti pg sched1 (toRestart s) Hs1) as Hout1.
  pose proof (experiments_loop_outcome ti pg sched2 (toRestart s) Hs2) as Hout2.
  destruct (experiments_loop ti sched1 (toRestart s)) as [tr1 err1] eqn:Hloop1.
  destruct (experiments_loop ti sched2 (toRestart s)) as [tr2 err2] eqn:Hloop2.
  simpl in *. split_and!.
  - destruct Hout1 as [[Hnc1 ->]|[Hc1 ->]], Hout2 as [[Hnc2 ->]|[Hc2 ->]]; done.
  - destruct Hout1 as [[Hnc1 ->]|[Hc1 ->]]; [done|]. split; [done|]. intros Hnc. by destruct Hc1.
  - done.
  - intros ->. destruct Hout1 as [[Hnc _]|[_ [=]]].
    destruct Hout2 as [[_ ->]|[Hc2 _]]; [|done].
    intros e.
    destruct (experiments_loop_entry ti pg sched1 _ _ e Hs1 Hloop1) as [Hyes1 Hno1].
    destruct (experiments_loop_entry ti pg sched2 _ _ e Hs2 Hloop2) as [Hyes2 Hno2].
    destruct (restart_cases pg e) as [Hex|Hall].
    + destruct (Hyes1 Hex) as (h1 & m1 & Hc1 & ->).
      destruct (Hyes2 Hex) as (h2 & m2 & Hc2 & ->).
      by apply (Hnc e h1 h2).
    + rewrite (Hno1 Hall), (Hno2 Hall).
      destruct (toRestart s !! e); [apply Equal_refl|done].
Qed.

Lemma JoinLocalMatches_order_independent_witness :
  let live := mkStateMatch Running 137 (sample_args "exp" 8) in
  let crashed := mkStateMatch Running 1 (sample_args "exp" 8) in
  let matches := [sample_page "10.0.0.1" [("proj-exp", live)];
                  sample_page "10.0.0.2" [("proj-exp", crashed)]] in
  let pg := sample_merged [("proj-exp", live)] [("proj-exp", crashed)] in
  let sched1 := [sample_visit "proj-exp" live crashed] in
  let sched2 := [mkVisit "proj-exp" [("10.0.0.2", crashed); ("10.0.0.1", live)]
                   [("10.0.0.2", crashed); ("10.0.0.1", live)]] in
  (JoinLocalMatches sample_typeInfo sample_manager matches sched1).2
  = (JoinLocalMatches sample_typeInfo sample_manager matches sched2).2
  ∧ ((JoinLocalMatches sample_typeInfo sample_manager matches sched1).2 = None
     ↔ no_conflict sample_typeInfo pg)
  ∧ page (JoinLocalMatches sample_typeInfo sample_manager matches sched1).1
    = page (JoinLocalMatches sample_typeInfo sample_manager matches sched2).1
  ∧ ((JoinLocalMatches sample_typeInfo sample_manager matches sched1).2 = None →
     ∀ e, match toRestart (JoinLocalMatches sample_typeInfo sample_manager matches sched1).1
                !! e,
                toRestart (JoinLocalMatches sample_typeInfo sample_manager matches sched2).1
                !! e with
          | Some a, Some b => Equal sample_typeInfo a b = true
          | None, None => True
          | _, _ => False
          end).
Proof.
  intros live crashed matches pg sched1 sched2.
  refine (JoinLocalMatches_order_independent sample_typeInfo sample_manager matches pg
            sched1 sched2 _ _ _).
  - exact (proj1 (sample_one_job live crashed)).
  - exact (proj2 (sample_one_job live crashed)).
  - split.
    + apply keys_intro; [nodup_compute|by_compute].
    + repeat constructor. exists {[ "10.0.0.1" := live; "10.0.0.2" := crashed ]}.
      split_and!; [by_compute|range_compute|range_compute].
Defined.

(** ** When the derivation of the expected state panics *)

Lemma Split_lookup_1_None tok c :
  GoStrings.Split tok c !! 1%nat = None ↔ count_byte c tok = 0%nat.
Proof.
  rewrite lookup_ge_None, Split_count. lia.
Qed.

Lemma Restartable_loop_panics rest :
  (∃ msg, Restartable_loop rest = Panic msg) ↔
  ∃ pre tok post,
    rest = pre ++ tok :: post
    ∧ Forall (λ t, GoStrings.HasPrefix t "hf_action_restartable" = true →
                   ∃ v, GoStrings.Split t "="%char !! 1%nat = Some v ∧ v ≠ "running") pre
    ∧ GoStrings.HasPrefix tok "hf_action_restartable" = true
    ∧ count_byte "=" tok = 0%nat.
Proof.
  induction rest as [|arg rest IH]; simpl.
  - split; [by intros [msg [=]]|]. intros (pre & tok & post & Hnil & _).
    by destruct pre.
  - destruct (GoStrings.HasPrefix arg "hf_action_restartable") eqn:Hpre.
    + destruct (GoStrings.Split arg "="%char !! 1%nat) as [v|] eqn:Hv.
      * destruct (decide (v = "running")) as [->|Hne].
        -- split; [by intros [msg [=]]|].
           intros (pre & tok & post & Heq & Hall & Htok & Hcount).
           destruct pre as [|t pre]; simplify_eq/=.
           ++ apply Split_lookup_1_None in Hcount. congruence.
           ++ inversion_clear Hall as [|?? Ht _].
              destruct (Ht Hpre) as (v & Hv' & Hne). congruence.
        -- rewrite IH. split.
           ++ intros (pre & tok & post & -> & Hall & Htok & Hcount).
              exists (arg :: pre), tok, post. split_and!; [done| |done|done].
              constructor; [|done]. intros _. by exists v.
           ++ intros (pre & tok & post & Heq & Hall & Htok & Hcount).
              destruct pre as [|t pre]; simplify_eq/=.
              ** apply Split_lookup_1_None in Hcount. congruence.
              ** inversion_clear Hall. by exists pre, tok, post.
      * split; [|by eexists]. intros _.
        exists [], arg, rest. split_and!; [done|constructor|done|].
        by apply Split_lookup_1_None.
    + rewrite IH. split.
      * intros (pre & tok & post & -> & Hall & Htok & Hcount).
        exists (arg :: pre), tok, post. split_and!; [done| |done|done].
        constructor; [|done]. congruence.
      * intros (pre & tok & post & Heq & Hall & Htok & Hcount).
        destruct pre as [|t pre]; simplify_eq/=; [congruence|].
        inversion_clear Hall. by exists pre, tok, post.
Qed.

Lemma Restartable_loop_no_exit rest code : Restartable_loop rest ≠ Exit code.
Proof.
  induction rest as [|arg rest IH]; simpl; [done|].
  repeat case_match; done.
Qed.

(** X20. [Restartable] panics exactly when the first token of Rest that starts
    with [hf_action_restartable] and does not carry a value other than
    [running] after its first [=] has no [=] at all; tokens after a token
    that decides for Running are never looked at. *)
Theorem Restartable_panics_iff r :
  ((∃ msg, Restartable r = Panic msg) ↔
   ∃ pre tok post,
     Rest r = pre ++ tok :: post
     ∧ Forall (λ t, GoStrings.HasPrefix t "hf_action_restartable" = true →
                    ∃ v, GoStrings.Split t "="%char !! 1%nat = Some v ∧ v ≠ "running") pre
     ∧ GoStrings.HasPrefix tok "hf_action_restartable" = true
     ∧ count_byte "=" tok = 0%nat)
  ∧ (∀ code, Restartable r ≠ Exit code)
  ∧ (∀ pre tok post,
       Rest r = pre ++ tok :: post →
       Forall (λ t, GoStrings.HasPrefix t "hf_action_restartable" = false) pre →
       GoStrings.HasPrefix tok "hf_action_restartable" = true →
       GoStrings.Split tok "="%char !! 1%nat = Some "running" →
       Restartable r = Ret Running).
Proof.
  unfold Restartable. split_and!.
  - destruct (decide (length (Rest r) = 0%nat)) as [Hlen|Hlen].
    + apply nil_length_inv in Hlen. rewrite Hlen.
      split; [by intros [msg [=]]|]. intros (pre & tok & post & Hnil & _).
      by destruct pre.
    + apply Restartable_loop_panics.
  - intros code. case_decide; [done|]. apply Restartable_loop_no_exit.
  - intros pre tok post Hrest Hpre Htok Hv. rewrite Hrest.
    rewrite decide_False by (rewrite length_app; simpl; lia).
    clear Hrest. induction Hpre as [|t pre Ht _ IH]; simpl.
    + by rewrite Htok, Hv.
    + by rewrite Ht.
Qed.

(** ** The address lookups of [Run] *)

(** X21. With one host in the list [Run] consults no address and ignores the
    master override: the master is [localhost] and the rank 0, whatever the
    lookups would return.  With two hosts or more, a failed lookup of the
    public address or of the local addresses ends the process with exit
    code 1. *)
Theorem Run_master_rank_lookups (args : RunArgs) (err : error) :
  errors_Is err ErrOmitHost = false →
  (∀ h myPublicIP localIPs,
     Hosts args = [h] → Run_master_rank myPublicIP localIPs args = Ret ("localhost", 0))
  ∧ (∀ ip localIPs,
       (1 < length (Hosts args))%nat →
       masterAndRankElseExit (ip, Some err) localIPs (Hosts args) = Exit 1
       ∧ Run_master_rank (ip, Some err) localIPs args = Exit 1)
  ∧ (∀ ip locals,
       (1 < length (Hosts args))%nat →
       masterAndRankElseExit (ip, None) (locals, Some err) (Hosts args) = Exit 1
       ∧ Run_master_rank (ip, None) (locals, Some err) args = Exit 1).
Proof.
  intros Herr.
  assert ((1 < length (Hosts args))%nat → ∃ m, masterHostElseFirstHost args = Ret m) as Hm.
  { intros Hlen. destruct (Hosts args) as [|first rest] eqn:Hh; [simpl in Hlen; lia|].
    eexists. by apply (masterHostElseFirstHost_spec args first rest). }
  split_and!.
  - intros h myPublicIP localIPs Hh. unfold Run_master_rank.
    rewrite (masterHostElseFirstHost_spec args h []) by done.
    simpl. rewrite Hh. by rewrite decide_False by (simpl; lia).
  - intros ip localIPs Hlen.
    assert (masterAndRankElseExit (ip, Some err) localIPs (Hosts args) = Exit 1) as Hexit.
    { unfold masterAndRankElseExit, masterAndRank. simpl. by rewrite Herr. }
    split; [done|]. unfold Run_master_rank. destruct (Hm Hlen) as [m ->]. simpl.
    rewrite decide_True by done. by rewrite Hexit.
  - intros ip locals Hlen.
    assert (masterAndRankElseExit (ip, None) (locals, Some err) (Hosts args) = Exit 1)
      as Hexit.
    { unfold masterAndRankElseExit, masterAndRank. simpl. by rewrite Herr. }
    split; [done|]. unfold Run_master_rank. destruct (Hm Hlen) as [m ->]. simpl.
    rewrite decide_True by done. by rewrite Hexit.
Qed.

Lemma Run_master_rank_lookups_witness :
  (∀ h myPublicIP localIPs,
     Hosts (sample_args "exp" 8) = [h] →
     Run_master_rank myPublicIP localIPs (sample_args "exp" 8) = Ret ("localhost", 0))
  ∧ (∀ ip localIPs,
       (1 < length (Hosts (sample_args "exp" 8)))%nat →
       masterAndRankElseExit (ip, Some (ErrNew "no route to host")) localIPs
         (Hosts (sample_args "exp" 8)) = Exit 1
       ∧ Run_master_rank (ip, Some (ErrNew "no route to host")) localIPs
           (sample_args "exp" 8) = Exit 1)
  ∧ (∀ ip locals,
       (1 < length (Hosts (sample_args "exp" 8)))%nat →
       masterAndRankElseExit (ip, None) (locals, Some (ErrNew "no route to host"))
         (Hosts (sample_args "exp" 8)) = Exit 1
       ∧ Run_master_rank (ip, None) (locals, Some (ErrNew "no route to host"))
           (sample_args "exp" 8) = Exit 1).
Proof.
  apply (Run_master_rank_lookups (sample_args "exp" 8) (ErrNew "no route to host")).
  reflexivity.
Defined.

(** ** Splitting and cleaning paths *)

Lemma Split_app_sep a b c :
  GoStrings.Split (a +:+ String c b) c = GoStrings.Split a c ++ GoStrings.Split b c.
Proof.
  induction a as [|d a IH].
  - change ("" +:+ String c b) with (String c b). simpl. by rewrite Ascii.eqb_refl.
  - change (String d a +:+ String c b) with (String d (a +:+ String c b)). simpl.
    rewrite IH. destruct (Ascii.eqb d c); [done|].
    destruct (GoStrings.Split a c) as [|x xs] eqn:E; [by apply Split_nonempty in E|done].
Qed.

Lemma Split_no_sep s c : Forall (λ x, count_byte c x = 0%nat) (GoStrings.Split s c).
Proof.
  induction s as [|d s IH]; simpl; [by repeat constructor|].
  destruct (Ascii.eqb d c) eqn:Hd; [by constructor|].
  destruct (GoStrings.Split s c) as [|x xs]; [repeat constructor; simpl; by rewrite Hd|].
  inversion_clear IH. constructor; [|done]. simpl. by rewrite Hd.
Qed.

Lemma Split_Join elems c :
  elems ≠ [] →
  Forall (λ x, count_byte c x = 0%nat) elems →
  GoStrings.Split (GoStrings.Join elems (String c "")) c = elems.
Proof.
  intros Hne Hall. induction Hall as [|x elems Hx Hall IH]; [done|].
  destruct elems as [|y elems]; [by apply Split_nosep|].
  rewrite Join_cons. change (String c "" +:+ ?s) with (String c s).
  rewrite Split_app_nosep by done. by rewrite IH.
Qed.

Lemma Split_app_last a b c init l :
  count_byte c b = 0%nat →
  GoStrings.Split a c = init ++ [l] →
  GoStrings.Split (a +:+ b) c = init ++ [l +:+ b].
Proof.
  intros Hb. revert init l. induction a as [|d a IH]; intros init l.
  - simpl. intros Heq. destruct init as [|i init]; [|by destruct init].
    injection Heq as <-. by apply Split_nosep.
  - change (String d a +:+ b) with (String d (a +:+ b)). simpl.
    destruct (GoStrings.Split a c) as [|x xs] eqn:E; [by apply Split_nonempty in E|].
    destruct (Ascii.eqb d c).
    + intros Heq. destruct init as [|i init]; [done|].
      injection Heq as <- Heq. by rewrite (IH init l).
    + intros Heq. destruct init as [|i init].
      * injection Heq as <- ->. by rewrite (IH [] x).
      * injection Heq as <- ->. by rewrite (IH (x :: init) l).
Qed.

Lemma clean_elems_app r xs ys out :
  GoPath.clean_elems r (xs ++ ys) out
  = GoPath.clean_elems r ys (rev (GoPath.clean_elems r xs out)).
Proof.
  revert out. induction xs as [|e xs IH]; intros out; simpl.
  - by rewrite rev_involutive.
  - repeat case_match; apply IH.
Qed.

Lemma clean_elems_keeps (P : string → Prop) r elems out :
  Forall P elems → Forall P out → Forall P (GoPath.clean_elems r elems out).
Proof.
  intros Helems. revert out. induction Helems as [|e elems He _ IH]; intros out Hout; simpl.
  - by apply Forall_rev.
  - repeat case_match; apply IH; try done; try (by constructor).
    all: by inversion_clear Hout.
Qed.

Lemma clean_elems_normal elems out :
  Forall normal out → Forall normal (GoPath.clean_elems true elems out).
Proof.
  revert out. induction elems as [|e elems IH]; intros out Hout; simpl.
  - by apply Forall_rev.
  - destruct (decide (e = "" ∨ e = ".")) as [He|He]; [by apply IH|].
    destruct (decide (e = "..")) as [->|He'].
    + destruct out as [|top out]; [by apply IH|].
      inversion_clear Hout as [|?? Htop Hout'].
      rewrite decide_False by (by destruct Htop as (_ & _ & ?)). by apply IH.
    + apply IH. constructor; [|done]. unfold normal. tauto.
Qed.

Lemma clean_elems_id r elems out :
  Forall normal elems → GoPath.clean_elems r elems out = rev out ++ elems.
Proof.
  intros Helems. revert out.
  induction Helems as [|e elems (He1 & He2 & He3) _ IH]; intros out; simpl.
  - by rewrite app_nil_r.
  - rewrite decide_False by tauto. rewrite decide_False by done.
    rewrite IH. simpl. by rewrite <- app_assoc.
Qed.

Lemma clean_elems_snoc r xs e :
  normal e →
  GoPath.clean_elems r (xs ++ [e]) [] = GoPath.clean_elems r xs [] ++ [e].
Proof.
  intros He. rewrite clean_elems_app.
  rewrite clean_elems_id by (constructor; [done|constructor]).
  by rewrite rev_involutive.
Qed.

Lemma clean_elems_snoc_empty r xs :
  GoPath.clean_elems r (xs ++ [""]) [] = GoPath.clean_elems r xs [].
Proof.
  rewrite clean_elems_app. simpl. by rewrite rev_involutive.
Qed.

Lemma length_append a b : String.length (a +:+ b) = (String.length a + String.length b)%nat.
Proof. induction a as [|c a IH]; [done|]. simpl in *. by rewrite IH. Qed.

Lemma normal_append l name : normal name → normal (l +:+ name).
Proof.
  intros (Hn1 & Hn2 & Hn3).
  assert (0 < String.length name)%nat as Hlen by (destruct name; [done|simpl; lia]).
  split_and!; intros Heq; pose proof (f_equal String.length Heq) as Hl;
    rewrite length_append in Hl; simpl in Hl.
  - lia.
  - destruct l as [|a l]; [done|simpl in Hl; lia].
  - destruct l as [|a l]; [done|]. destruct l as [|b l]; [|simpl in Hl; lia].
    destruct name as [|x name]; [done|]. destruct name as [|y name]; [|simpl in Hl; lia].
    change (String a "" +:+ String x "") with (String a (String x "")) in Heq.
    injection Heq as -> ->. done.
Qed.

Lemma resolve_rooted fs path :
  GoPath.rooted path = true →
  OS.resolve fs path = Some (GoPath.clean_elems true (GoStrings.Split path "/"%char) []).
Proof.
  intros Hr. unfold OS.resolve. rewrite Hr.
  rewrite decide_False by (by intros ->). done.
Qed.

Lemma rooted_append d s : GoPath.rooted d = true → GoPath.rooted (d +:+ s) = true.
Proof. destruct d as [|c d]; [done|]. done. Qed.

(** Where [filepath.Join] puts a plain name under a rooted directory path:
    at the cleaned elements of the path followed by the name. *)
Lemma resolve_Join fs d name :
  GoPath.rooted d = true →
  plain_name name →
  OS.resolve fs (GoPath.Join d name)
  = Some (GoPath.clean_elems true (GoStrings.Split d "/"%char) [] ++ [name]).
Proof.
  intros Hd [Hnormal Hslash].
  set (P := GoPath.clean_elems true (GoStrings.Split d "/"%char) []).
  assert (GoPath.Join d name = "/" +:+ GoStrings.Join (P ++ [name]) "/") as ->.
  { unfold GoPath.Join. rewrite decide_False by (by intros ->).
    rewrite decide_False by (by destruct Hnormal).
    unfold GoPath.Clean. rewrite decide_False by (by destruct d).
    rewrite rooted_append by done.
    change ("/" +:+ name) with (String "/" name).
    rewrite Split_app_sep, (Split_nosep name) by done.
    by rewrite clean_elems_snoc. }
  rewrite resolve_rooted by done.
  change ("/" +:+ ?s) with (String "/" s). simpl GoStrings.Split.
  assert (GoStrings.Split (GoStrings.Join (P ++ [name]) "/") "/" = P ++ [name]) as HS.
  { apply (Split_Join (P ++ [name]) "/"); [by destruct P|].
    apply Forall_app. split; [|constructor; [done|constructor]].
    apply clean_elems_keeps; [apply Split_no_sep|constructor]. }
  rewrite HS. destruct (P ++ [name]) as [|x xs] eqn:E; [by destruct P|].
  rewrite <- E. simpl.
  rewrite clean_elems_id; [done|].
  apply Forall_app. split; [|constructor; [done|constructor]].
  apply clean_elems_normal. constructor.
Qed.

(** Where the concatenation of a directory path that ends in a separator
    and a plain name points: the same place. *)
Lemma resolve_concat_separator fs d name :
  GoPath.rooted (d +:+ "/") = true →
  plain_name name →
  OS.resolve fs ((d +:+ "/") +:+ name)
  = Some (GoPath.clean_elems true (GoStrings.Split (d +:+ "/") "/"%char) [] ++ [name]).
Proof.
  intros Hd [Hnormal Hslash].
  rewrite resolve_rooted by (by apply rooted_append).
  assert (GoStrings.Split (d +:+ "/") "/" = GoStrings.Split d "/" ++ [""]) as HS.
  { change "/"%string with (String "/" "") at 1. by rewrite Split_app_sep. }
  rewrite (Split_app_last _ name "/" (GoStrings.Split d "/") "") by done.
  rewrite HS, clean_elems_snoc_empty.
  change ("" +:+ name) with name. by rewrite clean_elems_snoc.
Qed.

(** Where the concatenation of a directory path that does not end in a
    separator and a plain name points: at a sibling of the directory, whose
    name is the last element of the path with the name appended. *)
Lemma resolve_concat_no_separator fs d c name :
  c ≠ "/"%char →
  GoPath.rooted (d +:+ String c "") = true →
  plain_name name →
  ∃ init l,
    GoStrings.Split (d +:+ String c "") "/"%char = init ++ [l]
    ∧ l ≠ ""
    ∧ OS.resolve fs ((d +:+ String c "") +:+ name)
      = Some (GoPath.clean_elems true init [] ++ [l +:+ name]).
Proof.
  intros Hc Hd [Hnormal Hslash].
  destruct (exists_last (Split_nonempty d "/"%char)) as (init & l & HS).
  assert (count_byte "/" (String c "") = 0%nat) as Hcount.
  { simpl. destruct (Ascii.eqb c "/") eqn:E; [|done]. by apply Ascii.eqb_eq in E. }
  pose proof (Split_app_last d (String c "") "/" init l Hcount HS) as HS'.
  exists init, (l +:+ String c ""). split_and!; [done|by destruct l|].
  rewrite resolve_rooted by (by apply rooted_append).
  rewrite (Split_app_last _ name "/" init (l +:+ String c "")) by done.
  apply f_equal, clean_elems_snoc. by apply normal_append.
Qed.

(** ** Writing a state file and reading it back *)

Lemma stateFileName_plain p :
  count_byte "/" (PES_ProjectName p) = 0%nat →
  count_byte "/" (PES_ExperimentName p) = 0%nat →
  isValidState (PES_State p) = true →
  plain_name (stateFileName p).
Proof.
  intros Hp He Hst.
  assert (PES_State p = "running" ∨ PES_State p = "stoppable") as Hcases.
  { unfold isValidState in Hst. repeat case_decide; [by left|by right|done]. }
  assert (count_byte "/" (PES_State p) = 0%nat ∧ (2 < String.length (PES_State p))%nat)
    as [Hs Hlen] by (destruct Hcases as [-> | ->]; split; simpl; (done || lia)).
  unfold stateFileName. split.
  - assert (2 < String.length (PES_ProjectName p +:+ "." +:+ PES_ExperimentName p
                               +:+ "." +:+ PES_State p))%nat as Hl.
    { rewrite !length_append. lia. }
    split_and!; intros Heq; rewrite Heq in Hl; simpl in Hl; lia.
  - rewrite !count_byte_app, Hp, He, Hs. done.
Qed.

Lemma node_at_snoc fs q e : OS.node_at fs (q ++ [e]) = OS.nodes fs !! (q ++ [e]).
Proof. unfold OS.node_at. rewrite decide_False; [done|]. by destruct q. Qed.

Lemma parent_snoc q (e : string) : OS.parent (q ++ [e]) = q.
Proof. unfold OS.parent. apply removelast_last. Qed.

(** What [Write] does when the directory exists and no directory stands in
    the way of the file. *)
Lemma Write_creates json_Marshal fs p path body :
  GoPath.rooted path = true →
  plain_name (stateFileName p) →
  OS.node_at fs (dir_elems path) = Some OS.Dir →
  OS.node_at fs (dir_elems path ++ [stateFileName p]) ≠ Some OS.Dir →
  json_Marshal (PES_RunArgs p) = (body, None) →
  Write json_Marshal fs p path
  = (OS.mkFS (OS.cwd fs)
       (<[dir_elems path ++ [stateFileName p] := OS.File body]> (OS.nodes fs)), None).
Proof.
  intros Hroot Hplain Hdir Hfree Hbody. unfold Write.
  change (PES_ProjectName p +:+ "." +:+ PES_ExperimentName p +:+ "." +:+ PES_State p)
    with (stateFileName p).
  unfold OS.Create. rewrite (resolve_Join fs path (stateFileName p)) by done.
  fold (dir_elems path). rewrite parent_snoc, Hdir.
  destruct (OS.node_at fs (dir_elems path ++ [stateFileName p])) as [[c|]|] eqn:Hnode;
    [| done |]; rewrite Hbody; unfold OS.Write; simpl;
    rewrite lookup_insert_eq; by rewrite insert_insert_eq.
Qed.

(** X22. With a rooted directory path that ends in a separator, an existing
    directory, names without separator or dot, a recognized state and
    arguments that the JSON decoder reads back from what the encoder wrote,
    [Write] stores the entry and [readState] on the name of the file, in
    the file system after the write, gives back the same entry. *)
Theorem Write_then_readState json_Marshal json_Decode fs r d p body :
  defaultRestartPath r = d +:+ "/" →
  GoPath.rooted (d +:+ "/") = true →
  count_byte "/" (PES_ProjectName p) = 0%nat →
  count_byte "/" (PES_ExperimentName p) = 0%nat →
  count_byte "." (PES_ProjectName p) = 0%nat →
  count_byte "." (PES_ExperimentName p) = 0%nat →
  isValidState (PES_State p) = true →
  OS.node_at fs (dir_elems (d +:+ "/")) = Some OS.Dir →
  OS.node_at fs (dir_elems (d +:+ "/") ++ [stateFileName p]) ≠ Some OS.Dir →
  json_Marshal (PES_RunArgs p) = (body, None) →
  json_Decode body = (PES_RunArgs p, None) →
  ∃ fs',
    Write json_Marshal fs p (defaultRestartPath r) = (fs', None)
    ∧ OS.nodes fs'
      = <[dir_elems (d +:+ "/") ++ [stateFileName p] := OS.File body]> (OS.nodes fs)
    ∧ isStateFile (stateFileName p) = true
    ∧ readState json_Decode fs' r (stateFileName p) = (Some p, None).
Proof.
  intros Hpath Hroot Hp He Hpd Hed Hst Hdir Hfree Hbody Hback.
  pose proof (stateFileName_plain p Hp He Hst) as Hplain.
  assert (count_byte "." (PES_State p) = 0%nat) as Hsd.
  { unfold isValidState in Hst.
    repeat case_decide; [| |done]; by match goal with H : PES_State p = _ |- _ => rewrite H end. }
  assert (GoStrings.Split (stateFileName p) "."%char
          = [PES_ProjectName p; PES_ExperimentName p; PES_State p]) as Hsplit.
  { unfold stateFileName.
    change ("." +:+ PES_ExperimentName p +:+ "." +:+ PES_State p)
      with (String "." (PES_ExperimentName p +:+ "." +:+ PES_State p)).
    rewrite Split_app_nosep by done.
    change ("." +:+ PES_State p) with (String "." (PES_State p)).
    rewrite Split_app_nosep by done. by rewrite Split_nosep. }
  eexists. rewrite Hpath. split_and!.
  - by apply Write_creates.
  - done.
  - unfold isStateFile. by rewrite Hsplit.
  - unfold readState, OS.Open. rewrite Hpath. simpl OS.cwd.
    rewrite (resolve_concat_separator _ d (stateFileName p)) by done.
    fold (dir_elems (d +:+ "/")). rewrite node_at_snoc. simpl.
    rewrite lookup_insert_eq.
    rewrite Hsplit, Hst. simpl.
    rewrite Hback. by destruct p.
Qed.

Lemma Write_then_readState_witness :
  ∃ fs',
    Write (λ _, ("{}", None))
      (OS.mkFS [] {[ ["states"] := OS.Dir ]})
      (mkProjectExperimentState "proj" "exp" Running (sample_args "exp" 8))
      (defaultRestartPath (mkInnerStateManager "/states/" (Some ∅))) = (fs', None)
    ∧ OS.nodes fs'
      = <[dir_elems ("/states" +:+ "/")
          ++ [stateFileName (mkProjectExperimentState "proj" "exp" Running
                               (sample_args "exp" 8))] := OS.File "{}"]>
          (OS.nodes (OS.mkFS [] {[ ["states"] := OS.Dir ]}))
    ∧ isStateFile (stateFileName (mkProjectExperimentState "proj" "exp" Running
                                    (sample_args "exp" 8))) = true
    ∧ readState (λ _, (sample_args "exp" 8, None)) fs'
        (mkInnerStateManager "/states/" (Some ∅))
        (stateFileName (mkProjectExperimentState "proj" "exp" Running (sample_args "exp" 8)))
      = (Some (mkProjectExperimentState "proj" "exp" Running (sample_args "exp" 8)), None).
Proof.
  apply (Write_then_readState (λ _, ("{}", None)) (λ _, (sample_args "exp" 8, None))
           (OS.mkFS [] {[ ["states"] := OS.Dir ]})
           (mkInnerStateManager "/states/" (Some ∅)) "/states"
           (mkProjectExperimentState "proj" "exp" Running (sample_args "exp" 8)) "{}");
    first [reflexivity | vm_compute; discriminate].
Defined.

(** X23. With a rooted directory path that does not end in a separator, [Write]
    puts the file into the directory, but the concatenation of the path and
    the file name, which [readState] opens and [UpdateStates] removes, points
    at a sibling of the directory: unless something exists there, reading the
    state back fails with the open error and removing the file fails too. *)
Theorem Write_then_readState_no_separator json_Marshal json_Decode fs r d c p body :
  defaultRestartPath r = d +:+ String c "" →
  c ≠ "/"%char →
  GoPath.rooted (d +:+ String c "") = true →
  count_byte "/" (PES_ProjectName p) = 0%nat →
  count_byte "/" (PES_ExperimentName p) = 0%nat →
  isValidState (PES_State p) = true →
  OS.node_at fs (dir_elems (d +:+ String c "")) = Some OS.Dir →
  OS.node_at fs (dir_elems (d +:+ String c "") ++ [stateFileName p]) ≠ Some OS.Dir →
  json_Marshal (PES_RunArgs p) = (body, None) →
  ∃ fs' q,
    Write json_Marshal fs p (defaultRestartPath r) = (fs', None)
    ∧ OS.nodes fs' !! (dir_elems (d +:+ String c "") ++ [stateFileName p])
      = Some (OS.File body)
    ∧ OS.resolve fs' (defaultRestartPath r +:+ stateFileName p) = Some q
    ∧ q ≠ dir_elems (d +:+ String c "") ++ [stateFileName p]
    ∧ (OS.node_at fs q = None →
       readState json_Decode fs' r (stateFileName p)
       = (None, Some (WithMessage OS.ENOENT
                        ("failed to open state file " +:+ stateFileName p)))
       ∧ OS.Remove fs' (defaultRestartPath r +:+ stateFileName p) = (fs', Some OS.ENOENT)).
Proof.
  intros Hpath Hc Hroot Hp He Hst Hdir Hfree Hbody.
  pose proof (stateFileName_plain p Hp He Hst) as Hplain.
  destruct (resolve_concat_no_separator fs d c (stateFileName p) Hc Hroot Hplain)
    as (init & l & HS & Hl & Hres).
  set (q := GoPath.clean_elems true init [] ++ [l +:+ stateFileName p]) in *.
  assert (q ≠ dir_elems (d +:+ String c "") ++ [stateFileName p]) as Hq.
  { intros Heq. apply app_inj_tail in Heq as [_ Heq].
    apply (f_equal String.length) in Heq. rewrite length_append in Heq.
    destruct l; [done|simpl in Heq; lia]. }
  eexists _, q. rewrite Hpath. split_and!.
  - by apply Write_creates.
  - simpl. apply lookup_insert_eq.
  - exact Hres.
  - done.
  - intros Hnone.
    assert (OS.nodes fs !! q = None) as Hnone'.
    { unfold q in *. by rewrite node_at_snoc in Hnone. }
    split.
    + unfold readState, OS.Open. rewrite Hpath.
      replace (OS.resolve _ ((d +:+ String c "") +:+ stateFileName p)) with (Some q)
        by (by symmetry).
      unfold q at 1. rewrite node_at_snoc. fold q. simpl.
      by rewrite lookup_insert_ne, Hnone'.
    + unfold OS.Remove.
      replace (OS.resolve _ ((d +:+ String c "") +:+ stateFileName p)) with (Some q)
        by (by symmetry).
      simpl. by rewrite lookup_insert_ne, Hnone'.
Qed.

Lemma Write_then_readState_no_separator_witness :
  ∃ fs' q,
    Write (λ _, ("{}", None))
      (OS.mkFS [] {[ ["tmp"] := OS.Dir; ["tmp"; "invoker-states"] := OS.Dir ]})
      (mkProjectExperimentState "proj" "exp" Running (sample_args "exp" 8))
      (defaultRestartPath (mkInnerStateManager restartDir (Some ∅))) = (fs', None)
    ∧ OS.nodes fs'
        !! (dir_elems ("/tmp/invoker-state" +:+ String "s" "")
            ++ [stateFileName (mkProjectExperimentState "proj" "exp" Running
                                 (sample_args "exp" 8))])
      = Some (OS.File "{}")
    ∧ OS.resolve fs'
        (defaultRestartPath (mkInnerStateManager restartDir (Some ∅))
         +:+ stateFileName (mkProjectExperimentState "proj" "exp" Running
                              (sample_args "exp" 8))) = Some q
    ∧ q ≠ dir_elems ("/tmp/invoker-state" +:+ String "s" "")
          ++ [stateFileName (mkProjectExperimentState "proj" "exp" Running
                               (sample_args "exp" 8))]
    ∧ (OS.node_at (OS.mkFS [] {[ ["tmp"] := OS.Dir; ["tmp"; "invoker-states"] := OS.Dir ]}) q
       = None →
       readState (λ _, (sample_args "exp" 8, None)) fs'
         (mkInnerStateManager restartDir (Some ∅))
         (stateFileName (mkProjectExperimentState "proj" "exp" Running (sample_args "exp" 8)))
       = (None, Some (WithMessage OS.ENOENT
                        ("failed to open state file "
                         +:+ stateFileName (mkProjectExperimentState "proj" "exp" Running
                                              (sample_args "exp" 8)))))
       ∧ OS.Remove fs'
           (defaultRestartPath (mkInnerStateManager restartDir (Some ∅))
            +:+ stateFileName (mkProjectExperimentState "proj" "exp" Running
                                 (sample_args "exp" 8)))
         = (fs', Some OS.ENOENT)).
Proof.
  apply (Write_then_readState_no_separator (λ _, ("{}", None))
           (λ _, (sample_args "exp" 8, None))
           (OS.mkFS [] {[ ["tmp"] := OS.Dir; ["tmp"; "invoker-states"] := OS.Dir ]})
           (mkInnerStateManager restartDir (Some ∅)) "/tmp/invoker-state" "s"
           (mkProjectExperimentState "proj" "exp" Running (sample_args "exp" 8)) "{}");
    first [reflexivity | vm_compute; discriminate].
Defined.

Lemma FillStates_loop_first_fails json_Decode fs files : ∀ r name rest err,
  state_files files = name :: rest →
  readState json_Decode fs r name = (None, Some err) →
  FillStates_loop json_Decode fs r files = Ret (r, Some err).
Proof.
  induction files as [|file files IH]; intros r name rest err; [done|].
  rewrite state_files_cons. simpl.
  destruct (OS.IsDir file); [apply IH|].
  destruct (isStateFile (OS.Name file)); simpl negb; cbv iota; [|apply IH].
  intros [= -> _] Hread. by rewrite Hread.
Qed.

(** X24. With a rooted directory path that does not end in a separator,
    [FillStates] fails on the first state file of the directory: it opens
    the concatenation of the path and the file name, which points at a
    sibling of the directory, and unless something exists there it returns
    the open error and leaves the store as it is. *)
Theorem FillStates_no_separator json_Decode fs r d c files name rest :
  defaultRestartPath r = d +:+ String c "" →
  c ≠ "/"%char →
  GoPath.rooted (d +:+ String c "") = true →
  OS.ReadDir fs (defaultRestartPath r) = (files, None) →
  state_files files = name :: rest →
  plain_name name →
  ∃ q,
    OS.resolve fs (defaultRestartPath r +:+ name) = Some q
    ∧ q ≠ dir_elems (defaultRestartPath r) ++ [name]
    ∧ (OS.node_at fs q = None →
       FillStates json_Decode fs r
       = Ret (r, Some (WithMessage OS.ENOENT ("failed to open state file " +:+ name)))).
Proof.
  intros Hpath Hc Hroot Hdir Hfiles Hplain.
  destruct (resolve_concat_no_separator fs d c name Hc Hroot Hplain)
    as (init & l & HS & Hl & Hres).
  exists (GoPath.clean_elems true init [] ++ [l +:+ name]). rewrite Hpath. split_and!.
  - exact Hres.
  - intros Heq. apply app_inj_tail in Heq as [_ Heq].
    apply (f_equal String.length) in Heq. rewrite length_append in Heq.
    destruct l; [done|simpl in Heq; lia].
  - intros Hnone. unfold FillStates. rewrite Hdir.
    apply (FillStates_loop_first_fails _ _ _ _ name rest); [done|].
    unfold readState, OS.Open. rewrite Hpath, Hres. by rewrite Hnone.
Qed.

Lemma FillStates_no_separator_witness :
  ∃ q,
    OS.resolve (OS.mkFS [] {[ ["tmp"] := OS.Dir; ["tmp"; "invoker-states"] := OS.Dir;
                              ["tmp"; "invoker-states"; "proj.exp.running"] := OS.File "{}" ]})
      (defaultRestartPath (mkInnerStateManager restartDir (Some ∅)) +:+ "proj.exp.running")
    = Some q
    ∧ q ≠ dir_elems (defaultRestartPath (mkInnerStateManager restartDir (Some ∅)))
          ++ ["proj.exp.running"]
    ∧ (OS.node_at (OS.mkFS [] {[ ["tmp"] := OS.Dir; ["tmp"; "invoker-states"] := OS.Dir;
                                 ["tmp"; "invoker-states"; "proj.exp.running"]
                                 := OS.File "{}" ]}) q = None →
       FillStates (λ _, (sample_args "exp" 8, None))
         (OS.mkFS [] {[ ["tmp"] := OS.Dir; ["tmp"; "invoker-states"] := OS.Dir;
                        ["tmp"; "invoker-states"; "proj.exp.running"] := OS.File "{}" ]})
         (mkInnerStateManager restartDir (Some ∅))
       = Ret (mkInnerStateManager restartDir (Some ∅),
              Some (WithMessage OS.ENOENT
                      ("failed to open state file " +:+ "proj.exp.running")))).
Proof.
  apply (FillStates_no_separator (λ _, (sample_args "exp" 8, None))
           (OS.mkFS [] {[ ["tmp"] := OS.Dir; ["tmp"; "invoker-states"] := OS.Dir;
                          ["tmp"; "invoker-states"; "proj.exp.running"] := OS.File "{}" ]})
           (mkInnerStateManager restartDir (Some ∅)) "/tmp/invoker-state" "s"
           [OS.mkDirEntry "proj.exp.running" false] "proj.exp.running" []).
  - reflexivity.
  - discriminate.
  - reflexivity.
  - vm_compute. reflexivity.
  - vm_compute. reflexivity.
  - split; [|reflexivity]. split_and!; discriminate.
Defined.

(** ** The default directories *)

Lemma mkdir_from_ok rest : ∀ nds pre nds',
  OS.mkdir_from nds pre rest = (nds', None) →
  nds ⊆ nds' ∧ (rest ≠ [] → nds' !! (pre ++ rest) = Some OS.Dir).
Proof.
  induction rest as [|e rest IH]; intros nds pre nds'; simpl.
  - intros [= <-]. done.
  - destruct (nds !! (pre ++ [e])) as [[content|]|] eqn:Hp; [done| |].
    + intros Hrun. destruct (IH _ _ _ Hrun) as [Hsub Hdir]. split; [done|]. intros _.
      destruct rest as [|e' rest].
      * by apply (lookup_weaken nds).
      * replace (pre ++ e :: e' :: rest) with ((pre ++ [e]) ++ e' :: rest)
          by (by rewrite <- app_assoc).
        by apply Hdir.
    + intros Hrun. destruct (IH _ _ _ Hrun) as [Hsub Hdir].
      split; [etrans; [by apply insert_subseteq|done]|]. intros _.
      destruct rest as [|e' rest].
      * apply (lookup_weaken (<[pre ++ [e] := OS.Dir]> nds)); [apply lookup_insert_eq|done].
      * replace (pre ++ e :: e' :: rest) with ((pre ++ [e]) ++ e' :: rest)
          by (by rewrite <- app_assoc).
        by apply Hdir.
Qed.

Lemma MkdirAll_ok fs path fs' :
  OS.MkdirAll fs path = (fs', None) →
  OS.cwd fs' = OS.cwd fs
  ∧ OS.nodes fs ⊆ OS.nodes fs'
  ∧ ∃ p, OS.resolve fs path = Some p ∧ OS.node_at fs' p = Some OS.Dir.
Proof.
  unfold OS.MkdirAll. destruct (OS.resolve fs path) as [p|]; [|done].
  destruct (OS.mkdir_from (OS.nodes fs) [] p) as [nds [err|]] eqn:Hrun; [done|].
  intros [= <-]. destruct (mkdir_from_ok _ _ _ _ Hrun) as [Hsub Hdir].
  split_and!; [done|done|]. exists p. split; [done|].
  unfold OS.node_at. case_decide; [done|]. by apply Hdir.
Qed.

Lemma resolve_cwd fs fs' path :
  OS.cwd fs' = OS.cwd fs → OS.resolve fs' path = OS.resolve fs path.
Proof. intros Hcwd. unfold OS.resolve. by rewrite Hcwd. Qed.

Lemma node_at_weaken fs fs' p n :
  OS.nodes fs ⊆ OS.nodes fs' → OS.node_at fs p = Some n → OS.node_at fs' p = Some n.
Proof.
  intros Hsub. unfold OS.node_at. case_decide; [done|].
  intros Hn. by apply (lookup_weaken (OS.nodes fs)).
Qed.

Lemma mkdirIfNotExists_done fs path fs' :
  mkdirIfNotExists fs path = (fs', None) →
  OS.cwd fs' = OS.cwd fs
  ∧ OS.nodes fs ⊆ OS.nodes fs'
  ∧ ∃ p, OS.resolve fs path = Some p
         ∧ match OS.node_at fs p with
           | Some n => fs' = fs
           | None => OS.node_at fs' p = Some OS.Dir
           end.
Proof.
  unfold mkdirIfNotExists, Stat.
  destruct (OS.resolve fs path) as [p|] eqn:Hres.
  - destruct (OS.node_at fs p) as [n|] eqn:Hnode.
    + intros [= <-]. split_and!; [done|done|]. exists p. by rewrite Hnode.
    + destruct (file_above fs p); simpl; [done|].
      destruct (OS.MkdirAll fs path) as [fs1 [err|]] eqn:Hmk; [done|].
      intros [= <-]. destruct (MkdirAll_ok _ _ _ Hmk) as (Hcwd & Hsub & p' & Hres' & Hdir).
      split_and!; [done|done|]. exists p. split; [done|]. rewrite Hnode.
      rewrite Hres in Hres'. by injection Hres' as <-.
  - simpl. unfold OS.MkdirAll. by rewrite Hres.
Qed.

Lemma mkdir_from_far rest : ∀ nds pre nds' err,
  OS.mkdir_from nds pre rest = (nds', err) →
  ∀ q, (length (pre ++ rest) < length q)%nat → nds' !! q = nds !! q.
Proof.
  induction rest as [|e rest IH]; intros nds pre nds' err; simpl.
  - by intros [= <- _].
  - destruct (nds !! (pre ++ [e])) as [[content|]|] eqn:Hp.
    + by intros [= <- _].
    + intros Hrun q Hq. apply (IH _ _ _ _ Hrun). rewrite <- app_assoc. done.
    + intros Hrun q Hq. rewrite (IH _ _ _ _ Hrun) by (by rewrite <- app_assoc).
      apply lookup_insert_ne. intros <-. rewrite !length_app in Hq. simpl in Hq. lia.
Qed.

Lemma mkdirIfNotExists_far fs path fs' err p q :
  mkdirIfNotExists fs path = (fs', err) →
  OS.resolve fs path = Some p →
  (length p < length q)%nat →
  OS.nodes fs' !! q = OS.nodes fs !! q.
Proof.
  unfold mkdirIfNotExists, Stat, OS.MkdirAll. intros Hrun Hres Hq. rewrite Hres in Hrun.
  destruct (OS.node_at fs p); [by injection Hrun as <- _|].
  destruct (file_above fs p); simpl in Hrun; [by injection Hrun as <- _|].
  destruct (OS.mkdir_from (OS.nodes fs) [] p) as [nds err'] eqn:Hmk.
  assert (nds !! q = OS.nodes fs !! q) as Hfar by (by apply (mkdir_from_far _ _ _ _ _ Hmk)).
  destruct err'; by injection Hrun as <- _.
Qed.

(** X25. [mkdirIfNotExists] returns without error when something exists at the
    path, a directory or a regular file alike, and then changes nothing;
    when it returns without error for a path where nothing was, a directory
    is there afterwards; and it never removes or replaces what the file
    system held. *)
Theorem mkdirIfNotExists_spec fs path :
  (∀ p n, OS.resolve fs path = Some p → OS.node_at fs p = Some n →
          mkdirIfNotExists fs path = (fs, None))
  ∧ (∀ fs', mkdirIfNotExists fs path = (fs', None) →
       OS.nodes fs ⊆ OS.nodes fs'
       ∧ ∃ p, OS.resolve fs path = Some p
              ∧ is_Some (OS.node_at fs' p)
              ∧ (OS.node_at fs p = None → OS.node_at fs' p = Some OS.Dir))
  ∧ (∀ fs' err, mkdirIfNotExists fs path = (fs', Some err) →
       OS.nodes fs ⊆ OS.nodes fs'
       ∧ ∀ p, OS.resolve fs path = Some p → OS.node_at fs p = None).
Proof.
  split_and!.
  - intros p n Hres Hnode. unfold mkdirIfNotExists, Stat. by rewrite Hres, Hnode.
  - intros fs' Hrun.
    destruct (mkdirIfNotExists_done _ _ _ Hrun) as (_ & Hsub & p & Hres & Hcase).
    split; [done|]. exists p. split; [done|].
    destruct (OS.node_at fs p) as [n|] eqn:Hnode.
    + subst fs'. rewrite Hnode. split; [by eexists|done].
    + split; [by eexists|done].
  - intros fs' err. unfold mkdirIfNotExists, Stat.
    destruct (OS.resolve fs path) as [p|] eqn:Hres.
    + destruct (OS.node_at fs p) as [n|] eqn:Hnode; [done|].
      destruct (file_above fs p); simpl.
      * intros [= <- _]. split; [done|]. by intros ? [= <-].
      * unfold OS.MkdirAll. rewrite Hres.
        destruct (OS.mkdir_from (OS.nodes fs) [] p) as [nds [err'|]] eqn:Hrun; [|done].
        intros [= <- _]. split; [|by intros ? [= <-]]. simpl.
        clear Hnode Hres. revert Hrun. generalize (@nil string). generalize (OS.nodes fs).
        induction p as [|e p IH]; intros nds0 pre; simpl; [done|].
        destruct (nds0 !! (pre ++ [e])) as [[content|]|] eqn:Hp.
        -- by intros [= <- _].
        -- apply IH.
        -- intros Hrun. etrans; [|by eapply IH]. by apply insert_subseteq.
    + simpl. unfold OS.MkdirAll. rewrite Hres. intros [= <- _]. done.
Qed.

(** [filepath.Join] of a rooted path and a plain name is a rooted path of
    one more element. *)
Lemma Join_dir_elems d name :
  GoPath.rooted d = true →
  plain_name name →
  GoPath.rooted (GoPath.Join d name) = true
  ∧ dir_elems (GoPath.Join d name) = dir_elems d ++ [name].
Proof.
  intros Hd Hplain.
  assert (GoPath.rooted (GoPath.Join d name) = true) as Hroot.
  { unfold GoPath.Join. rewrite decide_False by (by intros ->).
    rewrite decide_False by (by destruct Hplain as [[? _] _]).
    unfold GoPath.Clean. rewrite decide_False by (by destruct d).
    by rewrite rooted_append. }
  split; [done|].
  pose proof (resolve_Join (OS.mkFS [] ∅) d name Hd Hplain) as Hres.
  rewrite resolve_rooted in Hres by done. by injection Hres.
Qed.

Lemma resolve_dir_elems fs path :
  GoPath.rooted path = true → OS.resolve fs path = Some (dir_elems path).
Proof. apply resolve_rooted. Qed.

(** X26. When [makeDefaultDirectories] returns without error for a rooted home
    directory and plain names, the cache directory is [.cache] under the
    home directory, the checkpoint directory is
    [.cache/higgsfield/project/experiments/experiment/run] under it, both
    exist afterwards, the checkpoint directory is a directory when nothing
    was there before, and nothing that the file system held is removed or
    replaced. *)
Theorem makeDefaultDirectories_layout home fs projectName experimentName runName
    fs' cacheDir checkpointDir :
  GoPath.rooted home = true →
  plain_name projectName →
  plain_name experimentName →
  plain_name runName →
  makeDefaultDirectories (home, None) fs projectName experimentName runName
  = (fs', (cacheDir, checkpointDir, None)) →
  dir_elems cacheDir = dir_elems home ++ [".cache"]
  ∧ dir_elems checkpointDir
    = dir_elems home
      ++ [".cache"; "higgsfield"; projectName; "experiments"; experimentName; runName]
  ∧ OS.nodes fs ⊆ OS.nodes fs'
  ∧ is_Some (OS.node_at fs' (dir_elems cacheDir))
  ∧ is_Some (OS.node_at fs' (dir_elems checkpointDir))
  ∧ (OS.node_at fs (dir_elems checkpointDir) = None →
     OS.node_at fs' (dir_elems checkpointDir) = Some OS.Dir).
Proof.
  intros Hhome Hp He Hr. unfold makeDefaultDirectories.
  assert (plain_name ".cache" ∧ plain_name "higgsfield" ∧ plain_name "experiments")
    as (Hc & Hh & Hx) by (by repeat split).
  destruct (Join_dir_elems home ".cache" Hhome Hc) as [Hr1 He1].
  destruct (Join_dir_elems _ "higgsfield" Hr1 Hh) as [Hr2 He2].
  destruct (Join_dir_elems _ projectName Hr2 Hp) as [Hr3 He3].
  destruct (Join_dir_elems _ "experiments" Hr3 Hx) as [Hr4 He4].
  destruct (Join_dir_elems _ experimentName Hr4 He) as [Hr5 He5].
  destruct (Join_dir_elems _ runName Hr5 Hr) as [Hr6 He6].
  destruct (mkdirIfNotExists fs (GoPath.Join home ".cache")) as [fs1 [err|]] eqn:Hmk1;
    [done|].
  match goal with
  | |- context [mkdirIfNotExists fs1 ?k] =>
      destruct (mkdirIfNotExists fs1 k) as [fs2 [err|]] eqn:Hmk2; [done|]
  end.
  intros [= <- <- <-].
  destruct (mkdirIfNotExists_done _ _ _ Hmk1) as (Hcwd1 & Hsub1 & p1 & Hres1 & Hcase1).
  destruct (mkdirIfNotExists_done _ _ _ Hmk2) as (Hcwd2 & Hsub2 & p2 & Hres2 & Hcase2).
  rewrite resolve_dir_elems in Hres1, Hres2 by done.
  injection Hres1 as <-. injection Hres2 as <-.
  assert (is_Some (OS.node_at fs1 (dir_elems (GoPath.Join home ".cache")))) as [n1 Hn1].
  { destruct (OS.node_at fs _) as [n|] eqn:Hn; [subst fs1; by rewrite Hn|by eexists]. }
  split_and!.
  - done.
  - rewrite He6, He5, He4, He3, He2, He1. by rewrite <- !app_assoc.
  - by etrans.
  - exists n1. by apply (node_at_weaken fs1).
  - destruct (OS.node_at fs1 _) as [n|] eqn:Hn in Hcase2; [subst fs2; by rewrite Hn|by eexists].
  - intros Hnone.
    destruct (OS.node_at fs1 _) as [n|] eqn:Hn in Hcase2; [|done]. exfalso.
    rewrite He6, node_at_snoc in Hnone, Hn.
    rewrite (mkdirIfNotExists_far fs (GoPath.Join home ".cache") fs1 None
               (dir_elems (GoPath.Join home ".cache"))) in Hn;
      [congruence|done|by apply resolve_dir_elems|].
    rewrite He5, He4, He3, He2, !length_app. simpl. lia.
Qed.

Lemma makeDefaultDirectories_layout_witness :
  let fs := OS.mkFS [] {[ ["home"] := OS.Dir; ["home"; "user"] := OS.Dir ]} in
  let fs' :=
    OS.mkFS []
      (list_to_map
         [(["home"], OS.Dir);
          (["home"; "user"], OS.Dir);
          (["home"; "user"; ".cache"], OS.Dir);
          (["home"; "user"; ".cache"; "higgsfield"], OS.Dir);
          (["home"; "user"; ".cache"; "higgsfield"; "proj"], OS.Dir);
          (["home"; "user"; ".cache"; "higgsfield"; "proj"; "experiments"], OS.Dir);
          (["home"; "user"; ".cache"; "higgsfield"; "proj"; "experiments"; "exp"], OS.Dir);
          (["home"; "user"; ".cache"; "higgsfield"; "proj"; "experiments"; "exp"; "run"],
           OS.Dir)]) in
  let cacheDir := "/home/user/.cache" in
  let checkpointDir := "/home/user/.cache/higgsfield/proj/experiments/exp/run" in
  dir_elems cacheDir = dir_elems "/home/user" ++ [".cache"]
  ∧ dir_elems checkpointDir
    = dir_elems "/home/user" ++ [".cache"; "higgsfield"; "proj"; "experiments"; "exp"; "run"]
  ∧ OS.nodes fs ⊆ OS.nodes fs'
  ∧ is_Some (OS.node_at fs' (dir_elems cacheDir))
  ∧ is_Some (OS.node_at fs' (dir_elems checkpointDir))
  ∧ (OS.node_at fs (dir_elems checkpointDir) = None →
     OS.node_at fs' (dir_elems checkpointDir) = Some OS.Dir).
Proof.
  intros fs fs' cacheDir checkpointDir.
  apply (makeDefaultDirectories_layout "/home/user" fs "proj" "exp" "run"
           fs' cacheDir checkpointDir).
  - reflexivity.
  - split; [split_and!; discriminate|reflexivity].
  - split; [split_and!; discriminate|reflexivity].
  - split; [split_and!; discriminate|reflexivity].
  - vm_compute. reflexivity.
Defined.

(** ** A manager as [NewStateManager] makes it *)

Lemma FillStates_nil_outcome json_Decode fs r :
  States r = None →
  FillStates json_Decode fs r = Panic "assignment to entry in nil map"
  ∨ ∃ err, FillStates json_Decode fs r = Ret (r, err).
Proof.
  intros Hnil. unfold FillStates.
  destruct (OS.ReadDir fs (defaultRestartPath r)) as [files [err|]]; [right; by eexists|].
  induction files as [|file files IH]; simpl; [right; by eexists|].
  destruct (OS.IsDir file); [done|].
  destruct (isStateFile (OS.Name file)); simpl; [|done].
  destruct (readState json_Decode fs r (OS.Name file)) as [[state|] [err|]] eqn:Hread.
  - right. by eexists.
  - rewrite Hnil. by left.
  - right. by eexists.
  - by apply readState_never_nil in Hread.
Qed.

(** X27. [NewStateManager] leaves the table of the store unset, and on such a
    manager [FindLocalMatch] never records an observation: whatever the
    directory holds and whatever the runtime would answer, the call panics
    at the assignment into the unset table, or it returns with the manager
    exactly as it was, the page still holding the empty row of the local
    host only; when it returns without error, the result is that page
    marshalled. *)
Theorem FindLocalMatch_after_NewStateManager
    json_Decode json_Marshal_page newClient fs0 fs1 fs ip s order :
  NewStateManager fs0 (ip, None) = (fs1, (Some s, None)) →
  range_order (States (ism s)) order →
  (States (ism s) = None ∧ page s = {[ ip := ∅ ]} ∧ toRestart s = ∅ ∧ curIP s = ip)
  ∧ (FindLocalMatch json_Decode json_Marshal_page newClient fs s order
     = Panic "assignment to entry in nil map"
     ∨ ∃ out,
         FindLocalMatch json_Decode json_Marshal_page newClient fs s order = Ret (s, out)
         ∧ (out.2 = None → json_Marshal_page {[ ip := ∅ ]} = (out.1, None))).
Proof.
  intros Hnew Horder.
  assert (States (ism s) = None ∧ page s = {[ ip := ∅ ]} ∧ toRestart s = ∅ ∧ curIP s = ip)
    as (Hnil & Hpage & Htr & Hip).
  { unfold NewStateManager, NewInnerStateManagerWithDefPath, NewInnerStateManager in Hnew.
    destruct (OS.MkdirAll fs0 restartDir) as [fs' [err|]]; [done|].
    by injection Hnew as _ <-. }
  split; [done|].
  assert (order = []) as ->.
  { unfold range_order in Horder. rewrite Hnil in Horder. simpl in Horder.
    rewrite map_to_list_empty in Horder. by apply Permutation_nil_r in Horder. }
  assert (mkStateManager (curIP s) (page s) (ism s) (toRestart s) = s) as Hs by (by destruct s).
  unfold FindLocalMatch. destruct newClient as [cli [err|]].
  { right. eexists. split; [done|]. done. }
  destruct (FillStates_nil_outcome json_Decode fs (ism s) Hnil) as [->|[err ->]];
    [by left|].
  right. simpl. rewrite Hs. destruct err as [err|].
  { eexists. split; [done|]. done. }
  rewrite Hpage. destruct (json_Marshal_page {[ ip := ∅ ]}) as [res [err|]].
  - eexists. split; [done|]. done.
  - eexists. split; [done|]. done.
Qed.

Lemma FindLocalMatch_after_NewStateManager_witness :
  (States (ism sample_manager) = None ∧ page sample_manager = {[ "10.0.0.1" := ∅ ]}
   ∧ toRestart sample_manager = ∅ ∧ curIP sample_manager = "10.0.0.1")
  ∧ (FindLocalMatch (λ _, (sample_args "exp" 8, None)) (λ _, ("{}", None))
       (Some (λ _, ([], None)), None)
       (OS.mkFS [] {[ ["tmp"] := OS.Dir; ["tmp"; "invoker-states"] := OS.Dir ]})
       sample_manager []
     = Panic "assignment to entry in nil map"
     ∨ ∃ out,
         FindLocalMatch (λ _, (sample_args "exp" 8, None)) (λ _, ("{}", None))
           (Some (λ _, ([], None)), None)
           (OS.mkFS [] {[ ["tmp"] := OS.Dir; ["tmp"; "invoker-states"] := OS.Dir ]})
           sample_manager [] = Ret (sample_manager, out)
         ∧ (out.2 = None →
            (λ _ : gmap string (gmap string StateMatch), ("{}", @None error))
              {[ "10.0.0.1" := ∅ ]} = (out.1, None))).
Proof.
  apply (FindLocalMatch_after_NewStateManager (λ _, (sample_args "exp" 8, None))
           (λ _, ("{}", None)) (Some (λ _, ([], None)), None)
           (OS.mkFS [] ∅)
           (OS.mkFS [] {[ ["tmp"] := OS.Dir; ["tmp"; "invoker-states"] := OS.Dir ]})
           (OS.mkFS [] {[ ["tmp"] := OS.Dir; ["tmp"; "invoker-states"] := OS.Dir ]})
           "10.0.0.1" sample_manager []).
  - vm_compute. reflexivity.
  - unfold range_order. simpl. by rewrite map_to_list_empty.
Defined.

(** ** The first loop of [UpdateStates] *)

Lemma Remove_shrinks fs path fs' err :
  OS.Remove fs path = (fs', err) →
  OS.cwd fs' = OS.cwd fs
  ∧ OS.nodes fs' ⊆ OS.nodes fs
  ∧ (err = None → ∀ q, OS.resolve fs path = Some q → OS.nodes fs' !! q = None).
Proof.
  unfold OS.Remove. destruct (OS.resolve fs path) as [p|]; [|by intros [= <- <-]].
  destruct (OS.nodes fs !! p) as [[content|]|] eqn:Hp.
  - intros [= <- <-]. split_and!; [done|apply delete_subseteq|].
    intros _ q [= <-]. apply lookup_delete_eq.
  - case_decide; intros [= <- <-]; (split_and!; [done| |]); try done.
    + apply delete_subseteq.
    + intros _ q [= <-]. apply lookup_delete_eq.
  - by intros [= <- <-].
Qed.

(** X28. The first loop of [UpdateStates] only takes entries away, and when it
    ends without error every listed entry other than a directory whose name
    is no state-file name is gone from the place where the code removes it,
    the concatenation of the directory path and the entry's name: regular
    files that are no state files are removed with the state files. *)
Theorem UpdateStates_remove_spec r files : ∀ fs fs' err,
  UpdateStates_remove fs r files = (fs', err) →
  OS.cwd fs' = OS.cwd fs
  ∧ OS.nodes fs' ⊆ OS.nodes fs
  ∧ (err = None →
     ∀ file q,
       file ∈ files →
       ¬ (OS.IsDir file = true ∧ isStateFile (OS.Name file) = false) →
       OS.resolve fs (defaultRestartPath r +:+ OS.Name file) = Some q →
       OS.nodes fs' !! q = None).
Proof.
  induction files as [|file files IH]; intros fs fs' err; simpl.
  - intros [= <- <-]. split_and!; [done|done|]. by intros _ file q ?%elem_of_nil.
  - destruct (OS.IsDir file && negb (isStateFile (OS.Name file))) eqn:Hkeep.
    + intros Hrun. destruct (IH _ _ _ Hrun) as (Hcwd & Hsub & Hgone).
      split_and!; [done|done|]. intros -> f q [->|Hin]%elem_of_cons Hnot Hres.
      * exfalso. apply Hnot. apply andb_true_iff in Hkeep as [-> Hn].
        by apply negb_true_iff in Hn.
      * by apply (Hgone eq_refl f).
    + destruct (OS.Remove fs (defaultRestartPath r +:+ OS.Name file))
        as [fs1 [err1|]] eqn:Hrm.
      * intros [= <- <-]. destruct (Remove_shrinks _ _ _ _ Hrm) as (Hcwd & Hsub & _).
        by split_and!.
      * intros Hrun. destruct (Remove_shrinks _ _ _ _ Hrm) as (Hcwd1 & Hsub1 & Hgone1).
        destruct (IH _ _ _ Hrun) as (Hcwd & Hsub & Hgone).
        split_and!; [congruence|by etrans|].
        intros -> f q [->|Hin]%elem_of_cons Hnot Hres.
        -- eapply lookup_weaken_None; [|exact Hsub]. by apply Hgone1.
        -- apply (Hgone eq_refl f); [done|done|].
           by rewrite (resolve_cwd fs fs1).
Qed.

Lemma UpdateStates_remove_spec_witness :
  OS.cwd (OS.mkFS [] {[ ["states"] := OS.Dir ]})
  = OS.cwd (OS.mkFS [] {[ ["states"] := OS.Dir;
                          ["states"; "README"] := OS.File "notes" ]})
  ∧ OS.nodes (OS.mkFS [] {[ ["states"] := OS.Dir ]})
    ⊆ OS.nodes (OS.mkFS [] {[ ["states"] := OS.Dir;
                              ["states"; "README"] := OS.File "notes" ]})
  ∧ (@None error = None →
     ∀ file q,
       file ∈ [OS.mkDirEntry "README" false] →
       ¬ (OS.IsDir file = true ∧ isStateFile (OS.Name file) = false) →
       OS.resolve (OS.mkFS [] {[ ["states"] := OS.Dir;
                                 ["states"; "README"] := OS.File "notes" ]})
         (defaultRestartPath (mkInnerStateManager "/states/" (Some ∅)) +:+ OS.Name file)
       = Some q →
       OS.nodes (OS.mkFS [] {[ ["states"] := OS.Dir ]}) !! q = None).
Proof.
  apply (UpdateStates_remove_spec (mkInnerStateManager "/states/" (Some ∅))
           [OS.mkDirEntry "README" false]
           (OS.mkFS [] {[ ["states"] := OS.Dir; ["states"; "README"] := OS.File "notes" ]})
           (OS.mkFS [] {[ ["states"] := OS.Dir ]}) None).
  vm_compute. reflexivity.
Defined.

(** ** Making the store *)

(** X29. When [NewInnerStateManager] returns a store, the directory exists in
    the file system afterwards and can be listed, nothing that the file
    system held is removed or replaced, and the store holds the path as it
    was given, without a separator added, and an unset table. *)
Theorem NewInnerStateManager_spec fs restartPath fs' r :
  NewInnerStateManager fs restartPath = (fs', (Some r, None)) →
  defaultRestartPath r = restartPath
  ∧ States r = None
  ∧ OS.nodes fs ⊆ OS.nodes fs'
  ∧ ∃ p files,
      OS.resolve fs' restartPath = Some p
      ∧ OS.node_at fs' p = Some OS.Dir
      ∧ OS.ReadDir fs' (defaultRestartPath r) = (files, None).
Proof.
  unfold NewInnerStateManager.
  destruct (OS.MkdirAll fs restartPath) as [fs1 [err|]] eqn:Hmk; [done|].
  intros [= <- <-]. destruct (MkdirAll_ok _ _ _ Hmk) as (Hcwd & Hsub & p & Hres & Hdir).
  split_and!; [done|done|done|].
  assert (OS.resolve fs1 restartPath = Some p) as Hres1 by (by rewrite (resolve_cwd fs)).
  exists p. eexists. split_and!; [done|done|].
  unfold OS.ReadDir. simpl. by rewrite Hres1, Hdir.
Qed.

Lemma NewInnerStateManager_spec_witness :
  defaultRestartPath (mkInnerStateManager restartDir None) = restartDir
  ∧ States (mkInnerStateManager restartDir None) = None
  ∧ OS.nodes (OS.mkFS [] ∅)
    ⊆ OS.nodes (OS.mkFS [] {[ ["tmp"] := OS.Dir; ["tmp"; "invoker-states"] := OS.Dir ]})
  ∧ ∃ p files,
      OS.resolve (OS.mkFS [] {[ ["tmp"] := OS.Dir; ["tmp"; "invoker-states"] := OS.Dir ]})
        restartDir = Some p
      ∧ OS.node_at (OS.mkFS [] {[ ["tmp"] := OS.Dir; ["tmp"; "invoker-states"] := OS.Dir ]}) p
        = Some OS.Dir
      ∧ OS.ReadDir (OS.mkFS [] {[ ["tmp"] := OS.Dir; ["tmp"; "invoker-states"] := OS.Dir ]})
          (defaultRestartPath (mkInnerStateManager restartDir None)) = (files, None).
Proof.
  apply (NewInnerStateManager_spec (OS.mkFS [] ∅) restartDir
           (OS.mkFS [] {[ ["tmp"] := OS.Dir; ["tmp"; "invoker-states"] := OS.Dir ]})
           (mkInnerStateManager restartDir None)).
  vm_compute. reflexivity.
Defined.
